(** * Remuxeador: the job orchestration pipeline, embedded and verified

    A shallow embedding of the core of the remuxer (domain models,
    validators, MKVMerge command builder, process runner, remux services,
    episode matcher and batch service), with the properties of its
    specification stated and settled against it.

    Conventions of the embedding:
    - Python [int] is [Z]; [str] is [string] (characters are the code points
      below 256); [Optional[T]] is [option T]; [float] values that the code
      only stores or divides are exact rationals [Q].
    - [pathlib.Path] is the text of the path; [str(path)] is the identity.
    - Code that raises, mutates an object or talks to the file system, the
      clock or a subprocess lives in a state-and-exception monad: the state
      survives a raise, as a Python object keeps its mutations. *)

From Stdlib Require Import ZArith QArith String Ascii List Lia Bool.
From stdpp Require Import base option list strings pretty gmap sorting.
Import ListNotations.

Set Warnings "-clear-no-such-hyp".

Local Open Scope Z_scope.
Local Open Scope string_scope.
Local Open Scope list_scope.

(** ** Python primitives *)

Module Py.

(** Exceptions derived from [Exception]: the class decides which [except]
    clause takes them, [str(e)] is the message. *)
Inductive exn_class : Type :=
| ValidationError
| AttributeError
| ZeroDivisionError
| OtherException (name : string).

Record exn : Type := Exn { exn_cls : exn_class; exn_msg : string }.

Definition is_ValidationError (e : exn) : bool :=
  match exn_cls e with ValidationError => true | _ => false end.

(** Outcome of a computation: a value or a raised exception. *)
Inductive res (A : Type) : Type :=
| Ret (a : A)
| Raise (e : exn).
Arguments Ret {A} a.
Arguments Raise {A} e.

(** State and exceptions. *)
Definition M (S A : Type) : Type := S -> res A * S.

Definition ret {S A} (a : A) : M S A := fun s => (Ret a, s).

Definition raise {S A} (e : exn) : M S A := fun s => (Raise e, s).

Definition bind {S A B} (m : M S A) (f : A -> M S B) : M S B :=
  fun s => match m s with
           | (Ret a, s') => f a s'
           | (Raise e, s') => (Raise e, s')
           end.

Definition gets {S A} (f : S -> A) : M S A := fun s => (Ret (f s), s).

Definition modify {S} (f : S -> S) : M S unit := fun s => (Ret tt, f s).

(** [try: body except Exception as e: handler e]. *)
Definition try_except {S A} (body : M S A) (handler : exn -> M S A) : M S A :=
  fun s => match body s with
           | (Ret a, s') => (Ret a, s')
           | (Raise e, s') => handler e s'
           end.

(** A pure, fallible value used inside the monad. *)
Definition lift_res {S A} (r : res A) : M S A := fun s => (r, s).

(** [for x in xs: body x]. *)
Fixpoint for_each {S A} (xs : list A) (body : A -> M S unit) : M S unit :=
  match xs with
  | [] => ret tt
  | x :: xs' => bind (body x) (fun _ => for_each xs' body)
  end.

(** [str(n)] for an [int]. CPython refuses to format an integer of more
    than 4300 digits; the embedding formats every integer, so what is proved
    about a formatted number holds for the integers within that limit. *)
Definition str_int (n : Z) : string := pretty n.

(** The default of [sys.get_int_max_str_digits()]. *)
Definition int_max_str_digits : Z := 4300.

(** Value of one decimal digit character. *)
Definition digit_value (c : ascii) : Z := Z.of_nat (nat_of_ascii c) - 48.

(** The value of a string of decimal digits, as the patterns capture
    them. *)
Definition int_str (s : string) : Z :=
  fold_left (fun acc c => 10 * acc + digit_value c) (list_ascii_of_string s) 0.

(** Truth value of an [Optional[str]]: [None] and the empty string are
    false. *)
Definition truthy_str (o : option string) : bool :=
  match o with
  | Some s => negb (String.eqb s "")
  | None => false
  end.

End Py.

Export Py.

Declare Scope py_scope.
Delimit Scope py_scope with py.
Notation "x <~ m ;; k" := (bind m (fun x => k))
  (at level 100, m at next level, right associativity) : py_scope.
Notation "m ;;; k" := (bind m (fun _ => k))
  (at level 100, right associativity) : py_scope.

Local Open Scope py_scope.

(** ** core/domain/enums.py *)

Inductive TrackType : Type := VIDEO | AUDIO | SUBTITLE | ATTACHMENT.

Inductive JobStatus : Type := PENDING | RUNNING | COMPLETED | FAILED | CANCELLED.

Inductive LanguageCode : Type :=
| JAPANESE
| SPANISH | SPANISH_LATIN | SPANISH_SPAIN | SPANISH_MEXICO
| ENGLISH | ENGLISH_US | ENGLISH_UK
| PORTUGUESE | PORTUGUESE_BR | PORTUGUESE_PT
| FRENCH | GERMAN | ITALIAN | CHINESE | KOREAN | RUSSIAN | ARABIC
| UNKNOWN.

(** [LanguageCode.value]. *)
Definition language_value (l : LanguageCode) : string :=
  match l with
  | JAPANESE => "ja"
  | SPANISH => "es"
  | SPANISH_LATIN => "es-419"
  | SPANISH_SPAIN => "es-ES"
  | SPANISH_MEXICO => "es-MX"
  | ENGLISH => "en"
  | ENGLISH_US => "en-US"
  | ENGLISH_UK => "en-GB"
  | PORTUGUESE => "pt"
  | PORTUGUESE_BR => "pt-BR"
  | PORTUGUESE_PT => "pt-PT"
  | FRENCH => "fr"
  | GERMAN => "de"
  | ITALIAN => "it"
  | CHINESE => "zh"
  | KOREAN => "ko"
  | RUSSIAN => "ru"
  | ARABIC => "ar"
  | UNKNOWN => "und"
  end.

(** An [Enum] member has no [__bool__]: every member is true. *)
Definition truthy_language (l : LanguageCode) : bool := true.

#[global] Instance JobStatus_eq_dec : EqDecision JobStatus.
Proof. solve_decision. Defined.

(** ** core/domain/models.py *)

Definition Path : Type := string.

(** Seconds, for [datetime.now()] and [time.time()]. *)
Definition Time : Type := Q.

Module Track.

Record t : Type := mk {
  id : Z;
  type : TrackType;
  codec : string;
  language : LanguageCode;
  title : option string;
  offset_ms : Z;
  is_default : bool;
  is_forced : bool;
  file_path : option Path;
  bitrate : option Z;
  duration : option Q
}.

(** [with_offset(self, offset_ms)]: a new track, the receiver is frozen. *)
Definition with_offset (self : t) (offset_ms' : Z) : t :=
  {| id := id self;
     type := type self;
     codec := codec self;
     language := language self;
     title := title self;
     offset_ms := offset_ms';
     is_default := is_default self;
     is_forced := is_forced self;
     file_path := file_path self;
     bitrate := bitrate self;
     duration := duration self |}.

End Track.

Module RemuxResult.

Record t : Type := mk {
  success : bool;
  output_file : option Path;
  error_message : option string;
  duration_seconds : option Q;
  input_size_bytes : option Z;
  output_size_bytes : option Z
}.

(** [RemuxResult(success=False, error_message=msg)]. *)
Definition failure (msg : string) : t := mk false None (Some msg) None None None.

(** [RemuxResult(success=True, output_file=out)]. *)
Definition succeeded (out : option Path) : t := mk true out None None None None.

(** [result.duration_seconds = d]. *)
Definition set_duration_seconds (d : Q) (r : t) : t :=
  mk (success r) (output_file r) (error_message r) (Some d)
     (input_size_bytes r) (output_size_bytes r).

End RemuxResult.

Module RemuxJob.

Record t : Type := mk {
  video_file : Path;
  output_file : Path;
  audio_tracks : list Track.t;
  subtitle_tracks : list Track.t;
  overwrite_source_subtitles : bool;
  include_original_audio : bool;
  include_original_subtitles : bool;
  status : JobStatus;
  progress : Z;
  error_message : option string;
  created_at : Time;
  started_at : option Time;
  completed_at : option Time
}.

Definition is_pending (self : t) : bool := bool_decide (status self = PENDING).
Definition is_running (self : t) : bool := bool_decide (status self = RUNNING).
Definition is_completed (self : t) : bool := bool_decide (status self = COMPLETED).
Definition is_failed (self : t) : bool := bool_decide (status self = FAILED).

(** [start(self)]; [now] is what [datetime.now()] returns. *)
Definition start (now : Time) (self : t) : t :=
  {| video_file := video_file self;
     output_file := output_file self;
     audio_tracks := audio_tracks self;
     subtitle_tracks := subtitle_tracks self;
     overwrite_source_subtitles := overwrite_source_subtitles self;
     include_original_audio := include_original_audio self;
     include_original_subtitles := include_original_subtitles self;
     status := RUNNING;
     progress := 0;
     error_message := error_message self;
     created_at := created_at self;
     started_at := Some now;
     completed_at := completed_at self |}.

(** [complete(self)]. *)
Definition complete (now : Time) (self : t) : t :=
  {| video_file := video_file self;
     output_file := output_file self;
     audio_tracks := audio_tracks self;
     subtitle_tracks := subtitle_tracks self;
     overwrite_source_subtitles := overwrite_source_subtitles self;
     include_original_audio := include_original_audio self;
     include_original_subtitles := include_original_subtitles self;
     status := COMPLETED;
     progress := 100;
     error_message := error_message self;
     created_at := created_at self;
     started_at := started_at self;
     completed_at := Some now |}.

(** [fail(self, error_message)]. *)
Definition fail (now : Time) (error_message' : string) (self : t) : t :=
  {| video_file := video_file self;
     output_file := output_file self;
     audio_tracks := audio_tracks self;
     subtitle_tracks := subtitle_tracks self;
     overwrite_source_subtitles := overwrite_source_subtitles self;
     include_original_audio := include_original_audio self;
     include_original_subtitles := include_original_subtitles self;
     status := FAILED;
     progress := progress self;
     error_message := Some error_message';
     created_at := created_at self;
     started_at := started_at self;
     completed_at := Some now |}.

(** [update_progress(self, progress)]: clamped to 0..100. *)
Definition update_progress (progress' : Z) (self : t) : t :=
  {| video_file := video_file self;
     output_file := output_file self;
     audio_tracks := audio_tracks self;
     subtitle_tracks := subtitle_tracks self;
     overwrite_source_subtitles := overwrite_source_subtitles self;
     include_original_audio := include_original_audio self;
     include_original_subtitles := include_original_subtitles self;
     status := status self;
     progress := Z.max 0 (Z.min 100 progress');
     error_message := error_message self;
     created_at := created_at self;
     started_at := started_at self;
     completed_at := completed_at self |}.

(** [RemuxJob(video_file=..., output_file=..., ...)] with the defaults of
    the state fields; [now] is the [created_at] default. *)
Definition new (now : Time) (video output : Path) (audios subs : list Track.t)
    (overwrite incl_audio incl_subs : bool) : t :=
  mk video output audios subs overwrite incl_audio incl_subs
     PENDING 0 None now None None.

End RemuxJob.

Module DualVideoRemuxJob.

Record t : Type := mk {
  video_primary : Path;
  video_secondary : Path;
  output_file : Path;
  audio_offset_ms : Z;
  subtitle_offset_ms : Z;
  include_primary_audio : bool;
  include_secondary_audio : bool;
  include_primary_subtitles : bool;
  include_secondary_subtitles : bool;
  primary_audio_language : LanguageCode;
  primary_audio_title : string;
  secondary_audio_language : LanguageCode;
  secondary_audio_title : string;
  external_audio_tracks : list Track.t;
  external_subtitle_tracks : list Track.t;
  status : JobStatus;
  progress : Z;
  error_message : option string;
  created_at : Time;
  started_at : option Time;
  completed_at : option Time
}.

(** The three fields the lifecycle methods write. *)
Definition set_state (st : JobStatus) (pr : Z) (msg : option string)
    (started completed : option Time) (self : t) : t :=
  mk (video_primary self) (video_secondary self) (output_file self)
     (audio_offset_ms self) (subtitle_offset_ms self)
     (include_primary_audio self) (include_secondary_audio self)
     (include_primary_subtitles self) (include_secondary_subtitles self)
     (primary_audio_language self) (primary_audio_title self)
     (secondary_audio_language self) (secondary_audio_title self)
     (external_audio_tracks self) (external_subtitle_tracks self)
     st pr msg (created_at self) started completed.

Definition start (now : Time) (self : t) : t :=
  set_state RUNNING 0 (error_message self) (Some now) (completed_at self) self.

Definition complete (now : Time) (self : t) : t :=
  set_state COMPLETED 100 (error_message self) (started_at self) (Some now) self.

Definition fail (now : Time) (error_message' : string) (self : t) : t :=
  set_state FAILED (progress self) (Some error_message') (started_at self)
            (Some now) self.

Definition update_progress (progress' : Z) (self : t) : t :=
  set_state (status self) (Z.max 0 (Z.min 100 progress')) (error_message self)
            (started_at self) (completed_at self) self.

End DualVideoRemuxJob.

Module Episode.

Record t : Type := mk {
  number : Z;
  video_file : option Path;
  audio_files : list Path;
  subtitle_files : list Path;
  forced_subtitle_files : list Path
}.

(** [is_complete]: the video file is not [None]. *)
Definition is_complete (self : t) : bool :=
  match video_file self with Some _ => true | None => false end.

End Episode.

(** ** The outside world

    What the code reaches through [pathlib], [datetime]/[time] and
    [subprocess]. Every operation that can raise in Python can raise here.
    Console output ([print]) is not modelled. *)

(** A subprocess that has run: the lines that were read from its stderr,
    the error that ended the reading if one did ([for line in process.stderr]
    decodes as it reads, and a line that cannot be decoded raises inside the
    loop), and the exit code. *)
Record Process : Type := mkProcess {
  stderr : list string;
  stderr_error : option exn;
  returncode : Z
}.

Class World (W : Type) : Type := {
  (** [datetime.now()], [time.time()]: reading the clock. *)
  now : W -> Time;
  (** [Path.exists()], [Path.is_file()], [Path.is_dir()]. *)
  path_exists : Path -> M W bool;
  path_is_file : Path -> M W bool;
  path_is_dir : Path -> M W bool;
  (** [Path.mkdir(parents=True, exist_ok=True)]. *)
  path_mkdir : Path -> M W unit;
  (** [Path.resolve()]. *)
  path_resolve : Path -> M W Path;
  (** [Path.parent], [Path.suffix], [Path.name], [dir / name]. *)
  path_parent : Path -> Path;
  path_suffix : Path -> string;
  path_name : Path -> string;
  path_join : Path -> string -> Path;
  (** [list(directory.glob(pattern))]. *)
  path_glob : Path -> string -> M W (list Path);
  (** [subprocess.Popen(command, ...)] and what the process goes on to
      do. *)
  popen : list string -> M W Process;
  (** [pattern.format(ep=n)]. *)
  str_format_ep : string -> Z -> res string
}.

(** An object [J] next to the world: the job a service mutates. *)
Definition lift {W J A} (m : M W A) : M (W * J) A :=
  fun s => match m (fst s) with (r, w') => (r, (w', snd s)) end.

Definition get_self {W J} : M (W * J) J := gets snd.

Definition update_self {W J} (f : J -> J) : M (W * J) unit :=
  modify (fun s => (fst s, f (snd s))).

Definition clock {W J} `{World W} : M (W * J) Time := gets (fun s => now (fst s)).

(** Run a computation on a fresh object and hand the object back with the
    value. *)
Definition with_self {W J A} (j : J) (m : M (W * J) A) : M W (A * J) :=
  fun w => match m (w, j) with
           | (Ret a, s') => (Ret (a, snd s'), fst s')
           | (Raise e, s') => (Raise e, fst s')
           end.

(** Letters outside ASCII that the messages of the program use. *)
Definition a_acute : string := String "225" "".
Definition i_acute : string := String "237" "".
Definition o_acute : string := String "243" "".
Definition n_tilde : string := String "241" "".

(** ** core/utils/file_utils.py *)

(** [c.lower()] on the code points below 256. *)
Definition lower_char (c : ascii) : ascii :=
  let n := nat_of_ascii c in
  if ((65 <=? n) && (n <=? 90))%nat then ascii_of_nat (n + 32)
  else if ((192 <=? n) && (n <=? 222) && negb (n =? 215))%nat then ascii_of_nat (n + 32)
  else c.

Fixpoint lower (s : string) : string :=
  match s with
  | EmptyString => EmptyString
  | String c s' => String (lower_char c) (lower s')
  end.

Definition VIDEO_EXTENSIONS : list string :=
  [".mkv"; ".mp4"; ".avi"; ".mov"; ".webm"; ".flv"; ".m4v"].
Definition AUDIO_EXTENSIONS : list string :=
  [".m4a"; ".aac"; ".mp3"; ".flac"; ".opus"; ".ogg"; ".wav"].
Definition SUBTITLE_EXTENSIONS : list string :=
  [".ass"; ".srt"; ".sub"; ".ssa"; ".vtt"].

(** [x in S] for a set of strings. *)
Definition str_in (x : string) (S : list string) : bool :=
  existsb (String.eqb x) S.

Section FileUtils.
Context {W : Type} `{World W}.

Definition get_file_extension (file_path : Path) : string :=
  lower (path_suffix file_path).

Definition is_video_file (file_path : Path) : bool :=
  str_in (get_file_extension file_path) VIDEO_EXTENSIONS.

Definition is_audio_file (file_path : Path) : bool :=
  str_in (get_file_extension file_path) AUDIO_EXTENSIONS.

Definition is_subtitle_file (file_path : Path) : bool :=
  str_in (get_file_extension file_path) SUBTITLE_EXTENSIONS.
End FileUtils.

(** [s.replace(old, new)] for two single characters. *)
Fixpoint replace_char (old new : ascii) (s : string) : string :=
  match s with
  | EmptyString => EmptyString
  | String c s' => String (if Ascii.eqb c old then new else c) (replace_char old new s')
  end.

(** The characters Windows refuses in a file name; the fourth is the
    double quote. *)
Definition invalid_chars : list ascii :=
  ["<"; ">"; ":"; "034"; "/"; "\"; "|"; "?"; "*"]%char.

(** [sanitize_filename(filename)]: one [replace] for each invalid
    character, in order. *)
Definition sanitize_filename (filename : string) : string :=
  fold_left (fun sanitized char => replace_char char "_" sanitized) invalid_chars filename.

(** ** core/utils/validators.py *)

Definition validation_error {S A} (msg : string) : M S A :=
  raise (Exn ValidationError msg).

(** The two messages of [validate_tracks]. *)
Definition duplicate_ids_message : string := "Hay pistas con IDs duplicados".

Definition offset_message (t : Track.t) : string :=
  "El offset de la pista " +:+ str_int (Track.id t) +:+ " es demasiado grande: "
  +:+ str_int (Track.offset_ms t) +:+ "ms".

(** The loop over the tracks: the first offset beyond one hour raises. *)
Fixpoint check_offsets (tracks : list Track.t) : res unit :=
  match tracks with
  | [] => Ret tt
  | track :: rest =>
      if Z.abs (Track.offset_ms track) >? 3600000
      then Raise (Exn ValidationError (offset_message track))
      else check_offsets rest
  end.

(** [validate_tracks(tracks)]. *)
Definition validate_tracks (tracks : list Track.t) : res unit :=
  match tracks with
  | [] => Ret tt
  | _ =>
      let ids := map Track.id tracks in
      if negb (length ids =? size (list_to_set ids : gset Z))%nat
      then Raise (Exn ValidationError duplicate_ids_message)
      else check_offsets tracks
  end.

Section Validators.
Context {W : Type} `{World W}.

Definition validate_file_exists (file_path : Path) (file_type : string) : M W unit :=
  ex <~ path_exists file_path ;;
  if negb ex
  then validation_error ("El " +:+ file_type +:+ " no existe: " +:+ file_path)
  else
    isf <~ path_is_file file_path ;;
    if negb isf
    then validation_error ("La ruta no es un archivo: " +:+ file_path)
    else ret tt.

Definition validate_output_path (output_path : Path) : M W unit :=
  let parent := path_parent output_path in
  pex <~ path_exists parent ;;
  (if negb pex
   then try_except (path_mkdir parent)
          (fun e => validation_error
             ("No se puede crear el directorio de salida: " +:+ exn_msg e))
   else ret tt) ;;;
  oex <~ path_exists output_path ;;
  if oex
  then
    isd <~ path_is_dir output_path ;;
    if isd
    then validation_error ("La ruta de salida es un directorio: " +:+ output_path)
    else ret tt
  else ret tt.

Definition validate_video_file (file_path : Path) : M W unit :=
  validate_file_exists file_path "archivo de video" ;;;
  if negb (is_video_file file_path)
  then validation_error
         ("El archivo no tiene una extensi" +:+ o_acute +:+ "n de video v"
          +:+ a_acute +:+ "lida: " +:+ path_suffix file_path)
  else ret tt.

(** [validate_remux_job(job)]. *)
Definition validate_remux_job (job : RemuxJob.t) : M W unit :=
  validate_video_file (RemuxJob.video_file job) ;;;
  validate_output_path (RemuxJob.output_file job) ;;;
  out <~ path_resolve (RemuxJob.output_file job) ;;
  vid <~ path_resolve (RemuxJob.video_file job) ;;
  (if String.eqb out vid
   then validation_error
          "El archivo de salida no puede ser el mismo que el de entrada"
   else ret tt) ;;;
  lift_res (validate_tracks (RemuxJob.audio_tracks job)) ;;;
  lift_res (validate_tracks (RemuxJob.subtitle_tracks job)) ;;;
  match RemuxJob.audio_tracks job, RemuxJob.subtitle_tracks job with
  | [], [] =>
      if negb (RemuxJob.include_original_audio job)
         && negb (RemuxJob.include_original_subtitles job)
      then validation_error "No hay pistas para incluir en el remuxeo"
      else ret tt
  | _, _ => ret tt
  end.
End Validators.

(** ** The fragment of Python's [re] the program uses

    A backtracking matcher with Python's priorities: alternatives left to
    right, repetitions greedy, [search] leftmost. Patterns are written as
    syntax trees next to their source text. *)

Module Re.

Inductive regex : Type :=
| Lit (c : ascii)                       (* a literal character *)
| Class (p : ascii -> bool)             (* [\d], [\s], [[...]] *)
| Cat (r1 r2 : regex)                   (* r1 r2 *)
| Alt (r1 r2 : regex)                   (* r1|r2 *)
| Rep (r : regex) (lo : nat) (hi : option nat)  (* r{lo,hi}; [None]: no bound *)
| Group (i : nat) (r : regex)           (* the capturing group number i+1 *)
| Bol                                   (* ^ *)
| Eol.                                  (* $ *)

(** [\d] and [\s] on the code points below 256. *)
Definition is_digit (c : ascii) : bool :=
  let n := nat_of_ascii c in ((48 <=? n) && (n <=? 57))%nat.

Definition is_space (c : ascii) : bool :=
  let n := nat_of_ascii c in
  (((9 <=? n) && (n <=? 13)) || ((28 <=? n) && (n <=? 32))
   || (n =? 133) || (n =? 160))%nat.

Definition one_of (s : string) (c : ascii) : bool :=
  existsb (Ascii.eqb c) (list_ascii_of_string s).

(** The other case of a letter, for [re.IGNORECASE]. *)
Definition upper_char (c : ascii) : ascii :=
  let n := nat_of_ascii c in
  if ((97 <=? n) && (n <=? 122))%nat then ascii_of_nat (n - 32)
  else if ((224 <=? n) && (n <=? 254) && negb (n =? 247))%nat then ascii_of_nat (n - 32)
  else c.

Definition class_matches (ignorecase : bool) (p : ascii -> bool) (c : ascii) : bool :=
  p c || (ignorecase && (p (lower_char c) || p (upper_char c))).

(** Position in the subject and what is left of it. *)
Definition cursor : Type := (nat * list ascii)%type.

Definition captures : Type := list (option string).

(** The text between two cursors. *)
Definition consumed (from to : cursor) : string :=
  string_of_list_ascii (take (fst to - fst from) (snd from)).

(** [rmatch ic r cur caps k]: match [r] at [cur], then continue with [k];
    [None] makes the matcher backtrack. *)
Fixpoint rmatch {R : Type} (ic : bool) (r : regex) (cur : cursor) (caps : captures)
    (k : cursor -> captures -> option R) {struct r} : option R :=
  match r with
  | Lit c0 =>
      match snd cur with
      | c :: rest =>
          if class_matches ic (Ascii.eqb c0) c then k (S (fst cur), rest) caps else None
      | [] => None
      end
  | Class p =>
      match snd cur with
      | c :: rest =>
          if class_matches ic p c then k (S (fst cur), rest) caps else None
      | [] => None
      end
  | Cat r1 r2 => rmatch ic r1 cur caps (fun cur' caps' => rmatch ic r2 cur' caps' k)
  | Alt r1 r2 =>
      match rmatch ic r1 cur caps k with
      | Some x => Some x
      | None => rmatch ic r2 cur caps k
      end
  | Rep r1 lo hi =>
      (fix loop (n lo : nat) (cur : cursor) (caps : captures) {struct n} : option R :=
         match n with
         | O => if (lo =? 0)%nat then k cur caps else None
         | S n' =>
             match rmatch ic r1 cur caps (fun cur' caps' => loop n' (pred lo) cur' caps') with
             | Some x => Some x
             | None => if (lo =? 0)%nat then k cur caps else None
             end
         end)
        (match hi with Some h => h | None => length (snd cur) end) lo cur caps
  | Group i r1 =>
      rmatch ic r1 cur caps
        (fun cur' caps' => k cur' (<[i := Some (consumed cur cur')]> caps'))
  | Bol => if (fst cur =? 0)%nat then k cur caps else None
  | Eol =>
      match snd cur with
      | [] => k cur caps
      | [c] => if Ascii.eqb c "010" then k cur caps else None
      | _ => None
      end
  end.

(** [match] at one position: the groups of the first successful path. *)
Definition match_at (ic : bool) (ngroups : nat) (r : regex) (cur : cursor)
    : option captures :=
  rmatch ic r cur (replicate ngroups None) (fun _ caps => Some caps).

Fixpoint search_from (ic : bool) (ngroups : nat) (r : regex) (pos : nat)
    (rest : list ascii) : option captures :=
  match match_at ic ngroups r (pos, rest) with
  | Some caps => Some caps
  | None =>
      match rest with
      | [] => None
      | _ :: rest' => search_from ic ngroups r (S pos) rest'
      end
  end.

(** A compiled pattern: flags, number of groups, syntax. *)
Record pattern : Type := mkPattern {
  ignorecase : bool;
  ngroups : nat;
  syntax : regex
}.

(** [pattern.search(s)]: [match.groups()] of the leftmost match. *)
Definition search (p : pattern) (s : string) : option captures :=
  search_from (ignorecase p) (ngroups p) (syntax p) 0 (list_ascii_of_string s).

(** A literal word. *)
Fixpoint word (s : string) : regex :=
  match s with
  | EmptyString => Rep (Lit "000") 0 (Some 0%nat)
  | String c EmptyString => Lit c
  | String c s' => Cat (Lit c) (word s')
  end.

Definition digit : regex := Class is_digit.
Definition space : regex := Class is_space.

End Re.

(** The [ValueError] of [int] on a text of more than 4300 digits. *)
Definition int_limit_message (digits : nat) : string :=
  "Exceeds the limit (4300 digits) for integer string conversion: value has "
  +:+ str_int (Z.of_nat digits)
  +:+ " digits; use sys.set_int_max_str_digits() to increase the limit".

(** [int(s)] for a string of decimal digits: a [ValueError] beyond 4300
    digits; [int(None)] is a [TypeError]. *)
Definition int_of_group (g : option string) : res Z :=
  match g with
  | Some s =>
      if (int_max_str_digits <? Z.of_nat (String.length s))%Z
      then Raise (Exn (OtherException "ValueError") (int_limit_message (String.length s)))
      else Ret (int_str s)
  | None => Raise (Exn (OtherException "TypeError")
                       "int() argument must be a string, a bytes-like object or a real number, not 'NoneType'")
  end.

(** ** core/services/episode_matcher.py *)

Module EpisodeMatcher.
Import Re.

(** [[\s_-]], [[\s_\[\(]], [[\s_\.-]]. *)
Definition sep : regex := Class (fun c => is_space c || one_of "_-" c).
Definition sep_open : regex := Class (fun c => is_space c || one_of "_[(" c).
Definition sep_dot : regex := Class (fun c => is_space c || one_of "_.-" c).

Definition digits (lo hi : nat) : regex := Rep digit lo (Some hi).

(** The patterns, in priority order, each compiled with [re.IGNORECASE]. *)
Definition EPISODE_PATTERNS : list pattern :=
  [ (* [Ss](\d{1,2})[Ee](\d{1,2}) *)
    mkPattern true 2
      (Cat (Class (one_of "Ss")) (Cat (Group 0 (digits 1 2))
         (Cat (Class (one_of "Ee")) (Group 1 (digits 1 2)))));
    (* [Ss](\d{1,2})\s*[Ee](\d{1,2}) *)
    mkPattern true 2
      (Cat (Class (one_of "Ss")) (Cat (Group 0 (digits 1 2))
         (Cat (Rep space 0 None)
            (Cat (Class (one_of "Ee")) (Group 1 (digits 1 2))))));
    (* (?:Episode|Episodio|Ep|E)[\s_-]*(\d{1,3}) *)
    mkPattern true 1
      (Cat (Alt (word "Episode") (Alt (word "Episodio") (Alt (word "Ep") (word "E"))))
         (Cat (Rep sep 0 None) (Group 0 (digits 1 3))));
    (* [\s_-](\d{2,3})[\s_\[\(] *)
    mkPattern true 1 (Cat sep (Cat (Group 0 (digits 2 3)) sep_open));
    (* ^(\d{2,3})[\s_\.-] *)
    mkPattern true 1 (Cat Bol (Cat (Group 0 (digits 2 3)) sep_dot));
    (* [\s_-](\d{2,3})$ *)
    mkPattern true 1 (Cat sep (Cat (Group 0 (digits 2 3)) Eol));
    (* [\s_-](\d{2,3})[\s_\.-] *)
    mkPattern true 1 (Cat sep (Cat (Group 0 (digits 2 3)) sep_dot)) ].

(** [forced], [letreros], [signs], [signs?\s*&\s*songs?]. *)
Definition FORCED_PATTERNS : list pattern :=
  [ mkPattern true 0 (word "forced");
    mkPattern true 0 (word "letreros");
    mkPattern true 0 (word "signs");
    mkPattern true 0
      (Cat (word "sign") (Cat (Rep (Lit "s") 0 (Some 1%nat))
         (Cat (Rep space 0 None) (Cat (Lit "&")
            (Cat (Rep space 0 None) (Cat (word "song") (Rep (Lit "s") 0 (Some 1%nat)))))))) ].

(** What the body of the loop returns on a match: the second group of a
    pattern with two groups, the first group otherwise. *)
Definition episode_of_groups (groups : captures) : res Z :=
  if (length groups =? 2)%nat
  then int_of_group (mjoin (groups !! 1%nat))
  else int_of_group (mjoin (groups !! 0%nat)).

(** The loop of [extract_episode_number] over a list of patterns. *)
Fixpoint first_match (patterns : list pattern) (filename : string) : res (option Z) :=
  match patterns with
  | [] => Ret None
  | p :: rest =>
      match search p filename with
      | Some groups =>
          match episode_of_groups groups with
          | Ret n => Ret (Some n)
          | Raise e => Raise e
          end
      | None => first_match rest filename
      end
  end.

(** [extract_episode_number(filename)]. *)
Definition extract_episode_number (filename : string) : res (option Z) :=
  first_match EPISODE_PATTERNS filename.

(** [is_forced_subtitle(filename)]. *)
Definition is_forced_subtitle (filename : string) : bool :=
  let filename_lower := lower filename in
  existsb (fun p => bool_decide (is_Some (search p filename_lower))) FORCED_PATTERNS.

(** [filter_complete_episodes(episodes)]. *)
Definition filter_complete_episodes (episodes : gmap Z Episode.t) : gmap Z Episode.t :=
  filter (fun kv => Episode.is_complete (snd kv) = true) episodes.

(** [episodes[ep_num]], after [if ep_num not in episodes:
    episodes[ep_num] = Episode(number=ep_num)]. *)
Definition episode_entry (episodes : gmap Z Episode.t) (ep_num : Z) : Episode.t :=
  default (Episode.mk ep_num None [] [] []) (episodes !! ep_num).

Definition set_video (video : Path) (e : Episode.t) : Episode.t :=
  Episode.mk (Episode.number e) (Some video) (Episode.audio_files e)
             (Episode.subtitle_files e) (Episode.forced_subtitle_files e).

Definition append_audio (audio : Path) (e : Episode.t) : Episode.t :=
  Episode.mk (Episode.number e) (Episode.video_file e) (Episode.audio_files e ++ [audio])
             (Episode.subtitle_files e) (Episode.forced_subtitle_files e).

Definition append_subtitle (subtitle : Path) (e : Episode.t) : Episode.t :=
  Episode.mk (Episode.number e) (Episode.video_file e) (Episode.audio_files e)
             (Episode.subtitle_files e ++ [subtitle]) (Episode.forced_subtitle_files e).

Definition append_forced (subtitle : Path) (e : Episode.t) : Episode.t :=
  Episode.mk (Episode.number e) (Episode.video_file e) (Episode.audio_files e)
             (Episode.subtitle_files e) (Episode.forced_subtitle_files e ++ [subtitle]).

Section Grouping.
Context {W : Type} `{World W}.

(** One of the three loops of [group_files_by_episode]: files of the wrong
    kind and files without an episode number are passed over. *)
Fixpoint group_loop (accepts : Path -> bool) (put : Path -> Episode.t -> Episode.t)
    (files : list Path) (episodes : gmap Z Episode.t) : res (gmap Z Episode.t) :=
  match files with
  | [] => Ret episodes
  | file :: rest =>
      if negb (accepts file) then group_loop accepts put rest episodes
      else
        match extract_episode_number (path_name file) with
        | Raise e => Raise e
        | Ret None => group_loop accepts put rest episodes
        | Ret (Some ep_num) =>
            group_loop accepts put rest
              (<[ep_num := put file (episode_entry episodes ep_num)]> episodes)
        end
  end.

Definition put_subtitle (subtitle : Path) (e : Episode.t) : Episode.t :=
  if is_forced_subtitle (path_name subtitle)
  then append_forced subtitle e else append_subtitle subtitle e.

(** [group_files_by_episode(video_files, audio_files, subtitle_files)]. *)
Definition group_files_by_episode (video_files audio_files subtitle_files : list Path)
    : res (gmap Z Episode.t) :=
  match group_loop is_video_file set_video video_files ∅ with
  | Raise e => Raise e
  | Ret episodes =>
      match group_loop is_audio_file append_audio audio_files episodes with
      | Raise e => Raise e
      | Ret episodes => group_loop is_subtitle_file put_subtitle subtitle_files episodes
      end
  end.

(** [scan_directory(directory, recursive)]. *)
Definition scan_directory (directory : Path) (recursive : bool) : M W (gmap Z Episode.t) :=
  ex <~ path_exists directory ;;
  isd <~ (if ex then path_is_dir directory else ret false) ;;
  if negb ex || negb isd then ret ∅
  else
    let pattern := if recursive then "**/*" else "*" in
    all_files <~ path_glob directory pattern ;;
    let video_files := filter (fun f => is_video_file f = true) all_files in
    let audio_files := filter (fun f => is_audio_file f = true) all_files in
    let subtitle_files := filter (fun f => is_subtitle_file f = true) all_files in
    lift_res (group_files_by_episode video_files audio_files subtitle_files).
End Grouping.

(** [get_episode_range(episodes)]: the least and the greatest key, or
    [(None, None)] for an empty dictionary. *)
Definition get_episode_range (episodes : gmap Z Episode.t) : option Z * option Z :=
  match map fst (map_to_list episodes) with
  | [] => (None, None)
  | k :: ks => (Some (fold_left Z.min ks k), Some (fold_left Z.max ks k))
  end.

End EpisodeMatcher.

(** ** core/engines/base_engine.py and mkvmerge_engine.py *)

Module MKVMergeEngine.
Import Re.

Record t : Type := mk { executable_path : string }.

(** [Progress:\s+(\d+)%], compiled without flags. *)
Definition PROGRESS_PATTERN : pattern :=
  mkPattern false 1
    (Cat (word "Progress:") (Cat (Rep space 1 None)
       (Cat (Group 0 (Rep digit 1 None)) (Lit "%")))).

(** [_parse_progress(line)]. *)
Definition _parse_progress (line : string) : res (option Z) :=
  match search PROGRESS_PATTERN line with
  | Some groups =>
      match int_of_group (mjoin (groups !! 0%nat)) with
      | Ret n => Ret (Some n)
      | Raise e => Raise e
      end
  | None => Ret None
  end.

(** The source-subtitle selector of [_add_video_input]. *)
Definition subtitle_selector (job : RemuxJob.t) : string :=
  if RemuxJob.include_original_subtitles job
     && negb (RemuxJob.overwrite_source_subtitles job)
  then "all" else "none".

Definition audio_selector (job : RemuxJob.t) : string :=
  if RemuxJob.include_original_audio job then "all" else "none".

(** [_add_video_input(cmd, job)]: the command after the call. *)
Definition _add_video_input (cmd : list string) (job : RemuxJob.t) : list string :=
  let audio_tracks := audio_selector job in
  let subtitle_tracks := subtitle_selector job in
  let cmd := cmd ++ ["--audio-tracks"; audio_tracks] in
  let cmd := cmd ++ ["--subtitle-tracks"; subtitle_tracks] in
  cmd ++ [RemuxJob.video_file job].

(** The sync, language and title options both track kinds start with. *)
Definition sync_args (track : Track.t) : list string :=
  if negb (Track.offset_ms track =? 0)%Z
  then ["--sync"; "0:" +:+ str_int (Track.offset_ms track)] else [].

Definition language_args (track : Track.t) : list string :=
  if truthy_language (Track.language track)
  then ["--language"; "0:" +:+ language_value (Track.language track)] else [].

Definition title_args (track : Track.t) : list string :=
  if truthy_str (Track.title track)
  then ["--track-name"; "0:" +:+ default "" (Track.title track)] else [].

Definition forced_args (track : Track.t) : list string :=
  if Track.is_forced track then ["--forced-display-flag"; "0:1"] else [].

Definition default_args (track : Track.t) : list string :=
  if Track.is_default track then ["--default-track"; "0:yes"] else [].

Section Engine.
Context {W : Type} `{World W}.

(** [_get_track_file(track)]. *)
Definition _get_track_file (track : Track.t) : M W (option Path) :=
  match Track.file_path track with
  | Some p => ret (Some p)
  | None =>
      if truthy_str (Track.title track)
      then
        ex <~ path_exists (default "" (Track.title track)) ;;
        if ex then ret (Some (default "" (Track.title track))) else ret None
      else ret None
  end.

(** [_add_audio_track(cmd, track)]: the command after the call. *)
Definition _add_audio_track (cmd : list string) (track : Track.t) : M W (list string) :=
  audio_file <~ _get_track_file track ;;
  match audio_file with
  | None => ret cmd
  | Some audio_file =>
      let cmd := cmd ++ sync_args track in
      let cmd := cmd ++ language_args track in
      let cmd := cmd ++ title_args track in
      let cmd := cmd ++ default_args track in
      ret (cmd ++ [audio_file])
  end.

(** [_add_subtitle_track(cmd, track)]: the command after the call. *)
Definition _add_subtitle_track (cmd : list string) (track : Track.t) : M W (list string) :=
  subtitle_file <~ _get_track_file track ;;
  match subtitle_file with
  | None => ret cmd
  | Some subtitle_file =>
      let cmd := cmd ++ sync_args track in
      let cmd := cmd ++ language_args track in
      let cmd := cmd ++ title_args track in
      let cmd := cmd ++ forced_args track in
      let cmd := cmd ++ default_args track in
      ret (cmd ++ [subtitle_file])
  end.

(** [for track in tracks: add(cmd, track)]. *)
Fixpoint add_tracks (add : list string -> Track.t -> M W (list string))
    (cmd : list string) (tracks : list Track.t) : M W (list string) :=
  match tracks with
  | [] => ret cmd
  | track :: rest => cmd' <~ add cmd track ;; add_tracks add cmd' rest
  end.

(** [build_command(job)]. *)
Definition build_command (self : t) (job : RemuxJob.t) : M W (list string) :=
  let cmd := [executable_path self] in
  let cmd := cmd ++ ["-o"; RemuxJob.output_file job] in
  let cmd := _add_video_input cmd job in
  cmd <~ add_tracks _add_audio_track cmd (RemuxJob.audio_tracks job) ;;
  add_tracks _add_subtitle_track cmd (RemuxJob.subtitle_tracks job).

(** [_extract_output_file(command)]: [rest] is what follows the
    argument under the loop, [command] the whole list. *)
Fixpoint extract_output_loop (command rest : list string) : option Path :=
  match rest with
  | [] => None
  | arg :: rest' =>
      if str_in arg ["-o"; "-y"; "--output"] && negb (bool_decide (rest' = []))
      then head rest'
      else if String.eqb arg "-y" && negb (bool_decide (rest' = []))
      then last command
      else extract_output_loop command rest'
  end.

Definition _extract_output_file (command : list string) : option Path :=
  extract_output_loop command command.

(** The body of the monitoring loop of [execute] on the lines that were
    read: one callback call for each line a progress value is parsed
    from. *)
Definition monitor {J} (progress_callback : option (Z -> M (W * J) unit))
    (lines : list string) : M (W * J) unit :=
  for_each lines (fun line =>
    match progress_callback with
    | Some callback =>
        progress <~ lift_res (_parse_progress line) ;;
        match progress with
        | Some p => callback p
        | None => ret tt
        end
    | None => ret tt
    end).

(** The end of [for line in process.stderr]: the lines are exhausted, or
    the reading raised. *)
Definition end_of_stderr {S} (process : Process) : M S unit :=
  match stderr_error process with
  | Some e => raise e
  | None => ret tt
  end.

(** [execute(command, progress_callback)]. *)
Definition execute {J} (command : list string)
    (progress_callback : option (Z -> M (W * J) unit)) : M (W * J) RemuxResult.t :=
  try_except
    (process <~ lift (popen command) ;;
     monitor progress_callback (stderr process) ;;;
     end_of_stderr process ;;;
     if (returncode process =? 0)%Z
     then ret (RemuxResult.succeeded (_extract_output_file command))
     else ret (RemuxResult.failure
                 ("El proceso fall" +:+ o_acute +:+ " con c" +:+ o_acute
                  +:+ "digo " +:+ str_int (returncode process))))
    (fun e => ret (RemuxResult.failure (exn_msg e))).

(** [BaseEngine.remux(job, progress_callback)]. *)
Definition remux {J} (self : t) (job : RemuxJob.t)
    (progress_callback : option (Z -> M (W * J) unit)) : M (W * J) RemuxResult.t :=
  command <~ lift (build_command self job) ;;
  execute command progress_callback.
End Engine.

End MKVMergeEngine.

(** ** core/engines/ffprobe_engine.py *)

Module FFprobeEngine.

(** [s.strip()]: the white space at both ends goes. *)
Fixpoint lstrip (l : list ascii) : list ascii :=
  match l with
  | [] => []
  | c :: rest => if Re.is_space c then lstrip rest else l
  end.

Definition strip (s : string) : string :=
  string_of_list_ascii (rev (lstrip (rev (lstrip (list_ascii_of_string s))))).

(** The dictionary [lang_map] of [_parse_language]. *)
Definition lang_map : gmap string LanguageCode :=
  list_to_map
    [("jpn", JAPANESE); ("ja", JAPANESE); ("japanese", JAPANESE);
     ("spa", SPANISH); ("es", SPANISH); ("es-419", SPANISH_LATIN);
     ("es-mx", SPANISH_MEXICO); ("es-es", SPANISH_SPAIN); ("spanish", SPANISH);
     ("spanish (latin america)", SPANISH_LATIN); ("spanish (spain)", SPANISH_SPAIN);
     ("eng", ENGLISH); ("en", ENGLISH); ("en-us", ENGLISH_US); ("en-gb", ENGLISH_UK);
     ("english", ENGLISH); ("english (us)", ENGLISH_US); ("english (uk)", ENGLISH_UK);
     ("por", PORTUGUESE); ("pt", PORTUGUESE); ("pt-br", PORTUGUESE_BR);
     ("pt-pt", PORTUGUESE_PT); ("portuguese", PORTUGUESE);
     ("portuguese (brazil)", PORTUGUESE_BR); ("portuguese (portugal)", PORTUGUESE_PT);
     ("fre", FRENCH); ("fra", FRENCH); ("fr", FRENCH); ("french", FRENCH);
     ("ger", GERMAN); ("deu", GERMAN); ("de", GERMAN); ("german", GERMAN);
     ("ita", ITALIAN); ("it", ITALIAN); ("italian", ITALIAN);
     ("chi", CHINESE); ("zho", CHINESE); ("zh", CHINESE); ("chinese", CHINESE);
     ("kor", KOREAN); ("ko", KOREAN); ("korean", KOREAN);
     ("rus", RUSSIAN); ("ru", RUSSIAN); ("russian", RUSSIAN);
     ("ara", ARABIC); ("ar", ARABIC); ("arabic", ARABIC)].

(** [_parse_language(lang_str)]. *)
Definition _parse_language (lang_str : string) : LanguageCode :=
  if String.eqb lang_str "" then UNKNOWN
  else
    let lang_lower := strip (lower lang_str) in
    default UNKNOWN (lang_map !! lang_lower).

End FFprobeEngine.

(** ** core/services/subtitle_service.py *)

Module SubtitleService.

Record SubtitleValidation : Type := mkValidation {
  is_valid : bool;
  file_path : option Path;
  format : option string;
  error_message : option string
}.

Section Service.
Context {W : Type} `{World W}.

(** [validate_subtitle(subtitle_file)]. *)
Definition validate_subtitle (subtitle_file : Path) : M W SubtitleValidation :=
  ex <~ path_exists subtitle_file ;;
  if negb ex
  then ret (mkValidation false None None (Some ("Archivo no existe: " +:+ subtitle_file)))
  else if negb (is_subtitle_file subtitle_file)
  then ret (mkValidation false None None
              (Some ("No es un archivo de subt" +:+ i_acute +:+ "tulos v" +:+ a_acute
                     +:+ "lido: " +:+ path_suffix subtitle_file)))
  else
    let extension := get_file_extension subtitle_file in
    ret (mkValidation true (Some subtitle_file) (Some extension) None).

(** [validate_subtitles(subtitle_files)]. *)
Fixpoint validate_subtitles (subtitle_files : list Path) : M W (list SubtitleValidation) :=
  match subtitle_files with
  | [] => ret []
  | file :: rest =>
      v <~ validate_subtitle file ;;
      vs <~ validate_subtitles rest ;;
      ret (v :: vs)
  end.

(** [get_subtitle_format(subtitle_file)]. *)
Definition get_subtitle_format (subtitle_file : Path) : M W (option string) :=
  ex <~ path_exists subtitle_file ;;
  if negb ex then ret None else ret (Some (get_file_extension subtitle_file)).
End Service.

End SubtitleService.

(** [a or b] on an optional string. *)
Definition or_default (o : option string) (d : string) : string :=
  if truthy_str o then default "" o else d.

(** ** core/services/remux_service.py *)

Module RemuxService.

Record t : Type := mk { mkvmerge : MKVMergeEngine.t }.

Section Service.
Context {W : Type} `{World W}.

Abbreviation St := (W * RemuxJob.t)%type.

(** The job's methods on the job of the state, with the clock read at
    the call. *)
Definition job_start : M St unit :=
  t <~ clock ;; update_self (RemuxJob.start t).

Definition job_complete : M St unit :=
  t <~ clock ;; update_self (RemuxJob.complete t).

Definition job_fail (error_message : string) : M St unit :=
  t <~ clock ;; update_self (RemuxJob.fail t error_message).

(** The body of the [try] block of [remux]. *)
Definition remux_body (self : t) (start_time : Time)
    (progress_callback : option (Z -> M St unit)) : M St RemuxResult.t :=
  job <~ get_self ;;
  lift (validate_remux_job job) ;;;
  job_start ;;;
  job <~ get_self ;;
  result <~ MKVMergeEngine.remux (mkvmerge self) job progress_callback ;;
  (if RemuxResult.success result
   then job_complete
   else job_fail (or_default (RemuxResult.error_message result) "Error desconocido")) ;;;
  t <~ clock ;;
  let duration := (t - start_time)%Q in
  ret (RemuxResult.set_duration_seconds duration result).

(** The two [except] clauses of [remux]. *)
Definition remux_handler (e : exn) : M St RemuxResult.t :=
  if is_ValidationError e
  then
    job_fail ("Error de validaci" +:+ o_acute +:+ "n: " +:+ exn_msg e) ;;;
    ret (RemuxResult.failure (exn_msg e))
  else
    job_fail ("Error inesperado: " +:+ exn_msg e) ;;;
    ret (RemuxResult.failure (exn_msg e)).

(** [remux(job, progress_callback)]; the job is the object of the
    state. *)
Definition remux (self : t) (progress_callback : option (Z -> M St unit))
    : M St RemuxResult.t :=
  start_time <~ clock ;;
  try_except (remux_body self start_time progress_callback) remux_handler.
End Service.

End RemuxService.

(** ** core/services/dual_video_service.py *)

Module DualVideoService.

Record t : Type := mk { mkvmerge : MKVMergeEngine.t }.

Section Service.
Context {W : Type} `{World W}.

Abbreviation St := (W * DualVideoRemuxJob.t)%type.

Definition job_start : M St unit :=
  t <~ clock ;; update_self (DualVideoRemuxJob.start t).

Definition job_complete : M St unit :=
  t <~ clock ;; update_self (DualVideoRemuxJob.complete t).

Definition job_fail (error_message : string) : M St unit :=
  t <~ clock ;; update_self (DualVideoRemuxJob.fail t error_message).









End Service.

End DualVideoService.

(** ** core/services/batch_service.py *)

(** [a / b] on two [int]s. *)
Definition truediv (a b : Z) : res Q :=
  if (b =? 0)%Z then Raise (Exn ZeroDivisionError "division by zero")
  else Ret (inject_Z a / inject_Z b)%Q.

Module BatchResult.

(** One dictionary of [results]; a key the code does not set is [None]. *)
Record entry : Type := mkEntry {
  episode : Z;
  success : bool;
  skipped_key : option bool;
  output : option string;
  duration : option (option Q);
  error : option (option string)
}.

Record t : Type := mk {
  total_episodes : Z;
  successful : Z;
  failed : Z;
  skipped : Z;
  results : list entry;
  duration_seconds : Q
}.

(** The [success_rate] property. *)
Definition success_rate (self : t) : res Q :=
  if (total_episodes self =? 0)%Z then Ret 0%Q
  else truediv (successful self) (total_episodes self).

End BatchResult.

(** [str(p)] for an [Optional[Path]]. *)
Definition str_opt_path (o : option Path) : string := default "None" o.

Module BatchService.

Record t : Type := mk { remux_service : RemuxService.t }.

Definition audio_track (audio_offset_ms : Z) (i : nat) (audio_file : Path) : Track.t :=
  Track.mk (Z.of_nat i) AUDIO "copy" SPANISH_LATIN
           (Some ("Espa" +:+ n_tilde +:+ "ol Latino"))
           audio_offset_ms (bool_decide (i = 0%nat)) false (Some audio_file) None None.

Definition subtitle_track (subtitle_offset_ms : Z) (i : nat) (subtitle_file : Path)
    : Track.t :=
  Track.mk (Z.of_nat i) SUBTITLE "copy" SPANISH_LATIN
           (Some ("Espa" +:+ n_tilde +:+ "ol Latino"))
           subtitle_offset_ms (bool_decide (i = 0%nat)) false (Some subtitle_file)
           None None.

(** The track of the [i]-th forced subtitle. Its id is
    [len(subtitle_tracks) + i], and the list has grown by the [i] forced
    tracks appended before it: [regular + i + i]. *)
Definition forced_track (subtitle_offset_ms : Z) (regular : nat) (i : nat)
    (forced_file : Path) : Track.t :=
  Track.mk (Z.of_nat (regular + i) + Z.of_nat i) SUBTITLE "copy" SPANISH_LATIN
           (Some "Letreros") subtitle_offset_ms false true (Some forced_file) None None.

(** The accumulators of the loop over the episodes. *)
Record tally : Type := mkTally {
  t_results : list BatchResult.entry;
  t_successful : Z;
  t_failed : Z;
  t_skipped : Z
}.

(** [sorted(complete_episodes.items())]: the keys are distinct, the order is
    the order of the episode numbers. *)
Definition key_le (x y : Z * Episode.t) : Prop := (fst x <= fst y)%Z.

#[global] Instance key_le_dec : RelDecision key_le.
Proof. intros x y. unfold key_le. apply _. Defined.

Definition sorted_items (episodes : gmap Z Episode.t) : list (Z * Episode.t) :=
  merge_sort key_le (map_to_list episodes).

Section Service.
Context {W : Type} `{World W}.

(** [_create_job_from_episode(...)]. *)
Definition _create_job_from_episode (episode : Episode.t) (output_directory : Path)
    (output_pattern : string) (audio_offset_ms subtitle_offset_ms : Z)
    : M W (option RemuxJob.t) :=
  match Episode.video_file episode with
  | None => ret None
  | Some video =>
      output_name <~ lift_res (str_format_ep output_pattern (Episode.number episode)) ;;
      let output_file := path_join output_directory output_name in
      let audio_tracks := imap (audio_track audio_offset_ms) (Episode.audio_files episode) in
      let subtitle_tracks :=
        imap (subtitle_track subtitle_offset_ms) (Episode.subtitle_files episode) in
      let subtitle_tracks :=
        subtitle_tracks ++
        imap (forced_track subtitle_offset_ms (length subtitle_tracks))
             (Episode.forced_subtitle_files episode) in
      created <~ gets now ;;
      ret (Some (RemuxJob.new created video output_file audio_tracks subtitle_tracks
                              false true true))
  end.

(** The closure [episode_progress] of the loop body. *)
Definition episode_progress (progress_callback : option (Z -> Z -> string -> M W unit))
    (ep_num : Z) (progress : Z) : M (W * RemuxJob.t) unit :=
  match progress_callback with
  | Some callback =>
      lift (callback ep_num progress ("Remuxeando... " +:+ str_int progress +:+ "%"))
  | None => ret tt
  end.

(** [self.remux_service.remux(job, episode_progress)] on a job of its own. *)
Definition run_remux (self : t) (job : RemuxJob.t)
    (progress_callback : option (Z -> Z -> string -> M W unit)) (ep_num : Z)
    : M W RemuxResult.t :=
  r <~ with_self job
         (RemuxService.remux (remux_service self)
            (Some (episode_progress progress_callback ep_num))) ;;
  ret (fst r).

(** The loop of [process_episodes]. *)
Fixpoint episodes_loop (self : t) (output_directory : Path) (output_pattern : string)
    (audio_offset_ms subtitle_offset_ms : Z)
    (progress_callback : option (Z -> Z -> string -> M W unit))
    (items : list (Z * Episode.t)) (acc : tally) : M W tally :=
  match items with
  | [] => ret acc
  | (ep_num, episode) :: rest =>
      job <~ _create_job_from_episode episode output_directory output_pattern
               audio_offset_ms subtitle_offset_ms ;;
      match job with
      | None =>
          episodes_loop self output_directory output_pattern audio_offset_ms
            subtitle_offset_ms progress_callback rest acc
      | Some job =>
          result <~ run_remux self job progress_callback ep_num ;;
          let acc :=
            if RemuxResult.success result
            then mkTally
                   (t_results acc ++
                    [BatchResult.mkEntry ep_num true None
                       (Some (str_opt_path (RemuxResult.output_file result))) None None])
                   (t_successful acc + 1) (t_failed acc) (t_skipped acc)
            else mkTally
                   (t_results acc ++
                    [BatchResult.mkEntry ep_num false None None None
                       (Some (RemuxResult.error_message result))])
                   (t_successful acc) (t_failed acc + 1) (t_skipped acc) in
          episodes_loop self output_directory output_pattern audio_offset_ms
            subtitle_offset_ms progress_callback rest acc
      end
  end.

(** [process_episodes(...)]. *)
Definition process_episodes (self : t) (episodes : gmap Z Episode.t)
    (output_directory : Path) (output_pattern : string)
    (audio_offset_ms subtitle_offset_ms : Z)
    (progress_callback : option (Z -> Z -> string -> M W unit)) : M W BatchResult.t :=
  start_time <~ gets now ;;
  let complete_episodes := EpisodeMatcher.filter_complete_episodes episodes in
  if bool_decide (complete_episodes = ∅)
  then ret (BatchResult.mk 0 0 0 0 [] 0)
  else
    path_mkdir output_directory ;;;
    acc <~ episodes_loop self output_directory output_pattern audio_offset_ms
             subtitle_offset_ms progress_callback (sorted_items complete_episodes)
             (mkTally [] 0 0 0) ;;
    t <~ gets now ;;
    let duration := (t - start_time)%Q in
    ret (BatchResult.mk (Z.of_nat (size complete_episodes)) (t_successful acc)
                        (t_failed acc) 0 (t_results acc) duration).

(** [if progress_callback: progress_callback(ep_num, percent, message)]. *)
Definition notify (progress_callback : option (Z -> Z -> string -> M W unit))
    (ep_num percent : Z) (message : string) : M W unit :=
  match progress_callback with
  | Some callback => callback ep_num percent message
  | None => ret tt
  end.

(** The two final status messages, without the emoji that starts each of
    them in the source (outside the characters of the embedding). *)
Definition status_done : string := "Completado".
Definition status_failed : string := "Fallido".

(** The loop of [process_directory]. *)
Fixpoint directory_loop (self : t) (output_directory : Path) (output_pattern : string)
    (audio_offset_ms subtitle_offset_ms : Z)
    (progress_callback : option (Z -> Z -> string -> M W unit))
    (items : list (Z * Episode.t)) (acc : tally) : M W tally :=
  match items with
  | [] => ret acc
  | (ep_num, episode) :: rest =>
      notify progress_callback ep_num 0 ("Iniciando episodio " +:+ str_int ep_num) ;;;
      job <~ _create_job_from_episode episode output_directory output_pattern
               audio_offset_ms subtitle_offset_ms ;;
      match job with
      | None =>
          let acc :=
            mkTally
              (t_results acc ++
               [BatchResult.mkEntry ep_num false (Some true) None None
                  (Some (Some "Sin archivo de video"))])
              (t_successful acc) (t_failed acc) (t_skipped acc + 1) in
          directory_loop self output_directory output_pattern audio_offset_ms
            subtitle_offset_ms progress_callback rest acc
      | Some job =>
          result <~ run_remux self job progress_callback ep_num ;;
          let acc :=
            if RemuxResult.success result
            then mkTally
                   (t_results acc ++
                    [BatchResult.mkEntry ep_num true None
                       (Some (str_opt_path (RemuxResult.output_file result)))
                       (Some (RemuxResult.duration_seconds result)) None])
                   (t_successful acc + 1) (t_failed acc) (t_skipped acc)
            else mkTally
                   (t_results acc ++
                    [BatchResult.mkEntry ep_num false None None None
                       (Some (RemuxResult.error_message result))])
                   (t_successful acc) (t_failed acc + 1) (t_skipped acc) in
          notify progress_callback ep_num 100
            (if RemuxResult.success result then status_done else status_failed) ;;;
          directory_loop self output_directory output_pattern audio_offset_ms
            subtitle_offset_ms progress_callback rest acc
      end
  end.

(** [process_directory(...)]; the two filters [include_audio_tracks] and
    [include_subtitle_tracks] are not used by the code. *)
Definition process_directory (self : t) (directory output_directory : Path)
    (output_pattern : string) (audio_offset_ms subtitle_offset_ms : Z)
    (progress_callback : option (Z -> Z -> string -> M W unit)) : M W BatchResult.t :=
  start_time <~ gets now ;;
  episodes <~ EpisodeMatcher.scan_directory directory false ;;
  if bool_decide (episodes = ∅)
  then ret (BatchResult.mk 0 0 0 0 [] 0)
  else
    let complete_episodes := EpisodeMatcher.filter_complete_episodes episodes in
    path_mkdir output_directory ;;;
    acc <~ directory_loop self output_directory output_pattern audio_offset_ms
             subtitle_offset_ms progress_callback (sorted_items complete_episodes)
             (mkTally [] 0 0 0) ;;
    t <~ gets now ;;
    let duration := (t - start_time)%Q in
    ret (BatchResult.mk (Z.of_nat (size complete_episodes)) (t_successful acc)
                        (t_failed acc) (t_skipped acc) (t_results acc) duration).
End Service.

End BatchService.

(** ** A simulated world

    A small file system, a scripted subprocess and a log of the progress
    calls: the concrete world the examples run in. *)

Module Sim.

Record world : Type := mkWorld {
  files : list Path;
  dirs : list Path;
  script : list string -> res Process;
  log : list (Z * Z * string);
  time : Q
}.

Fixpoint split_at_first (c : ascii) (l : list ascii) : option (list ascii * list ascii) :=
  match l with
  | [] => None
  | x :: r =>
      if Ascii.eqb x c then Some ([], r)
      else match split_at_first c r with
           | Some (a, b) => Some (x :: a, b)
           | None => None
           end
  end.

(** [s.rpartition(c)] when [c] occurs in [s]. *)
Definition rsplit (c : ascii) (s : string) : option (string * string) :=
  match split_at_first c (rev (list_ascii_of_string s)) with
  | Some (a, b) => Some (string_of_list_ascii (rev b), string_of_list_ascii (rev a))
  | None => None
  end.

Definition name_of (p : Path) : string :=
  match rsplit "/" p with Some (_, n) => n | None => p end.

Definition parent_of (p : Path) : Path :=
  match rsplit "/" p with Some (d, _) => d | None => "." end.

Definition suffix_of (p : Path) : string :=
  match rsplit "." (name_of p) with
  | Some (stem, e) => if String.eqb stem "" then "" else "." +:+ e
  | None => ""
  end.

(** Enough of [str.format] for this world: the episode number follows the
    pattern, two digits wide. *)
Definition format_ep (pattern : string) (n : Z) : res string :=
  Ret (pattern +:+ (if (n <? 10)%Z then "0" else "") +:+ str_int n +:+ ".mkv").

Definition add_dir (d : Path) (w : world) : world :=
  mkWorld (files w) (d :: dirs w) (script w) (log w) (time w).

Definition add_log (entry : Z * Z * string) (w : world) : world :=
  mkWorld (files w) (dirs w) (script w) (log w ++ [entry]) (time w).

#[global] Instance sim_world : World world := {|
  now := time;
  path_exists := fun p => gets (fun w => str_in p (files w) || str_in p (dirs w));
  path_is_file := fun p => gets (fun w => str_in p (files w));
  path_is_dir := fun p => gets (fun w => str_in p (dirs w));
  path_mkdir := fun p => modify (add_dir p);
  path_resolve := fun p => ret p;
  path_parent := parent_of;
  path_suffix := suffix_of;
  path_name := name_of;
  path_join := fun d n => d +:+ "/" +:+ n;
  path_glob := fun d _ =>
    gets (fun w => filter (fun f => parent_of f = d) (files w));
  popen := fun cmd w => (script w cmd, w);
  str_format_ep := format_ep
|}.

(** A batch progress callback that records its three arguments. *)
Definition record_progress (ep_num percent : Z) (message : string) : M world unit :=
  modify (add_log (ep_num, percent, message)).

(** A job progress callback that records the value it is given. *)
Definition record_value {J} (percent : Z) : M (world * J) unit :=
  lift (modify (add_log (0%Z, percent, ""))).

(** A mux tool that prints the given lines and exits with the given code. *)
Definition tool (lines : list string) (code : Z) : list string -> res Process :=
  fun _ => Ret (mkProcess lines None code).

(** A mux tool whose output cannot be decoded after the given lines. *)
Definition garbled (lines : list string) (e : exn) (code : Z)
    : list string -> res Process :=
  fun _ => Ret (mkProcess lines (Some e) code).

(** A job progress callback that records the values up to a limit and
    raises beyond. *)
Definition record_up_to {J} (limit percent : Z) : M (world * J) unit :=
  if (limit <? percent)%Z
  then raise (Exn (OtherException "RuntimeError") "progress out of range")
  else record_value percent.

End Sim.

(** ** Statements of the specification and sample inputs *)

(** The transitions the specification allows for the status of a job:
    Pending -> Running -> {Completed | Failed}, and Pending -> Failed. *)
Inductive allowed_transition : JobStatus -> JobStatus -> Prop :=
| Pending_Running : allowed_transition PENDING RUNNING
| Running_Completed : allowed_transition RUNNING COMPLETED
| Pending_Failed : allowed_transition PENDING FAILED
| Running_Failed : allowed_transition RUNNING FAILED.

(** A call that respects the lifecycle: rejected (the job is left as it
    was) or one of the allowed transitions. *)
Definition respects_lifecycle (method : RemuxJob.t -> RemuxJob.t) (job : RemuxJob.t) : Prop :=
  method job = job
  \/ allowed_transition (RemuxJob.status job) (RemuxJob.status (method job)).





(** The first pattern of the matcher: the season/episode form. *)
Definition SEASON_EPISODE : Re.pattern :=
  Re.mkPattern true 2
    (Re.Cat (Re.Class (Re.one_of "Ss"))
       (Re.Cat (Re.Group 0 (EpisodeMatcher.digits 1 2))
          (Re.Cat (Re.Class (Re.one_of "Ee")) (Re.Group 1 (EpisodeMatcher.digits 1 2))))).

(** The four spellings of the tag S01E03. *)
Definition S01E03_tags : list string := ["S01E03"; "s01e03"; "S01e03"; "s01E03"].

(** No letter s, in either case. *)
Definition no_s (c : ascii) : Prop := c <> "s"%char /\ c <> "S"%char.

#[global] Instance key_le_total : Total BatchService.key_le.
Proof. intros x y. unfold BatchService.key_le. lia. Qed.

#[global] Instance key_le_trans : Transitive BatchService.key_le.
Proof. intros x y z. unfold BatchService.key_le. lia. Qed.

(** The batch of the specification: episodes 1 to 5, of which exactly
    episode 3 has no video file. *)
Definition five_with_third_incomplete (episodes : gmap Z Episode.t) : Prop :=
  (forall n, is_Some (episodes !! n) <-> (1 <= n <= 5)%Z)
  /\ (forall n e, episodes !! n = Some e -> (Episode.video_file e = None <-> n = 3%Z)).

(** The episode numbers of a list of results, in order. *)
Definition result_episodes (results : list BatchResult.entry) : list Z :=
  map BatchResult.episode results.

(** [mkdir] and [format] go through in this world. *)
Definition mkdir_succeeds {W} `{World W} (directory : Path) : Prop :=
  forall w, exists w', path_mkdir directory w = (Ret tt, w').

Definition format_succeeds {W} `{World W} (pattern : string) : Prop :=
  forall n, exists name, str_format_ep pattern n = Ret name.

(** The values the monitoring loop parses from the lines, in order. *)
Definition progress_values (lines : list string) : list Z :=
  flat_map (fun line =>
              match MKVMergeEngine._parse_progress line with
              | Ret (Some p) => [p]
              | _ => []
              end) lines.

(** What the specification asks of a progress value. *)
Definition in_percent_range (p : Z) : Prop := (0 <= p <= 100)%Z.

(** A job after any number of calls of its four methods. *)
Inductive evolves (job : RemuxJob.t) : RemuxJob.t -> Prop :=
| evolves_here : evolves job job
| evolves_start now job' : evolves job job' -> evolves job (RemuxJob.start now job')
| evolves_complete now job' : evolves job job' -> evolves job (RemuxJob.complete now job')
| evolves_fail now reason job' :
    evolves job job' -> evolves job (RemuxJob.fail now reason job')
| evolves_update progress job' :
    evolves job job' -> evolves job (RemuxJob.update_progress progress job').

(** What a job describes: its files, tracks and options. *)
Definition same_work (a b : RemuxJob.t) : Prop :=
  RemuxJob.video_file a = RemuxJob.video_file b
  /\ RemuxJob.output_file a = RemuxJob.output_file b
  /\ RemuxJob.audio_tracks a = RemuxJob.audio_tracks b
  /\ RemuxJob.subtitle_tracks a = RemuxJob.subtitle_tracks b
  /\ RemuxJob.overwrite_source_subtitles a = RemuxJob.overwrite_source_subtitles b
  /\ RemuxJob.include_original_audio a = RemuxJob.include_original_audio b
  /\ RemuxJob.include_original_subtitles a = RemuxJob.include_original_subtitles b
  /\ RemuxJob.created_at a = RemuxJob.created_at b.

(** What [sanitize_filename] does to one character. *)
Definition sanitize_char (c : ascii) : ascii :=
  if existsb (Ascii.eqb c) invalid_chars then "_"%char else c.

Fixpoint map_string (f : ascii -> ascii) (s : string) : string :=
  match s with
  | EmptyString => EmptyString
  | String c s' => String (f c) (map_string f s')
  end.

(** The characters of a string. *)
Definition chars (s : string) : list ascii := list_ascii_of_string s.

(** A file whose name carries the episode number [k]. *)
Definition numbered {W} `{World W} (file : Path) (k : Z) : Prop :=
  EpisodeMatcher.extract_episode_number (path_name file) = Ret (Some k).

(** An episode that holds only files of its own number, each in the slot of
    its kind, taken from the three lists that were grouped. *)
Definition well_filed {W} `{World W} (videos audios subtitles : list Path)
    (k : Z) (e : Episode.t) : Prop :=
  Episode.number e = k
  /\ (forall v, Episode.video_file e = Some v ->
        In v videos /\ is_video_file v = true /\ numbered v k)
  /\ (forall f, In f (Episode.audio_files e) ->
        In f audios /\ is_audio_file f = true /\ numbered f k)
  /\ (forall f, In f (Episode.subtitle_files e) ->
        In f subtitles /\ is_subtitle_file f = true /\ numbered f k
        /\ EpisodeMatcher.is_forced_subtitle (path_name f) = false)
  /\ (forall f, In f (Episode.forced_subtitle_files e) ->
        In f subtitles /\ is_subtitle_file f = true /\ numbered f k
        /\ EpisodeMatcher.is_forced_subtitle (path_name f) = true).

(** The slot of an episode a subtitle file goes to. *)
Definition subtitle_slot {W} `{World W} (file : Path) (e : Episode.t) : list Path :=
  if EpisodeMatcher.is_forced_subtitle (path_name file)
  then Episode.forced_subtitle_files e else Episode.subtitle_files e.

(** An offset the validation accepts: at most one hour, either way. *)
Definition within_hour (offset : Z) : Prop := (Z.abs offset <= 3600000)%Z.




(** What a validation of a subtitle file may say about the file. *)
Definition validation_of (W : Type) `{World W} (file : Path)
    (v : SubtitleService.SubtitleValidation) : Prop :=
  (SubtitleService.is_valid v = true ->
     is_subtitle_file file = true
     /\ SubtitleService.file_path v = Some file
     /\ SubtitleService.format v = Some (get_file_extension file)
     /\ In (get_file_extension file) SUBTITLE_EXTENSIONS
     /\ SubtitleService.error_message v = None)
  /\ (SubtitleService.is_valid v = false ->
        SubtitleService.file_path v = None
        /\ SubtitleService.format v = None
        /\ is_Some (SubtitleService.error_message v)).

(** The most characters a match of a pattern takes; [None] when a
    repetition without upper bound lets it take any number. *)
Fixpoint width (r : Re.regex) : option nat :=
  match r with
  | Re.Lit _ | Re.Class _ => Some 1%nat
  | Re.Cat r1 r2 =>
      match width r1, width r2 with
      | Some w1, Some w2 => Some (w1 + w2)%nat
      | _, _ => None
      end
  | Re.Alt r1 r2 =>
      match width r1, width r2 with
      | Some w1, Some w2 => Some (Nat.max w1 w2)
      | _, _ => None
      end
  | Re.Rep r1 _ (Some hi) =>
      match width r1 with
      | Some w1 => Some (hi * w1)%nat
      | None => None
      end
  | Re.Rep _ _ None => None
  | Re.Group _ r1 => width r1
  | Re.Bol | Re.Eol => Some 0%nat
  end.

(** Every group of the pattern holds at most [m] characters. *)
Fixpoint groups_short (m : nat) (r : Re.regex) : bool :=
  match r with
  | Re.Cat r1 r2 | Re.Alt r1 r2 => groups_short m r1 && groups_short m r2
  | Re.Rep r1 _ _ => groups_short m r1
  | Re.Group _ r1 =>
      match width r1 with
      | Some w => (w <=? m)%nat
      | None => false
      end && groups_short m r1
  | _ => true
  end.

(** Groups whose texts have at most [m] characters. *)
Definition texts_short (m : nat) (caps : Re.captures) : Prop :=
  forall i s, caps !! i = Some (Some s) -> (String.length s <= m)%nat.

(** The groups every match of a pattern sets: the groups that are not
    inside an alternative or a repetition. *)
Fixpoint groups_set (r : Re.regex) : list nat :=
  match r with
  | Re.Cat r1 r2 => groups_set r1 ++ groups_set r2
  | Re.Group i r1 => i :: groups_set r1
  | _ => []
  end.

(** A group that took part in the match. *)
Definition group_is_set (caps : Re.captures) (i : nat) : Prop :=
  exists s, caps !! i = Some (Some s).

(** A pattern whose matches always set the group that
    [extract_episode_number] reads, and whose groups hold at most three
    characters. *)
Definition sets_episode_group (p : Re.pattern) : bool :=
  (if (Re.ngroups p =? 2)%nat
   then bool_decide (1%nat ∈ groups_set (Re.syntax p))
   else bool_decide (0%nat ∈ groups_set (Re.syntax p)) && (0 <? Re.ngroups p)%nat)
  && groups_short 3 (Re.syntax p).

(** What the monitoring loop does with the lines: the values it hands to
    the callback, in order, and the error of [int] that cuts it short, if a
    line has one. *)
Fixpoint progress_events (lines : list string) : list Z * option exn :=
  match lines with
  | [] => ([], None)
  | line :: rest =>
      match MKVMergeEngine._parse_progress line with
      | Raise e => ([], Some e)
      | Ret None => progress_events rest
      | Ret (Some p) => (p :: fst (progress_events rest), snd (progress_events rest))
      end
  end.

(** The end of a loop that an error may have cut short. *)
Definition raise_if {S} (error : option exn) : M S unit :=
  match error with
  | Some e => raise e
  | None => ret tt
  end.

(** A text of [n] digits 1. *)
Definition ones (n : nat) : string := string_of_list_ascii (repeat "1"%char n).

(** The argument that follows the first output flag that has one. *)
Fixpoint after_first_flag (command : list string) : option Path :=
  match command with
  | [] => None
  | arg :: rest =>
      match rest with
      | [] => None
      | next :: _ =>
          if str_in arg ["-o"; "-y"; "--output"] then Some next
          else after_first_flag rest
      end
  end.

(** The result of a batch with nothing to do. *)
Definition empty_batch : BatchResult.t := BatchResult.mk 0 0 0 0 [] 0.

Module Fixtures.

Definition job_pending : RemuxJob.t :=
  RemuxJob.new 0%Q "in/show_01.mkv" "out/show_01.mkv" [] [] false true true.

Definition job_completed : RemuxJob.t :=
  RemuxJob.complete 2%Q (RemuxJob.start 1%Q job_pending).

(** A track that only differs from its siblings by id and offset. *)
Definition audio (track_id offset : Z) : Track.t :=
  Track.mk track_id AUDIO "copy" UNKNOWN None offset false false
           (Some "in/show_01.m4a") None None.


Definition episode (n : Z) (video : option Path) : Episode.t :=
  Episode.mk n video [] [] [].

(** Five episodes; the third has an audio file and no video. *)
Definition five_episodes : gmap Z Episode.t :=
  list_to_map
    [(1%Z, episode 1 (Some "in/show_01.mkv"));
     (2%Z, Episode.mk 2 (Some "in/show_02.mkv") ["in/show_02.m4a"] [] []);
     (3%Z, Episode.mk 3 None ["in/show_03.m4a"] [] []);
     (4%Z, episode 4 (Some "in/show_04.mkv"));
     (5%Z, episode 5 (Some "in/show_05.mkv"))].

(** A world where the video of episode 4 is missing from the disk and the
    tool succeeds on what it is given. *)
Definition studio : Sim.world :=
  Sim.mkWorld
    ["in/show_01.mkv"; "in/show_02.mkv"; "in/show_02.m4a"; "in/show_03.m4a";
     "in/show_05.mkv"]
    ["in"; "out"]
    (Sim.tool ["Progress: 50%"; "Progress: 100%"] 0)
    [] 0%Q.

Definition service : BatchService.t :=
  BatchService.mk (RemuxService.mk (MKVMergeEngine.mk "mkvmerge")).

(** A tool that reports more than the whole. *)
Definition overshoot : Sim.world :=
  Sim.mkWorld [] [] (Sim.tool ["Progress: 50%"; "Progress: 150%"] 0) [] 0%Q.

(** The files of a small season, by kind. *)
Definition videos : list Path := ["in/Show_01.mkv"; "in/Show_02.mkv"].
Definition audios : list Path := ["in/Show_02_latino.m4a"].
Definition subtitles : list Path := ["in/Show_02.ass"; "in/Show_02_signs.ass"].

(** A job with one audio track, a quarter of a second late. *)
Definition job_with_audio : RemuxJob.t :=
  RemuxJob.new 0%Q "in/show_02.mkv" "out/show_02.mkv" [audio 0 250] [] false true true.

(** An episode with a regular subtitle and two forced ones. *)
Definition episode_with_signs : Episode.t :=
  Episode.mk 2 (Some "in/show_02.mkv") ["in/show_02.m4a"]
    ["in/show_02.ass"] ["in/show_02.forced.ass"; "in/show_02.signs.ass"].

(** The error of a line of output that is not UTF-8. *)
Definition decode_error : exn :=
  Exn (OtherException "UnicodeDecodeError")
      "'utf-8' codec can't decode byte 0xff in position 0: invalid start byte".

(** The studio with a tool whose second line cannot be decoded, and with
    one that prints a number of 4301 digits. *)
Definition studio_garbled : Sim.world :=
  Sim.mkWorld (Sim.files studio) (Sim.dirs studio)
    (Sim.garbled ["Progress: 50%"] decode_error 0) [] 0%Q.

Definition studio_long_line : Sim.world :=
  Sim.mkWorld (Sim.files studio) (Sim.dirs studio)
    (Sim.tool ["Progress: 10%"; "Progress: " +:+ ones 4301 +:+ "%"; "Progress: 20%"] 0)
    [] 0%Q.

End Fixtures.

(** * Properties *)

(** ** The domain model *)

(** C10. [with_offset] gives a track with the new offset and every other
    field of the receiver; the receiver is a value and stays what it was. *)
Theorem with_offset_frame (t : Track.t) (x : Z) :
  Track.offset_ms (Track.with_offset t x) = x
  /\ Track.id (Track.with_offset t x) = Track.id t
  /\ Track.type (Track.with_offset t x) = Track.type t
  /\ Track.codec (Track.with_offset t x) = Track.codec t
  /\ Track.language (Track.with_offset t x) = Track.language t
  /\ Track.title (Track.with_offset t x) = Track.title t
  /\ Track.is_default (Track.with_offset t x) = Track.is_default t
  /\ Track.is_forced (Track.with_offset t x) = Track.is_forced t
  /\ Track.file_path (Track.with_offset t x) = Track.file_path t
  /\ Track.bitrate (Track.with_offset t x) = Track.bitrate t
  /\ Track.duration (Track.with_offset t x) = Track.duration t.
Proof. destruct t; cbn; repeat split. Qed.

Lemma with_offset_same (t : Track.t) : Track.with_offset t (Track.offset_ms t) = t.
Proof. now destruct t. Qed.

(** The three lifecycle methods write the status whatever it was. *)
Lemma start_status now job : RemuxJob.status (RemuxJob.start now job) = RUNNING.
Proof. reflexivity. Qed.

Lemma complete_status now job : RemuxJob.status (RemuxJob.complete now job) = COMPLETED.
Proof. reflexivity. Qed.

Lemma fail_status now msg job : RemuxJob.status (RemuxJob.fail now msg job) = FAILED.
Proof. reflexivity. Qed.

(** C1, as stated, fails: [start()] on a Completed job is neither rejected
    nor an allowed transition (the job becomes Running), and [complete()] on a
    Pending job is not rejected either (the job becomes Completed). *)
Lemma lifecycle_not_guarded :
  RemuxJob.status Fixtures.job_completed = COMPLETED
  /\ RemuxJob.status (RemuxJob.start 5%Q Fixtures.job_completed) = RUNNING
  /\ ~ respects_lifecycle (RemuxJob.start 5%Q) Fixtures.job_completed
  /\ RemuxJob.status Fixtures.job_pending = PENDING
  /\ RemuxJob.status (RemuxJob.complete 5%Q Fixtures.job_pending) = COMPLETED
  /\ ~ respects_lifecycle (RemuxJob.complete 5%Q) Fixtures.job_pending.
Proof.
  repeat split.
  - intros [Heq | Hstep].
    + apply (f_equal RemuxJob.status) in Heq. discriminate Heq.
    + cbn in Hstep. inversion Hstep.
  - intros [Heq | Hstep].
    + apply (f_equal RemuxJob.status) in Heq. discriminate Heq.
    + cbn in Hstep. inversion Hstep.
Qed.

(** C1, amended. The methods of a job do not look at its status: [start]
    always sets Running (progress 0, start time recorded), [complete] always
    sets Completed (progress 100), [fail] always sets Failed and records the
    reason. Called from the states the lifecycle names, they make its
    transitions: Pending -> Running, Running -> Completed, and Pending or
    Running -> Failed. *)
Theorem lifecycle_methods (now : Time) (reason : string) (job : RemuxJob.t) :
  (RemuxJob.status (RemuxJob.start now job) = RUNNING
   /\ RemuxJob.progress (RemuxJob.start now job) = 0
   /\ RemuxJob.started_at (RemuxJob.start now job) = Some now)
  /\ (RemuxJob.status (RemuxJob.complete now job) = COMPLETED
      /\ RemuxJob.progress (RemuxJob.complete now job) = 100)
  /\ (RemuxJob.status (RemuxJob.fail now reason job) = FAILED
      /\ RemuxJob.error_message (RemuxJob.fail now reason job) = Some reason)
  /\ (RemuxJob.status job = PENDING ->
      respects_lifecycle (RemuxJob.start now) job
      /\ respects_lifecycle (RemuxJob.fail now reason) job)
  /\ (RemuxJob.status job = RUNNING ->
      respects_lifecycle (RemuxJob.complete now) job
      /\ respects_lifecycle (RemuxJob.fail now reason) job).
Proof.
  repeat split; intros; right; cbn.
  all: match goal with H : RemuxJob.status _ = _ |- _ => rewrite H end.
  all: constructor.
Qed.

(** ** The command builder *)

(** C7. The selector for the subtitles of the source is "none" as soon as
    [overwrite_source_subtitles] is set, whatever
    [include_original_subtitles] says, and "all" exactly when subtitles are
    included and not overwritten; it is what [_add_video_input] emits after
    [--subtitle-tracks]. *)
Theorem overwrite_wins (cmd : list string) (job : RemuxJob.t) :
  MKVMergeEngine._add_video_input cmd job
  = cmd ++ ["--audio-tracks"; MKVMergeEngine.audio_selector job;
            "--subtitle-tracks"; MKVMergeEngine.subtitle_selector job;
            RemuxJob.video_file job]
  /\ (RemuxJob.overwrite_source_subtitles job = true ->
      MKVMergeEngine.subtitle_selector job = "none")
  /\ (MKVMergeEngine.subtitle_selector job = "all" <->
      RemuxJob.include_original_subtitles job = true
      /\ RemuxJob.overwrite_source_subtitles job = false)
  /\ (MKVMergeEngine.subtitle_selector job = "all"
      \/ MKVMergeEngine.subtitle_selector job = "none").
Proof.
  unfold MKVMergeEngine._add_video_input, MKVMergeEngine.subtitle_selector.
  split; [ now rewrite <- !app_assoc | ].
  destruct (RemuxJob.include_original_subtitles job),
           (RemuxJob.overwrite_source_subtitles job); cbn.
  all: repeat split; auto; try discriminate; intros [? ?]; discriminate.
Qed.

Section CommandBuilder.
Context {W : Type} `{World W}.

(** A track with a file path needs no look at the file system. *)
Lemma get_track_file_path (track : Track.t) (p : Path) (w : W) :
  Track.file_path track = Some p ->
  MKVMergeEngine._get_track_file track w = (Ret (Some p), w).
Proof. intros Hp. unfold MKVMergeEngine._get_track_file. now rewrite Hp. Qed.

(** Adding a track only appends to the command. *)
Lemma add_audio_track_extends cmd track (w w' : W) cmd' :
  MKVMergeEngine._add_audio_track cmd track w = (Ret cmd', w') ->
  exists ext, cmd' = cmd ++ ext.
Proof.
  unfold MKVMergeEngine._add_audio_track, bind.
  destruct (MKVMergeEngine._get_track_file track w) as [[[f|]|e] w1]; cbn;
    intros Heq; inversion Heq; subst.
  - rewrite <- !app_assoc. eauto.
  - exists []. now rewrite app_nil_r.
Qed.

Lemma add_subtitle_track_extends cmd track (w w' : W) cmd' :
  MKVMergeEngine._add_subtitle_track cmd track w = (Ret cmd', w') ->
  exists ext, cmd' = cmd ++ ext.
Proof.
  unfold MKVMergeEngine._add_subtitle_track, bind.
  destruct (MKVMergeEngine._get_track_file track w) as [[[f|]|e] w1]; cbn;
    intros Heq; inversion Heq; subst.
  - rewrite <- !app_assoc. eauto.
  - exists []. now rewrite app_nil_r.
Qed.

Lemma add_tracks_extends (add : list string -> Track.t -> M W (list string)) :
  (forall cmd track w w' cmd',
      add cmd track w = (Ret cmd', w') -> exists ext, cmd' = cmd ++ ext) ->
  forall tracks cmd w w' cmd',
    MKVMergeEngine.add_tracks add cmd tracks w = (Ret cmd', w') ->
    exists ext, cmd' = cmd ++ ext.
Proof.
  intros Hadd tracks.
  induction tracks as [|track rest IH]; intros cmd w w' cmd' Hrun; cbn in Hrun.
  - inversion Hrun. exists []. now rewrite app_nil_r.
  - unfold bind in Hrun.
    destruct (add cmd track w) as [[cmd1|e] w1] eqn:Hone; [|discriminate].
    destruct (Hadd _ _ _ _ _ Hone) as [ext1 ->].
    destruct (IH _ _ _ _ Hrun) as [ext2 ->].
    exists (ext1 ++ ext2). now rewrite app_assoc.
Qed.

(** C4. One extra audio track with offset 500, language es-419, the default
    flag and a file, in a job that leaves the audio of the source out: the
    command starts with the executable, the output, [--audio-tracks none]
    before the path of the video, then [--sync 0:500], the language, the
    title if there is one, [--default-track 0:yes], and the audio file last.
    Subtitle tracks of the job, if any, only add arguments after it. *)
Theorem audio_track_order (self : MKVMergeEngine.t) (video output audio_file : Path)
    (track_id : Z) (track_codec : string) (track_title : option string)
    (forced : bool) (rate : option Z) (dur : option Q)
    (subtitles : list Track.t) (overwrite include_subtitles : bool)
    (status : JobStatus) (progress : Z) (message : option string)
    (created : Time) (started completed : option Time) (w : W) :
  let track := Track.mk track_id AUDIO track_codec SPANISH_LATIN track_title 500
                        true forced (Some audio_file) rate dur in
  let job := RemuxJob.mk video output [track] subtitles overwrite false
                         include_subtitles status progress message created
                         started completed in
  let audio_part :=
    [MKVMergeEngine.executable_path self; "-o"; output;
     "--audio-tracks"; "none";
     "--subtitle-tracks"; MKVMergeEngine.subtitle_selector job;
     video;
     "--sync"; "0:500";
     "--language"; "0:es-419"]
    ++ MKVMergeEngine.title_args track
    ++ ["--default-track"; "0:yes"; audio_file] in
  MKVMergeEngine.build_command self job w
  = MKVMergeEngine.add_tracks MKVMergeEngine._add_subtitle_track audio_part subtitles w
  /\ last audio_part = Some audio_file
  /\ (forall cmd w',
         MKVMergeEngine.build_command self job w = (Ret cmd, w') ->
         exists later, cmd = audio_part ++ later)
  /\ (subtitles = [] ->
      MKVMergeEngine.build_command self job w = (Ret audio_part, w)).
Proof.
  intros track job audio_part.
  assert (Hbuild :
    MKVMergeEngine.build_command self job w
    = MKVMergeEngine.add_tracks MKVMergeEngine._add_subtitle_track audio_part subtitles w).
  { unfold MKVMergeEngine.build_command, bind. cbn.
    subst audio_part. cbn. now rewrite <- !app_assoc. }
  repeat split.
  - exact Hbuild.
  - subst audio_part.
    change ["--default-track"; "0:yes"; audio_file]
      with (["--default-track"; "0:yes"] ++ [audio_file]).
    rewrite !app_assoc. apply last_snoc.
  - intros cmd w' Hrun. rewrite Hbuild in Hrun.
    eapply add_tracks_extends; [ | exact Hrun ].
    intros; eapply add_subtitle_track_extends; eassumption.
  - intros ->. now rewrite Hbuild.
Qed.
End CommandBuilder.

(** ** The batch result *)

(** C9. [success_rate] never raises: it is 0 for an empty batch and the
    quotient of the two counters otherwise. *)
Theorem success_rate_total (r : BatchResult.t) :
  ((BatchResult.total_episodes r > 0)%Z ->
   BatchResult.success_rate r
   = Ret (inject_Z (BatchResult.successful r) / inject_Z (BatchResult.total_episodes r))%Q)
  /\ (BatchResult.total_episodes r = 0%Z -> BatchResult.success_rate r = Ret 0%Q)
  /\ (forall e, BatchResult.success_rate r <> Raise e).
Proof.
  unfold BatchResult.success_rate, truediv.
  destruct (Z.eqb_spec (BatchResult.total_episodes r) 0) as [Hz | Hnz].
  - repeat split; intros; try lia; discriminate.
  - repeat split; intros; try lia; try discriminate; reflexivity.
Qed.

(** ** The validator *)

Lemma size_list_to_set_le (l : list Z) : (size (list_to_set l : gset Z) <= length l)%nat.
Proof.
  induction l as [|x l IH]; cbn.
  - now rewrite size_empty.
  - rewrite size_union_alt, size_singleton.
    pose proof (subseteq_size (list_to_set l ∖ {[x]}) (list_to_set l : gset Z)) as Hsub.
    assert (size (list_to_set l ∖ {[x]} : gset Z) <= size (list_to_set l : gset Z))%nat
      by (apply Hsub; set_solver).
    lia.
Qed.

(** [len(ids) == len(set(ids))] says that the ids are distinct. *)
Lemma distinct_ids_iff (l : list Z) :
  size (list_to_set l : gset Z) = length l <-> NoDup l.
Proof.
  split; [ | apply size_list_to_set ].
  induction l as [|x l IH]; intros Hsize; [ constructor | ].
  cbn in Hsize.
  destruct (decide (x ∈ l)) as [Hin | Hout].
  - exfalso.
    assert (Heq : ({[x]} ∪ list_to_set l : gset Z) = list_to_set l) by set_solver.
    rewrite Heq in Hsize. pose proof (size_list_to_set_le l). lia.
  - rewrite size_union in Hsize by set_solver.
    rewrite size_singleton in Hsize.
    apply NoDup_cons; split; [ exact Hout | apply IH; lia ].
Qed.

Lemma check_offsets_ok (tracks : list Track.t) :
  check_offsets tracks = Ret tt <->
  Forall (fun t => (Z.abs (Track.offset_ms t) <= 3600000)%Z) tracks.
Proof.
  induction tracks as [|t rest IH]; cbn.
  - split; [ constructor | reflexivity ].
  - destruct (Z.gtb_spec (Z.abs (Track.offset_ms t)) 3600000) as [Hgt | Hle].
    + split; [ discriminate | ]. intros Hall. inversion Hall; subst. lia.
    + rewrite IH. split.
      * intros Hrest. constructor; [ lia | exact Hrest ].
      * intros Hall. now inversion Hall.
Qed.




(** What [validate_tracks] does, case by case. *)
Lemma validate_tracks_duplicates (tracks : list Track.t) :
  ~ NoDup (map Track.id tracks) ->
  validate_tracks tracks = Raise (Exn ValidationError duplicate_ids_message).
Proof.
  intros Hdup. unfold validate_tracks.
  destruct tracks as [|t rest]; [ exfalso; apply Hdup; constructor | ].
  destruct (Nat.eqb_spec (length (map Track.id (t :: rest)))
              (size (list_to_set (map Track.id (t :: rest)) : gset Z))) as [Heq | Hne].
  - exfalso. apply Hdup. apply distinct_ids_iff. now symmetry.
  - reflexivity.
Qed.

Lemma validate_tracks_distinct (tracks : list Track.t) :
  NoDup (map Track.id tracks) -> validate_tracks tracks = check_offsets tracks.
Proof.
  intros Hnd. unfold validate_tracks.
  destruct tracks as [|t rest]; [ reflexivity | ].
  destruct (Nat.eqb_spec (length (map Track.id (t :: rest)))
              (size (list_to_set (map Track.id (t :: rest)) : gset Z))) as [Heq | Hne].
  - reflexivity.
  - exfalso. apply Hne. symmetry. now apply distinct_ids_iff.
Qed.



(** ** The episode matcher *)

Lemma season_episode_is_first :
  head EpisodeMatcher.EPISODE_PATTERNS = Some SEASON_EPISODE.
Proof. reflexivity. Qed.

(** [[Ss]] under [re.IGNORECASE] takes the two letters and nothing else. *)
Lemma class_Ss (c : ascii) :
  Re.class_matches true (Re.one_of "Ss") c = (Ascii.eqb c "s" || Ascii.eqb c "S").
Proof. destruct c as [[] [] [] [] [] [] [] []]; reflexivity. Qed.

Lemma class_Ss_no_s (c : ascii) :
  no_s c -> Re.class_matches true (Re.one_of "Ss") c = false.
Proof.
  intros [Hs HS]. rewrite class_Ss.
  destruct (Ascii.eqb_spec c "s"), (Ascii.eqb_spec c "S"); cbn; congruence.
Qed.

(** Where the subject does not start with an s, the season/episode form
    does not match. *)
Lemma season_episode_needs_s (pos : nat) (c : ascii) (rest : list ascii) :
  no_s c ->
  Re.match_at true 2 (Re.syntax SEASON_EPISODE) (pos, c :: rest) = None.
Proof.
  intros Hc. unfold Re.match_at. cbn.
  now rewrite (class_Ss_no_s c Hc).
Qed.

(** At the tag, it matches with season 01 and episode 03, whatever follows. *)
Lemma season_episode_at_tag (pos : nat) (tag : string) (suf : list ascii) :
  In tag S01E03_tags ->
  Re.match_at true 2 (Re.syntax SEASON_EPISODE) (pos, list_ascii_of_string tag ++ suf)
  = Some [Some "01"; Some "03"].
Proof.
  intros Htag. unfold Re.match_at.
  assert (H2 : (S (S pos) - pos = 2)%nat) by lia.
  destruct Htag as [<- | [<- | [<- | [<- | []]]]]; cbn; rewrite !H2; reflexivity.
Qed.

Lemma search_from_skips (p : Re.pattern) (pre : list ascii) :
  p = SEASON_EPISODE ->
  Forall no_s pre ->
  forall pos rest,
    Re.search_from true 2 (Re.syntax p) pos (pre ++ rest)
    = Re.search_from true 2 (Re.syntax p) (pos + length pre) rest.
Proof.
  intros -> Hpre. induction Hpre as [|c pre Hc _ IH]; intros pos rest.
  - cbn [app length]. now rewrite Nat.add_0_r.
  - cbn [app length Re.search_from].
    rewrite (season_episode_needs_s pos c (pre ++ rest) Hc).
    rewrite IH. f_equal. lia.
Qed.

Lemma list_ascii_of_string_app (a b : string) :
  list_ascii_of_string (a +:+ b) = list_ascii_of_string a ++ list_ascii_of_string b.
Proof.
  induction a as [|c a IH]; [ reflexivity | ].
  change (c :: list_ascii_of_string (a +:+ b)
          = c :: (list_ascii_of_string a ++ list_ascii_of_string b)).
  now rewrite IH.
Qed.

Lemma search_tag (pre suf tag : string) :
  In tag S01E03_tags ->
  Forall no_s (list_ascii_of_string pre) ->
  Re.search SEASON_EPISODE (pre +:+ tag +:+ suf) = Some [Some "01"; Some "03"].
Proof.
  intros Htag Hpre. unfold Re.search.
  change (Re.ignorecase SEASON_EPISODE) with true.
  change (Re.ngroups SEASON_EPISODE) with 2%nat.
  rewrite !list_ascii_of_string_app.
  rewrite (search_from_skips SEASON_EPISODE _ eq_refl Hpre).
  destruct (list_ascii_of_string tag ++ list_ascii_of_string suf) eqn:Hrest.
  - cbn [Re.search_from]. rewrite <- Hrest. now rewrite season_episode_at_tag.
  - cbn [Re.search_from]. rewrite <- Hrest. now rewrite season_episode_at_tag.
Qed.

(** ** Matches, positions and groups *)

Lemma string_of_list_ascii_length (l : list ascii) :
  String.length (string_of_list_ascii l) = length l.
Proof. induction l as [|c l IH]; cbn; [ reflexivity | now rewrite IH ]. Qed.

(** A successful match calls its continuation further on in the subject, at
    most [width] characters further, and keeps the texts of the groups
    short. *)
Lemma rmatch_short_groups {R : Type} (m : nat) (ic : bool) (r : Re.regex) :
  groups_short m r = true ->
  forall (cur : Re.cursor) (caps : Re.captures)
         (k : Re.cursor -> Re.captures -> option R) (x : R),
    Re.rmatch ic r cur caps k = Some x ->
    exists cur' caps',
      k cur' caps' = Some x
      /\ (fst cur <= fst cur')%nat
      /\ (forall w, width r = Some w -> (fst cur' <= fst cur + w)%nat)
      /\ (texts_short m caps -> texts_short m caps').
Proof.
  induction r as [c | p | r1 IH1 r2 IH2 | r1 IH1 r2 IH2 | r1 IH1 lo hi | i r1 IH1 | | ];
    intros Hshort cur caps k x Hm; cbn [groups_short] in Hshort.
  - cbn [Re.rmatch] in Hm.
    destruct (snd cur) as [|c' rest]; [ discriminate | ].
    destruct (Re.class_matches ic (Ascii.eqb c) c'); [ | discriminate ].
    eexists; eexists. split; [ exact Hm | ]. cbn [fst width].
    repeat split; [ lia | intros w [= <-]; lia | auto ].
  - cbn [Re.rmatch] in Hm.
    destruct (snd cur) as [|c' rest]; [ discriminate | ].
    destruct (Re.class_matches ic p c'); [ | discriminate ].
    eexists; eexists. split; [ exact Hm | ]. cbn [fst width].
    repeat split; [ lia | intros w [= <-]; lia | auto ].
  - apply andb_prop in Hshort as [Hs1 Hs2]. cbn [Re.rmatch] in Hm.
    apply (IH1 Hs1) in Hm as (cur1 & caps1 & Hm & Hpos1 & Hw1 & Hkeep1).
    apply (IH2 Hs2) in Hm as (cur2 & caps2 & Hm & Hpos2 & Hw2 & Hkeep2).
    exists cur2, caps2. split; [ exact Hm | ].
    split; [ lia | split; [ | auto ] ].
    intros w Hw. cbn [width] in Hw.
    destruct (width r1) as [w1|]; [ | discriminate ].
    destruct (width r2) as [w2|]; [ | discriminate ].
    injection Hw as <-. specialize (Hw1 _ eq_refl). specialize (Hw2 _ eq_refl). lia.
  - apply andb_prop in Hshort as [Hs1 Hs2]. cbn [Re.rmatch] in Hm.
    destruct (Re.rmatch ic r1 cur caps k) as [y|] eqn:H1.
    + injection Hm as ->.
      apply (IH1 Hs1) in H1 as (cur1 & caps1 & Hk & Hpos1 & Hw1 & Hkeep1).
      exists cur1, caps1. split; [ exact Hk | split; [ exact Hpos1 | split; [ | exact Hkeep1 ] ] ].
      intros w Hw. cbn [width] in Hw.
      destruct (width r1) as [w1|]; [ | discriminate ].
      destruct (width r2) as [w2|]; [ | discriminate ].
      injection Hw as <-. specialize (Hw1 _ eq_refl). lia.
    + apply (IH2 Hs2) in Hm as (cur1 & caps1 & Hk & Hpos1 & Hw1 & Hkeep1).
      exists cur1, caps1. split; [ exact Hk | split; [ exact Hpos1 | split; [ | exact Hkeep1 ] ] ].
      intros w Hw. cbn [width] in Hw.
      destruct (width r1) as [w1|]; [ | discriminate ].
      destruct (width r2) as [w2|]; [ | discriminate ].
      injection Hw as <-. specialize (Hw1 _ eq_refl). lia.
  - cbn [Re.rmatch] in Hm.
    assert (Hloop : forall n lo cur caps,
               (fix loop (n lo : nat) (cur : Re.cursor) (caps : Re.captures) {struct n}
                  : option R :=
                  match n with
                  | O => if (lo =? 0)%nat then k cur caps else None
                  | S n' =>
                      match Re.rmatch ic r1 cur caps
                              (fun cur' caps' => loop n' (pred lo) cur' caps') with
                      | Some x => Some x
                      | None => if (lo =? 0)%nat then k cur caps else None
                      end
                  end) n lo cur caps = Some x ->
               exists cur' caps',
                 k cur' caps' = Some x
                 /\ (fst cur <= fst cur')%nat
                 /\ (forall w1, width r1 = Some w1 -> (fst cur' <= fst cur + n * w1)%nat)
                 /\ (texts_short m caps -> texts_short m caps')).
    { clear Hm cur caps. intros n.
      induction n as [|n IHn]; intros lo0 cur caps Hm.
      - destruct (lo0 =? 0)%nat; [ | discriminate ].
        exists cur, caps. repeat split; [ exact Hm | lia | intros; lia | auto ].
      - match type of Hm with
        | match ?t with _ => _ end = _ => destruct t as [y|] eqn:Hstep
        end.
        + injection Hm as ->.
          apply (IH1 Hshort) in Hstep as (cur1 & caps1 & Hstep & Hpos1 & Hw1 & Hkeep1).
          apply IHn in Hstep as (cur2 & caps2 & Hk & Hpos2 & Hw2 & Hkeep2).
          exists cur2, caps2. split; [ exact Hk | ].
          split; [ lia | split; [ | auto ] ].
          intros w1 Hr1. specialize (Hw1 _ Hr1). specialize (Hw2 _ Hr1). lia.
        + destruct (lo0 =? 0)%nat; [ | discriminate ].
          exists cur, caps. repeat split; [ exact Hm | lia | intros; lia | auto ]. }
    apply Hloop in Hm as (cur' & caps' & Hk & Hpos & Hw & Hkeep).
    exists cur', caps'. split; [ exact Hk | ].
    split; [ exact Hpos | split; [ | exact Hkeep ] ].
    intros w Hwidth. cbn [width] in Hwidth.
    destruct hi as [h|]; [ | discriminate ].
    destruct (width r1) as [w1|]; [ | discriminate ].
    injection Hwidth as <-. now apply Hw.
  - apply andb_prop in Hshort as [Hwidth Hs1]. cbn [Re.rmatch] in Hm.
    apply (IH1 Hs1) in Hm as (cur1 & caps1 & Hm & Hpos1 & Hw1 & Hkeep1).
    exists cur1, (<[i := Some (Re.consumed cur cur1)]> caps1).
    split; [ exact Hm | split; [ exact Hpos1 | split; [ exact Hw1 | ] ] ].
    intros Hcaps j s Hj. apply Hkeep1 in Hcaps.
    apply list_lookup_insert_Some in Hj as [(<- & Heq & _) | (Hne & Hj)].
    + injection Heq as <-.
      destruct (width r1) as [w|]; [ | discriminate ].
      apply Nat.leb_le in Hwidth. specialize (Hw1 _ eq_refl).
      unfold Re.consumed. rewrite string_of_list_ascii_length, length_take. lia.
    + exact (Hcaps j s Hj).
  - cbn [Re.rmatch] in Hm.
    destruct (fst cur =? 0)%nat; [ | discriminate ].
    eexists; eexists. split; [ exact Hm | ]. cbn [width].
    repeat split; [ lia | intros w [= <-]; lia | auto ].
  - cbn [Re.rmatch] in Hm. cbn [width].
    destruct (snd cur) as [|c [|c' rest]]; [ | | discriminate ].
    + eexists; eexists. split; [ exact Hm | ].
      repeat split; [ lia | intros w [= <-]; lia | auto ].
    + destruct (Ascii.eqb c "010"); [ | discriminate ].
      eexists; eexists. split; [ exact Hm | ].
      repeat split; [ lia | intros w [= <-]; lia | auto ].
Qed.

Lemma search_from_position (ic : bool) (ngroups : nat) (r : Re.regex) (rest : list ascii) :
  forall pos caps,
    Re.search_from ic ngroups r pos rest = Some caps ->
    exists pos' rest', Re.match_at ic ngroups r (pos', rest') = Some caps.
Proof.
  induction rest as [|c rest IH]; intros pos caps Hs; cbn in Hs.
  - destruct (Re.match_at ic ngroups r (pos, [])) eqn:Hm; [ | discriminate ].
    injection Hs as ->. eauto.
  - destruct (Re.match_at ic ngroups r (pos, c :: rest)) eqn:Hm.
    + injection Hs as ->. eauto.
    + now apply IH in Hs.
Qed.

(** The groups of a match of a pattern whose groups are short have short
    texts. *)
Lemma search_texts_short (m : nat) (p : Re.pattern) (s : string) (groups : Re.captures) :
  groups_short m (Re.syntax p) = true ->
  Re.search p s = Some groups ->
  texts_short m groups.
Proof.
  unfold Re.search. intros Hshort Hs.
  apply search_from_position in Hs as (pos & rest & Hm).
  unfold Re.match_at in Hm.
  apply (rmatch_short_groups m _ _ Hshort) in Hm as (cur' & caps' & Hk & _ & _ & Hkeep).
  injection Hk as ->. apply Hkeep.
  intros i s' Hi. apply lookup_replicate in Hi as [Hi _]. discriminate Hi.
Qed.

(** [int] reads a text within the limit. *)
Lemma int_of_group_short (s : string) :
  (Z.of_nat (String.length s) <= int_max_str_digits)%Z ->
  int_of_group (Some s) = Ret (int_str s).
Proof.
  intros Hs. unfold int_of_group.
  destruct (Z.ltb_spec int_max_str_digits (Z.of_nat (String.length s))); [ lia | reflexivity ].
Qed.

(** The loop returns what the first pattern that matches gives. *)
Lemma first_match_wins (patterns : list Re.pattern) (filename : string)
    (k : nat) (p : Re.pattern) (groups : Re.captures) :
  patterns !! k = Some p ->
  (forall j q, (j < k)%nat -> patterns !! j = Some q -> Re.search q filename = None) ->
  Re.search p filename = Some groups ->
  EpisodeMatcher.first_match patterns filename
  = match EpisodeMatcher.episode_of_groups groups with
    | Ret n => Ret (Some n)
    | Raise e => Raise e
    end.
Proof.
  revert k. induction patterns as [|q rest IH]; intros k Hk Hbefore Hp.
  - discriminate Hk.
  - destruct k as [|k]; cbn in Hk.
    + injection Hk as ->. cbn. now rewrite Hp.
    + cbn. rewrite (Hbefore 0%nat q) by (cbn; first [ lia | reflexivity ]).
      apply (IH k Hk); [ | exact Hp ].
      intros j q' Hj Hq'. apply (Hbefore (S j) q'); [ lia | exact Hq' ].
Qed.

(** C5. The season/episode form is the first pattern tried, and the
    first pattern that matches decides. When it matches, the result is its
    second group, the episode, not the season: on a match S01E03 the result is
    3. In particular a file name that has no letter s before the tag S01E03,
    in any case, gives 3. *)
Theorem season_episode_gives_episode (filename : string) :
  head EpisodeMatcher.EPISODE_PATTERNS = Some SEASON_EPISODE
  /\ (forall k p groups,
         EpisodeMatcher.EPISODE_PATTERNS !! k = Some p ->
         (forall j q, (j < k)%nat -> EpisodeMatcher.EPISODE_PATTERNS !! j = Some q ->
                      Re.search q filename = None) ->
         Re.search p filename = Some groups ->
         EpisodeMatcher.extract_episode_number filename
         = match EpisodeMatcher.episode_of_groups groups with
           | Ret n => Ret (Some n)
           | Raise e => Raise e
           end)
  /\ (forall season episode,
         Re.search SEASON_EPISODE filename = Some [Some season; Some episode] ->
         EpisodeMatcher.extract_episode_number filename = Ret (Some (int_str episode)))
  /\ (Re.search SEASON_EPISODE filename = Some [Some "01"; Some "03"] ->
      EpisodeMatcher.extract_episode_number filename = Ret (Some 3%Z))
  /\ (forall pre tag suf,
         In tag S01E03_tags ->
         Forall no_s (list_ascii_of_string pre) ->
         filename = pre +:+ tag +:+ suf ->
         EpisodeMatcher.extract_episode_number filename = Ret (Some 3%Z)).
Proof.
  assert (Hgroups : forall season episode,
            Re.search SEASON_EPISODE filename = Some [Some season; Some episode] ->
            EpisodeMatcher.extract_episode_number filename = Ret (Some (int_str episode))).
  { intros season episode Hs.
    unfold EpisodeMatcher.extract_episode_number.
    rewrite (first_match_wins EpisodeMatcher.EPISODE_PATTERNS filename 0
               SEASON_EPISODE [Some season; Some episode] eq_refl); [ | | exact Hs ].
    - assert (Hshort : (String.length episode <= 3)%nat).
      { apply (search_texts_short 3 SEASON_EPISODE filename _ eq_refl Hs 1%nat).
        reflexivity. }
      unfold EpisodeMatcher.episode_of_groups. cbn [length Nat.eqb lookup list_lookup mjoin
        option_join].
      rewrite int_of_group_short by (unfold int_max_str_digits; lia). reflexivity.
    - intros j q Hj. lia. }
  repeat split.
  - intros k p groups. apply first_match_wins.
  - exact Hgroups.
  - intros Hs. now rewrite (Hgroups _ _ Hs).
  - intros pre tag suf Htag Hpre ->.
    now rewrite (Hgroups "01" "03" (search_tag pre suf tag Htag Hpre)).
Qed.

(** The cases of the specification, and two names with more than one
    number in them: the tag wins over a later number, and of two tags the
    leftmost is the match. *)
Example extract_examples :
  map EpisodeMatcher.extract_episode_number
      ["Anime - S01E03 - Title.mkv"; "anime s01e03.mkv"; "Anime Episode 12.mkv";
       "[Group] Anime - 03 [1080p].mp4"; "03_audio_latino.m4a"; "notes.txt";
       "Show S01E03 - 12.mkv"; "S02E07 and S01E03.mkv"]
  = [Ret (Some 3%Z); Ret (Some 3%Z); Ret (Some 12%Z);
     Ret (Some 3%Z); Ret (Some 3%Z); Ret None;
     Ret (Some 3%Z); Ret (Some 7%Z)].
Proof. vm_compute. reflexivity. Qed.

(** ** The process runner *)

(** The continuation of a successful match was called, with as many
    groups as the match started with. *)
Lemma rmatch_reaches_continuation {R : Type} (ic : bool) (r : Re.regex) :
  forall (cur : Re.cursor) (caps : Re.captures)
         (k : Re.cursor -> Re.captures -> option R) (x : R),
    Re.rmatch ic r cur caps k = Some x ->
    exists cur' caps', k cur' caps' = Some x /\ length caps' = length caps.
Proof.
  induction r as [c | p | r1 IH1 r2 IH2 | r1 IH1 r2 IH2 | r1 IH1 lo hi | i r1 IH1 | | ];
    intros cur caps k x Hm; cbn [Re.rmatch] in Hm.
  - destruct (snd cur) as [|c' rest]; [ discriminate | ].
    destruct (Re.class_matches ic (Ascii.eqb c) c'); [ eauto | discriminate ].
  - destruct (snd cur) as [|c' rest]; [ discriminate | ].
    destruct (Re.class_matches ic p c'); [ eauto | discriminate ].
  - apply IH1 in Hm as (cur1 & caps1 & Hm & Hlen1).
    apply IH2 in Hm as (cur2 & caps2 & Hm & Hlen2).
    exists cur2, caps2. split; [ exact Hm | congruence ].
  - destruct (Re.rmatch ic r1 cur caps k) as [y|] eqn:H1.
    + injection Hm as ->. now apply IH1 in H1.
    + now apply IH2 in Hm.
  - revert Hm.
    generalize (match hi with Some h => h | None => length (snd cur) end).
    intros n. revert lo cur caps.
    induction n as [|n IHn]; intros lo cur caps Hm.
    + destruct (lo =? 0)%nat; [ eauto | discriminate ].
    + match type of Hm with
      | match ?m with _ => _ end = _ => destruct m as [y|] eqn:Hstep
      end.
      * injection Hm as ->.
        apply IH1 in Hstep as (cur1 & caps1 & Hstep & Hlen1).
        apply IHn in Hstep as (cur2 & caps2 & Hk & Hlen2).
        exists cur2, caps2. split; [ exact Hk | congruence ].
      * destruct (lo =? 0)%nat; [ eauto | discriminate ].
  - apply IH1 in Hm as (cur1 & caps1 & Hm & Hlen1).
    exists cur1, (<[i := Some (Re.consumed cur cur1)]> caps1).
    split; [ exact Hm | ].
    etransitivity; [ apply length_insert | exact Hlen1 ].
  - destruct (fst cur =? 0)%nat; [ eauto | discriminate ].
  - destruct (snd cur) as [|c [|c' rest]]; [ eauto | | discriminate ].
    destruct (Ascii.eqb c "010"); [ eauto | discriminate ].
Qed.

(** A greedy repetition of a character class, without [re.IGNORECASE]: the
    continuation is called after a run of characters of the class. *)
Lemma rmatch_class_run {R : Type} (p : ascii -> bool) (lo : nat) (hi : option nat)
    (pos : nat) (l : list ascii) (caps : Re.captures)
    (k : Re.cursor -> Re.captures -> option R) (x : R) :
  Re.rmatch false (Re.Rep (Re.Class p) lo hi) (pos, l) caps k = Some x ->
  exists run rest,
    l = run ++ rest
    /\ Forall (fun c => p c = true) run
    /\ k ((pos + length run)%nat, rest) caps = Some x.
Proof.
  cbn. generalize (match hi with Some h => h | None => length l end).
  intros n. revert lo pos l.
  induction n as [|n IHn]; intros lo pos l Hm.
  - destruct (lo =? 0)%nat; [ | discriminate ].
    exists [], l. cbn. rewrite Nat.add_0_r. repeat split; [ constructor | exact Hm ].
  - cbn in Hm.
    assert (Hstop : (if (lo =? 0)%nat then k (pos, l) caps else None) = Some x ->
                    exists run rest, l = run ++ rest
                      /\ Forall (fun c => p c = true) run
                      /\ k ((pos + length run)%nat, rest) caps = Some x).
    { intros Hk. destruct (lo =? 0)%nat; [ | discriminate ].
      exists [], l. cbn. rewrite Nat.add_0_r. repeat split; [ constructor | exact Hk ]. }
    destruct l as [|c rest]; [ now apply Hstop | ].
    unfold Re.class_matches in Hm. cbn [andb] in Hm. rewrite orb_false_r in Hm.
    destruct (p c) eqn:Hc; [ | now apply Hstop ].
    match type of Hm with
    | match ?m with _ => _ end = _ => destruct m as [y|] eqn:Hstep
    end; [ | now apply Hstop ].
    injection Hm as ->.
    apply IHn in Hstep as (run & rest' & -> & Hrun & Hk).
    exists (c :: run), rest'. repeat split.
    + constructor; assumption.
    + cbn [length]. now replace (pos + S (length run))%nat with (S pos + length run)%nat by lia.
Qed.


(** The value of a string of digits is not negative. *)
Lemma int_str_digits (run : list ascii) :
  Forall (fun c => Re.is_digit c = true) run ->
  (0 <= int_str (string_of_list_ascii run))%Z.
Proof.
  intros Hrun. unfold int_str. rewrite list_ascii_of_string_of_list_ascii.
  assert (Hacc : forall acc, (0 <= acc)%Z ->
            (0 <= fold_left (fun acc c => 10 * acc + digit_value c) run acc)%Z).
  { induction Hrun as [|c run Hc _ IH]; intros acc Hacc; cbn; [ exact Hacc | ].
    apply IH. unfold digit_value. unfold Re.is_digit in Hc.
    apply andb_prop in Hc as [Hlo _]. apply Nat.leb_le in Hlo. lia. }
  apply Hacc. lia.
Qed.

Lemma rmatch_Cat {R : Type} ic r1 r2 cur caps (k : Re.cursor -> Re.captures -> option R) :
  Re.rmatch ic (Re.Cat r1 r2) cur caps k
  = Re.rmatch ic r1 cur caps (fun cur' caps' => Re.rmatch ic r2 cur' caps' k).
Proof. reflexivity. Qed.

Lemma rmatch_Group {R : Type} ic i r cur caps (k : Re.cursor -> Re.captures -> option R) :
  Re.rmatch ic (Re.Group i r) cur caps k
  = Re.rmatch ic r cur caps
      (fun cur' caps' => k cur' (<[i := Some (Re.consumed cur cur')]> caps')).
Proof. reflexivity. Qed.

(** What a match of the progress pattern captures: one group, a run of
    digits. *)
Lemma progress_pattern_groups (line : string) (groups : Re.captures) :
  Re.search MKVMergeEngine.PROGRESS_PATTERN line = Some groups ->
  exists run, groups = [Some (string_of_list_ascii run)]
              /\ Forall (fun c => Re.is_digit c = true) run.
Proof.
  unfold Re.search. intros Hs.
  apply search_from_position in Hs as (pos & rest & Hm).
  unfold Re.match_at in Hm.
  change (Re.ignorecase MKVMergeEngine.PROGRESS_PATTERN) with false in Hm.
  change (Re.syntax MKVMergeEngine.PROGRESS_PATTERN)
    with (Re.Cat (Re.word "Progress:")
            (Re.Cat (Re.Rep Re.space 1 None)
               (Re.Cat (Re.Group 0 (Re.Rep (Re.Class Re.is_digit) 1 None))
                  (Re.Lit "%")))) in Hm.
  rewrite rmatch_Cat in Hm.
  apply rmatch_reaches_continuation in Hm as (cur1 & caps1 & Hm & Hlen1).
  rewrite rmatch_Cat in Hm.
  apply rmatch_reaches_continuation in Hm as ([pos2 l2] & caps2 & Hm & Hlen2).
  rewrite rmatch_Cat, rmatch_Group in Hm.
  apply rmatch_class_run in Hm as (run & rest' & -> & Hrun & Hm).
  cbn [Re.rmatch fst snd] in Hm.
  destruct rest' as [|c rest'']; [ discriminate | ].
  destruct (Re.class_matches false (Ascii.eqb "%") c); [ | discriminate ].
  injection Hm as <-.
  exists run. split; [ | exact Hrun ].
  rewrite Hlen1 in Hlen2. cbn in Hlen2.
  destruct caps2 as [|g [|g' caps2]]; try discriminate.
  cbn. unfold Re.consumed. cbn [fst snd].
  replace (pos2 + length run - pos2)%nat with (length run) by lia.
  now rewrite take_app_length.
Qed.

(** What [_parse_progress] does with a line: nothing when the pattern
    does not match; the number, which is not negative, when it matches with
    at most 4300 digits; the [ValueError] of [int] when it matches with
    more. *)
Lemma parse_progress_cases (line : string) :
  (Re.search MKVMergeEngine.PROGRESS_PATTERN line = None
   /\ MKVMergeEngine._parse_progress line = Ret None)
  \/ (exists run,
        Re.search MKVMergeEngine.PROGRESS_PATTERN line
        = Some [Some (string_of_list_ascii run)]
        /\ Forall (fun c => Re.is_digit c = true) run
        /\ (Z.of_nat (length run) <= int_max_str_digits)%Z
        /\ MKVMergeEngine._parse_progress line
           = Ret (Some (int_str (string_of_list_ascii run)))
        /\ (0 <= int_str (string_of_list_ascii run))%Z)
  \/ (exists run,
        Re.search MKVMergeEngine.PROGRESS_PATTERN line
        = Some [Some (string_of_list_ascii run)]
        /\ Forall (fun c => Re.is_digit c = true) run
        /\ (int_max_str_digits < Z.of_nat (length run))%Z
        /\ MKVMergeEngine._parse_progress line
           = Raise (Exn (OtherException "ValueError") (int_limit_message (length run)))).
Proof.
  unfold MKVMergeEngine._parse_progress.
  destruct (Re.search MKVMergeEngine.PROGRESS_PATTERN line) as [groups|] eqn:Hs;
    [ right | now left ].
  destruct (progress_pattern_groups line groups Hs) as (run & -> & Hrun).
  cbn [lookup list_lookup mjoin option_join int_of_group].
  rewrite string_of_list_ascii_length.
  destruct (Z.ltb_spec int_max_str_digits (Z.of_nat (length run))) as [Hlong | Hshort].
  - right. exists run. auto.
  - left. exists run. repeat split; try assumption. now apply int_str_digits.
Qed.

Section RunnerFacts.
Context {W : Type} `{World W}.

Lemma bind_lift_ret {S A B : Type} (a : A) (f : A -> M S B) :
  bind (lift_res (Ret a)) f = f a.
Proof. reflexivity. Qed.

Lemma bind_ret_tt {S B : Type} (f : unit -> M S B) : bind (ret tt) f = f tt.
Proof. reflexivity. Qed.

Lemma bind_ext {S A B : Type} (m : M S A) (f g : A -> M S B) (s : S) :
  (forall a s', f a s' = g a s') -> bind m f s = bind m g s.
Proof.
  intros Hfg. unfold bind. destruct (m s) as [[a|e] s']; [ apply Hfg | reflexivity ].
Qed.

Lemma bind_assoc {S A B C : Type} (m : M S A) (f : A -> M S B) (g : B -> M S C) (s : S) :
  bind (bind m f) g s = bind m (fun a => bind (f a) g) s.
Proof. unfold bind. destruct (m s) as [[a|e] s']; reflexivity. Qed.

(** The monitoring loop calls the callback on the parsed values, in order,
    and on nothing else; an error of [int] cuts it short. *)
Lemma monitor_calls {J : Type} (callback : Z -> M (W * J) unit) (lines : list string) :
  forall s,
    MKVMergeEngine.monitor (Some callback) lines s
    = bind (for_each (fst (progress_events lines)) callback)
           (fun _ => raise_if (snd (progress_events lines))) s.
Proof.
  unfold MKVMergeEngine.monitor.
  induction lines as [|line rest IH]; intros s; [ reflexivity | ].
  cbn [for_each progress_events].
  destruct (MKVMergeEngine._parse_progress line) as [[p|]|e].
  - rewrite bind_lift_ret. cbn [fst snd for_each]. rewrite bind_assoc.
    apply bind_ext. intros _ s'. apply IH.
  - rewrite bind_lift_ret, bind_ret_tt. apply IH.
  - reflexivity.
Qed.

(** Without a callback nothing is parsed and nothing is called. *)
Lemma monitor_without_callback {J : Type} (lines : list string) (s : W * J) :
  MKVMergeEngine.monitor None lines s = (Ret tt, s).
Proof.
  unfold MKVMergeEngine.monitor.
  induction lines as [|line rest IH]; [ reflexivity | ].
  cbn [for_each]. rewrite bind_ret_tt. exact IH.
Qed.

(** Lines that all parse have no error, and their events are their
    values. *)
Lemma progress_events_values (lines : list string) :
  (forall line, In line lines -> forall e, MKVMergeEngine._parse_progress line <> Raise e) ->
  progress_events lines = (progress_values lines, None).
Proof.
  induction lines as [|line rest IH]; intros Hparses; [ reflexivity | ].
  cbn [progress_events progress_values flat_map].
  assert (Hrest : progress_events rest = (progress_values rest, None)).
  { apply IH. intros l Hl. apply Hparses. now right. }
  destruct (MKVMergeEngine._parse_progress line) as [[p|]|e] eqn:Hline.
  - rewrite Hrest. reflexivity.
  - exact Hrest.
  - exfalso. apply (Hparses line (or_introl eq_refl) e). exact Hline.
Qed.

(** The first line that does not parse ends the events. *)
Lemma progress_events_cut (before : list string) (line : string) (rest : list string)
    (e : exn) :
  (forall l, In l before -> forall e', MKVMergeEngine._parse_progress l <> Raise e') ->
  MKVMergeEngine._parse_progress line = Raise e ->
  progress_events (before ++ line :: rest) = (progress_values before, Some e).
Proof.
  intros Hbefore Hline.
  induction before as [|l before IH]; cbn [app progress_events progress_values flat_map].
  - now rewrite Hline.
  - assert (Hrest : progress_events (before ++ line :: rest)
                    = (progress_values before, Some e)).
    { apply IH. intros l' Hl'. apply Hbefore. now right. }
    destruct (MKVMergeEngine._parse_progress l) as [[p|]|e'] eqn:Hl.
    + rewrite Hrest. reflexivity.
    + exact Hrest.
    + exfalso. apply (Hbefore l (or_introl eq_refl) e'). exact Hl.
Qed.

(** X1. The part of the progress contract that holds. The monitoring
    loop hands to the callback exactly the numbers printed in the lines that
    match the pattern, in order and none of them negative, and a line that
    does not match causes no call. The loop runs to the end of the lines
    unless [int] refuses a number of more than 4300 digits: then the
    [ValueError] leaves the loop, and the lines after that one never reach
    the callback. *)
Theorem runner_progress_values {J : Type} (callback : Z -> M (W * J) unit)
    (lines : list string) (s : W * J) :
  MKVMergeEngine.monitor (Some callback) lines s
  = bind (for_each (fst (progress_events lines)) callback)
         (fun _ => raise_if (snd (progress_events lines))) s
  /\ Forall (fun p => (0 <= p)%Z) (fst (progress_events lines))
  /\ ((forall line, In line lines ->
         forall e, MKVMergeEngine._parse_progress line <> Raise e) ->
      progress_events lines = (progress_values lines, None)
      /\ MKVMergeEngine.monitor (Some callback) lines s
         = for_each (progress_values lines) callback s)
  /\ (forall line,
         Re.search MKVMergeEngine.PROGRESS_PATTERN line = None ->
         progress_values [line] = []
         /\ MKVMergeEngine.monitor (Some callback) [line] s = (Ret tt, s))
  /\ (forall line e,
         MKVMergeEngine._parse_progress line = Raise e ->
         exists run,
           Re.search MKVMergeEngine.PROGRESS_PATTERN line
           = Some [Some (string_of_list_ascii run)]
           /\ (int_max_str_digits < Z.of_nat (length run))%Z
           /\ e = Exn (OtherException "ValueError") (int_limit_message (length run)))
  /\ (forall before line rest e,
         lines = before ++ line :: rest ->
         (forall l, In l before ->
            forall e', MKVMergeEngine._parse_progress l <> Raise e') ->
         MKVMergeEngine._parse_progress line = Raise e ->
         progress_events lines = (progress_values before, Some e)
         /\ MKVMergeEngine.monitor (Some callback) lines s
            = bind (for_each (progress_values before) callback) (fun _ => raise e) s).
Proof.
  split; [ apply monitor_calls | ].
  split.
  { induction lines as [|line rest IH]; [ constructor | ].
    cbn [progress_events].
    destruct (parse_progress_cases line)
      as [[_ ->] | [(run & _ & _ & _ & -> & Hp) | (run & _ & _ & _ & ->)]].
    - exact IH.
    - cbn [fst]. constructor; assumption.
    - constructor. }
  split.
  { intros Hparses. pose proof (progress_events_values lines Hparses) as Hevents.
    split; [ exact Hevents | ].
    rewrite monitor_calls, Hevents. cbn [fst snd raise_if].
    unfold bind, ret.
    destruct (for_each (progress_values lines) callback s) as [[[]|e] s']; reflexivity. }
  split.
  { intros line Hnone.
    assert (Hparse : MKVMergeEngine._parse_progress line = Ret None).
    { unfold MKVMergeEngine._parse_progress. now rewrite Hnone. }
    split.
    - unfold progress_values. cbn [flat_map]. now rewrite Hparse.
    - rewrite monitor_calls. cbn [progress_events]. now rewrite Hparse. }
  split.
  { intros line e Hraise.
    destruct (parse_progress_cases line)
      as [[_ Hp] | [(run & _ & _ & _ & Hp & _) | (run & Hs & _ & Hlong & Hp)]];
      rewrite Hp in Hraise; try discriminate Hraise.
    injection Hraise as <-. exists run. auto. }
  intros before line rest e -> Hbefore Hline.
  pose proof (progress_events_cut before line rest e Hbefore Hline) as Hevents.
  split; [ exact Hevents | ].
  rewrite monitor_calls, Hevents. reflexivity.
Qed.

End RunnerFacts.

Section ExecuteFacts.
Context {W : Type} `{World W}.

(** [execute], path by path: the process cannot be launched; the loop is
    left by an exception of the callback or of the parse; the reading of
    stderr fails; the process is read to the end and its exit code
    decides. *)
Lemma execute_cases {J : Type} (command : list string)
    (progress_callback : option (Z -> M (W * J) unit)) (s : W * J) :
  match popen command (fst s) with
  | (Raise e, w1) =>
      MKVMergeEngine.execute command progress_callback s
      = (Ret (RemuxResult.failure (exn_msg e)), (w1, snd s))
  | (Ret process, w1) =>
      match MKVMergeEngine.monitor progress_callback (stderr process) (w1, snd s) with
      | (Raise e, s1) =>
          MKVMergeEngine.execute command progress_callback s
          = (Ret (RemuxResult.failure (exn_msg e)), s1)
      | (Ret _, s1) =>
          match stderr_error process with
          | Some e =>
              MKVMergeEngine.execute command progress_callback s
              = (Ret (RemuxResult.failure (exn_msg e)), s1)
          | None =>
              MKVMergeEngine.execute command progress_callback s
              = (Ret (if (returncode process =? 0)%Z
                      then RemuxResult.succeeded
                             (MKVMergeEngine._extract_output_file command)
                      else RemuxResult.failure
                             ("El proceso fall" +:+ o_acute +:+ " con c" +:+ o_acute
                              +:+ "digo " +:+ str_int (returncode process))), s1)
          end
      end
  end.
Proof.
  destruct (popen command (fst s)) as [[process|e] w1] eqn:Hpopen.
  - destruct (MKVMergeEngine.monitor progress_callback (stderr process) (w1, snd s))
      as [[[]|e] s1] eqn:Hmonitor.
    + destruct (stderr_error process) as [e|] eqn:Herror.
      * unfold MKVMergeEngine.execute, try_except, bind at 1, lift. rewrite Hpopen.
        unfold bind at 1. rewrite Hmonitor.
        unfold bind at 1, MKVMergeEngine.end_of_stderr. now rewrite Herror.
      * unfold MKVMergeEngine.execute, try_except, bind at 1, lift. rewrite Hpopen.
        unfold bind at 1. rewrite Hmonitor.
        unfold bind at 1, MKVMergeEngine.end_of_stderr. rewrite Herror.
        unfold ret. destruct (returncode process =? 0)%Z; reflexivity.
    + unfold MKVMergeEngine.execute, try_except, bind at 1, lift. rewrite Hpopen.
      unfold bind at 1. now rewrite Hmonitor.
  - unfold MKVMergeEngine.execute, try_except, bind at 1, lift. now rewrite Hpopen.
Qed.

(** What [execute] returns is a success without message or a failure with
    one. *)
Lemma execute_result {J : Type} (command : list string)
    (progress_callback : option (Z -> M (W * J) unit)) (s : W * J) :
  exists result s',
    MKVMergeEngine.execute command progress_callback s = (Ret result, s')
    /\ ((RemuxResult.success result = true
         /\ RemuxResult.error_message result = None
         /\ RemuxResult.output_file result = MKVMergeEngine._extract_output_file command
         /\ exists process w1,
             popen command (fst s) = (Ret process, w1)
             /\ returncode process = 0%Z
             /\ stderr_error process = None)
        \/ (RemuxResult.success result = false
            /\ is_Some (RemuxResult.error_message result))).
Proof.
  pose proof (execute_cases command progress_callback s) as Hcases.
  destruct (popen command (fst s)) as [[process|e] w1] eqn:Hpopen.
  - destruct (MKVMergeEngine.monitor progress_callback (stderr process) (w1, snd s))
      as [[[]|e] s1].
    + destruct (stderr_error process) as [e|] eqn:Herror.
      * eexists; eexists. split; [ exact Hcases | right ]. split; [ reflexivity | eauto ].
      * destruct (Z.eqb_spec (returncode process) 0) as [Hzero | Hnz].
        -- eexists; eexists. split; [ exact Hcases | left ].
           repeat split. eauto.
        -- eexists; eexists. split; [ exact Hcases | right ].
           split; [ reflexivity | eauto ].
    + eexists; eexists. split; [ exact Hcases | right ]. split; [ reflexivity | eauto ].
  - eexists; eexists. split; [ exact Hcases | right ]. split; [ reflexivity | eauto ].
Qed.

(** The monitoring loop is left at the first line that matches, when the
    number cannot be read or the callback raises on it. *)
Lemma monitor_raises {J : Type} (callback : Z -> M (W * J) unit)
    (before : list string) (line : string) (rest : list string)
    (e : exn) (s s' : W * J) :
  Forall (fun l => Re.search MKVMergeEngine.PROGRESS_PATTERN l = None) before ->
  (MKVMergeEngine._parse_progress line = Raise e /\ s' = s)
  \/ (exists p, MKVMergeEngine._parse_progress line = Ret (Some p)
                /\ callback p s = (Raise e, s')) ->
  MKVMergeEngine.monitor (Some callback) (before ++ line :: rest) s = (Raise e, s').
Proof.
  intros Hbefore Hline. unfold MKVMergeEngine.monitor.
  induction Hbefore as [|l before Hl _ IH]; cbn [app for_each].
  - destruct Hline as [[Hparse ->] | (p & Hparse & Hcall)]; rewrite Hparse.
    + reflexivity.
    + rewrite bind_lift_ret. unfold bind. now rewrite Hcall.
  - assert (Hparse : MKVMergeEngine._parse_progress l = Ret None).
    { unfold MKVMergeEngine._parse_progress. now rewrite Hl. }
    rewrite Hparse, bind_lift_ret, !bind_ret_tt. exact IH.
Qed.

End ExecuteFacts.

Example parse_progress_examples :
  map MKVMergeEngine._parse_progress
      ["Progress: 50%"; "Progress: 100%"; "Progress:   7%"; "muxing, Progress: 42% done";
       "progress: 9%"; "Progress:7%"; "Progress: %"; "Progress: 150%"]
  = [Ret (Some 50%Z); Ret (Some 100%Z); Ret (Some 7%Z); Ret (Some 42%Z);
     Ret None; Ret None; Ret None; Ret (Some 150%Z)].
Proof. vm_compute. reflexivity. Qed.

(** C8, the failing run. The line [Progress: 150%] matches the pattern;
    the runner parses 150 and hands it to the callback as it is, outside the
    range 0 to 100 that the documentation of [_parse_progress] and [execute]
    promises. *)
Theorem progress_beyond_100 :
  MKVMergeEngine._parse_progress "Progress: 150%" = Ret (Some 150%Z)
  /\ ~ in_percent_range 150
  /\ (exists result s',
         MKVMergeEngine.execute (J := unit) ["mkvmerge"; "-o"; "out/show_01.mkv"]
           (Some Sim.record_value) (Fixtures.overshoot, tt) = (Ret result, s')
         /\ RemuxResult.success result = true
         /\ map (fun entry => snd (fst entry)) (Sim.log (fst s')) = [50; 150]%Z).
Proof.
  split; [ vm_compute; reflexivity | ].
  split; [ unfold in_percent_range; lia | ].
  eexists; eexists. split; [ vm_compute; reflexivity | ].
  split; reflexivity.
Qed.

(** ** The remux service *)

Section RemuxServiceFacts.
Context {W : Type} `{World W}.

(** Both [except] clauses mark the job failed and return a failure result
    with the message of the exception; neither raises. *)
Lemma remux_handler_returns (e : exn) (s : W * RemuxJob.t) :
  exists message,
    RemuxService.remux_handler e s
    = (Ret (RemuxResult.failure (exn_msg e)),
       (fst s, RemuxJob.fail (now (fst s)) message (snd s))).
Proof.
  unfold RemuxService.remux_handler, RemuxService.job_fail,
    bind, clock, update_self, gets, modify, ret.
  destruct (is_ValidationError e); eexists; reflexivity.
Qed.

(** The service never raises. *)
Lemma remux_returns (self : RemuxService.t)
    (progress_callback : option (Z -> M (W * RemuxJob.t) unit))
    (s : W * RemuxJob.t) :
  exists result s', RemuxService.remux self progress_callback s = (Ret result, s').
Proof.
  unfold RemuxService.remux, bind, clock, gets, try_except.
  destruct (RemuxService.remux_body self (now (fst s)) progress_callback s)
    as [[result | e] s1].
  - eauto.
  - destruct (remux_handler_returns e s1) as [message ->]. eauto.
Qed.

(** A failure of the engine, once the job is validated and the command
    built, is the failure [remux] returns, with the job failed. *)
Lemma remux_after_execute (self : RemuxService.t)
    (progress_callback : option (Z -> M (W * RemuxJob.t) unit))
    (s s4 : W * RemuxJob.t) (w1 w2 : W) (cmd : list string) (result : RemuxResult.t) :
  validate_remux_job (snd s) (fst s) = (Ret tt, w1) ->
  MKVMergeEngine.build_command (RemuxService.mkvmerge self)
    (RemuxJob.start (now w1) (snd s)) w1 = (Ret cmd, w2) ->
  MKVMergeEngine.execute cmd progress_callback (w2, RemuxJob.start (now w1) (snd s))
  = (Ret result, s4) ->
  RemuxResult.success result = false ->
  RemuxService.remux self progress_callback s
  = (Ret (RemuxResult.set_duration_seconds (now (fst s4) - now (fst s))%Q result),
     (fst s4,
      RemuxJob.fail (now (fst s4))
        (or_default (RemuxResult.error_message result) "Error desconocido") (snd s4))).
Proof.
  intros Hval Hbuild Hexec Hfail.
  unfold RemuxService.remux, bind, clock, gets, try_except.
  unfold RemuxService.remux_body, RemuxService.job_start, RemuxService.job_fail,
    MKVMergeEngine.remux, bind, clock, get_self, update_self, gets, modify, lift, ret.
  cbn [fst snd]. rewrite Hval. cbn [fst snd]. rewrite Hbuild. cbn [fst snd].
  rewrite Hexec, Hfail. reflexivity.
Qed.

(** The same, for a failure that carries the message of an exception. *)
Lemma remux_after_exception (self : RemuxService.t)
    (progress_callback : option (Z -> M (W * RemuxJob.t) unit))
    (s s4 : W * RemuxJob.t) (w1 w2 : W) (cmd : list string) (e : exn) :
  validate_remux_job (snd s) (fst s) = (Ret tt, w1) ->
  MKVMergeEngine.build_command (RemuxService.mkvmerge self)
    (RemuxJob.start (now w1) (snd s)) w1 = (Ret cmd, w2) ->
  MKVMergeEngine.execute cmd progress_callback (w2, RemuxJob.start (now w1) (snd s))
  = (Ret (RemuxResult.failure (exn_msg e)), s4) ->
  exists result s',
    RemuxService.remux self progress_callback s = (Ret result, s')
    /\ RemuxResult.success result = false
    /\ RemuxResult.error_message result = Some (exn_msg e)
    /\ RemuxJob.status (snd s') = FAILED
    /\ RemuxJob.error_message (snd s')
       = Some (or_default (Some (exn_msg e)) "Error desconocido").
Proof.
  intros Hval Hbuild Hexec.
  eexists; eexists.
  split; [ exact (remux_after_execute _ _ _ _ _ _ _ _ Hval Hbuild Hexec eq_refl) | ].
  repeat split.
Qed.

(** C3. [remux] always returns a result: whatever exception the [try]
    block raises, in validation or in execution, is turned into a failed job
    and a failure result that carries its message. An exception of the
    validation and a failure to launch the process are spelled out, and so is
    every exception raised while the command runs: one that leaves the
    monitoring loop, be it raised by the progress callback or by the parse of
    a progress line, and one raised by the reading of the output of the
    process. *)
Theorem remux_contains_exceptions (self : RemuxService.t)
    (progress_callback : option (Z -> M (W * RemuxJob.t) unit))
    (s : W * RemuxJob.t) :
  (exists result s', RemuxService.remux self progress_callback s = (Ret result, s'))
  /\ (forall e s1,
         RemuxService.remux_body self (now (fst s)) progress_callback s = (Raise e, s1) ->
         exists s',
           RemuxService.remux self progress_callback s
           = (Ret (RemuxResult.failure (exn_msg e)), s')
           /\ RemuxJob.status (snd s') = FAILED)
  /\ (forall e w1,
         validate_remux_job (snd s) (fst s) = (Raise e, w1) ->
         exists s',
           RemuxService.remux self progress_callback s
           = (Ret (RemuxResult.failure (exn_msg e)), s')
           /\ RemuxJob.status (snd s') = FAILED
           /\ RemuxJob.started_at (snd s') = RemuxJob.started_at (snd s))
  /\ (forall e w1 w2 w3 cmd,
         validate_remux_job (snd s) (fst s) = (Ret tt, w1) ->
         MKVMergeEngine.build_command (RemuxService.mkvmerge self)
           (RemuxJob.start (now w1) (snd s)) w1 = (Ret cmd, w2) ->
         popen cmd w2 = (Raise e, w3) ->
         exists result s',
           RemuxService.remux self progress_callback s = (Ret result, s')
           /\ RemuxResult.success result = false
           /\ RemuxResult.error_message result = Some (exn_msg e)
           /\ RemuxJob.status (snd s') = FAILED)
  /\ (forall e w1 w2 w3 cmd process s4,
         validate_remux_job (snd s) (fst s) = (Ret tt, w1) ->
         MKVMergeEngine.build_command (RemuxService.mkvmerge self)
           (RemuxJob.start (now w1) (snd s)) w1 = (Ret cmd, w2) ->
         popen cmd w2 = (Ret process, w3) ->
         MKVMergeEngine.monitor progress_callback (stderr process)
           (w3, RemuxJob.start (now w1) (snd s)) = (Raise e, s4) ->
         exists result s',
           RemuxService.remux self progress_callback s = (Ret result, s')
           /\ RemuxResult.success result = false
           /\ RemuxResult.error_message result = Some (exn_msg e)
           /\ RemuxJob.status (snd s') = FAILED
           /\ RemuxJob.error_message (snd s')
              = Some (or_default (Some (exn_msg e)) "Error desconocido"))
  /\ (forall callback e w1 w2 w3 cmd process before line rest s4,
         progress_callback = Some callback ->
         validate_remux_job (snd s) (fst s) = (Ret tt, w1) ->
         MKVMergeEngine.build_command (RemuxService.mkvmerge self)
           (RemuxJob.start (now w1) (snd s)) w1 = (Ret cmd, w2) ->
         popen cmd w2 = (Ret process, w3) ->
         stderr process = before ++ line :: rest ->
         Forall (fun l => Re.search MKVMergeEngine.PROGRESS_PATTERN l = None) before ->
         (MKVMergeEngine._parse_progress line = Raise e
          /\ s4 = (w3, RemuxJob.start (now w1) (snd s)))
         \/ (exists p, MKVMergeEngine._parse_progress line = Ret (Some p)
                       /\ callback p (w3, RemuxJob.start (now w1) (snd s))
                          = (Raise e, s4)) ->
         exists result s',
           RemuxService.remux self progress_callback s = (Ret result, s')
           /\ RemuxResult.success result = false
           /\ RemuxResult.error_message result = Some (exn_msg e)
           /\ RemuxJob.status (snd s') = FAILED
           /\ RemuxJob.error_message (snd s')
              = Some (or_default (Some (exn_msg e)) "Error desconocido"))
  /\ (forall e w1 w2 w3 cmd process s4,
         validate_remux_job (snd s) (fst s) = (Ret tt, w1) ->
         MKVMergeEngine.build_command (RemuxService.mkvmerge self)
           (RemuxJob.start (now w1) (snd s)) w1 = (Ret cmd, w2) ->
         popen cmd w2 = (Ret process, w3) ->
         MKVMergeEngine.monitor progress_callback (stderr process)
           (w3, RemuxJob.start (now w1) (snd s)) = (Ret tt, s4) ->
         stderr_error process = Some e ->
         exists result s',
           RemuxService.remux self progress_callback s = (Ret result, s')
           /\ RemuxResult.success result = false
           /\ RemuxResult.error_message result = Some (exn_msg e)
           /\ RemuxJob.status (snd s') = FAILED
           /\ RemuxJob.error_message (snd s')
              = Some (or_default (Some (exn_msg e)) "Error desconocido")).
Proof.
  assert (Hcaught : forall e s1,
    RemuxService.remux_body self (now (fst s)) progress_callback s = (Raise e, s1) ->
    exists s',
      RemuxService.remux self progress_callback s
      = (Ret (RemuxResult.failure (exn_msg e)), s')
      /\ RemuxJob.status (snd s') = FAILED).
  { intros e s1 Hbody.
    unfold RemuxService.remux, bind, clock, gets, try_except. rewrite Hbody.
    destruct (remux_handler_returns e s1) as [prefix ->].
    eexists; split; reflexivity. }
  assert (Hmonitor : forall e w1 w2 w3 cmd process s4,
    validate_remux_job (snd s) (fst s) = (Ret tt, w1) ->
    MKVMergeEngine.build_command (RemuxService.mkvmerge self)
      (RemuxJob.start (now w1) (snd s)) w1 = (Ret cmd, w2) ->
    popen cmd w2 = (Ret process, w3) ->
    MKVMergeEngine.monitor progress_callback (stderr process)
      (w3, RemuxJob.start (now w1) (snd s)) = (Raise e, s4) ->
    exists result s',
      RemuxService.remux self progress_callback s = (Ret result, s')
      /\ RemuxResult.success result = false
      /\ RemuxResult.error_message result = Some (exn_msg e)
      /\ RemuxJob.status (snd s') = FAILED
      /\ RemuxJob.error_message (snd s')
         = Some (or_default (Some (exn_msg e)) "Error desconocido")).
  { intros e w1 w2 w3 cmd process s4 Hval Hbuild Hpopen Hloop.
    apply (remux_after_exception self progress_callback s s4 w1 w2 cmd e Hval Hbuild).
    pose proof (execute_cases cmd progress_callback
                  (w2, RemuxJob.start (now w1) (snd s))) as Hcases.
    cbn [fst snd] in Hcases. rewrite Hpopen, Hloop in Hcases. exact Hcases. }
  split; [ | split; [ exact Hcaught | split; [ | split; [ | split; [ exact Hmonitor | split ] ] ] ] ].
  - apply remux_returns.
  - intros e w1 Hval.
    unfold RemuxService.remux, bind, clock, gets, try_except.
    unfold RemuxService.remux_body, bind, get_self, gets, lift. cbn [fst snd].
    rewrite Hval.
    destruct (remux_handler_returns e (w1, snd s)) as [prefix ->].
    eexists; repeat split.
  - intros e w1 w2 w3 cmd Hval Hbuild Hpopen.
    destruct (remux_after_exception self progress_callback s
                (w3, RemuxJob.start (now w1) (snd s)) w1 w2 cmd e Hval Hbuild)
      as (result & s' & Hrun & Hfail & Hmsg & Hstatus & _).
    + pose proof (execute_cases cmd progress_callback
                    (w2, RemuxJob.start (now w1) (snd s))) as Hcases.
      cbn [fst snd] in Hcases. rewrite Hpopen in Hcases. exact Hcases.
    + exists result, s'. auto.
  - intros callback e w1 w2 w3 cmd process before line rest s4
      -> Hval Hbuild Hpopen Hlines Hbefore Hline.
    apply (Hmonitor e w1 w2 w3 cmd process s4 Hval Hbuild Hpopen).
    rewrite Hlines. now apply monitor_raises.
  - intros e w1 w2 w3 cmd process s4 Hval Hbuild Hpopen Hloop Herror.
    apply (remux_after_exception self progress_callback s s4 w1 w2 cmd e Hval Hbuild).
    pose proof (execute_cases cmd progress_callback
                  (w2, RemuxJob.start (now w1) (snd s))) as Hcases.
    cbn [fst snd] in Hcases. rewrite Hpopen, Hloop, Herror in Hcases. exact Hcases.
Qed.
End RemuxServiceFacts.

Section DualServiceFacts.
Context {W : Type} `{World W}.


End DualServiceFacts.

(** The service on three jobs in the simulated world: a video that does
    not exist, a tool that cannot be launched, and a run that succeeds. *)
Example remux_outcomes :
  let engine := RemuxService.mk (MKVMergeEngine.mk "mkvmerge") in
  let job := RemuxJob.new 0%Q "in/show_05.mkv" "out/show_05.mkv" [] [] false true true in
  let missing := RemuxJob.new 0%Q "in/show_04.mkv" "out/show_04.mkv" [] [] false true true in
  let broken :=
    Sim.mkWorld ["in/show_05.mkv"] ["in"; "out"]
      (fun _ => Raise (Exn (OtherException "FileNotFoundError") "No such file: mkvmerge"))
      [] 0%Q in
  let outcome (r : res RemuxResult.t * (Sim.world * RemuxJob.t)) :=
    (match fst r with
     | Ret result => Some (RemuxResult.success result, RemuxResult.error_message result)
     | Raise _ => None
     end,
     RemuxJob.status (snd (snd r)), RemuxJob.progress (snd (snd r))) in
  outcome (RemuxService.remux engine None (Fixtures.studio, missing))
  = (Some (false, Some "El archivo de video no existe: in/show_04.mkv"), FAILED, 0%Z)
  /\ outcome (RemuxService.remux engine None (broken, job))
     = (Some (false, Some "No such file: mkvmerge"), FAILED, 0%Z)
  /\ outcome (RemuxService.remux engine None (Fixtures.studio, job))
     = (Some (true, None), COMPLETED, 100%Z).
Proof. vm_compute. repeat split. Qed.

(** ** The batch service *)

Section BatchFacts.
Context {W : Type} `{World W}.

(** The service call of the loop always returns a result. *)
Lemma run_remux_returns (self : BatchService.t) (job : RemuxJob.t)
    (progress_callback : option (Z -> Z -> string -> M W unit)) (ep_num : Z) (w : W) :
  exists result w',
    BatchService.run_remux self job progress_callback ep_num w = (Ret result, w').
Proof.
  unfold BatchService.run_remux, bind, with_self.
  destruct (remux_returns (BatchService.remux_service self)
              (Some (BatchService.episode_progress progress_callback ep_num)) (w, job))
    as (result & s' & Hrun).
  rewrite Hrun. cbn. eauto.
Qed.

(** An episode with a video file gets a job, when the name can be
    formatted. *)
Lemma create_job_complete (episode : Episode.t) (output_directory : Path)
    (output_pattern : string) (audio_offset_ms subtitle_offset_ms : Z) (w : W) :
  format_succeeds output_pattern ->
  Episode.is_complete episode = true ->
  exists job,
    BatchService._create_job_from_episode episode output_directory output_pattern
      audio_offset_ms subtitle_offset_ms w = (Ret (Some job), w).
Proof.
  intros Hfmt Hcomplete.
  unfold BatchService._create_job_from_episode, Episode.is_complete in *.
  destruct (Episode.video_file episode) as [video|]; [ | discriminate ].
  destruct (Hfmt (Episode.number episode)) as [name Hname].
  unfold bind, lift_res, gets, ret. rewrite Hname. eauto.
Qed.

(** The loop of [process_episodes] over complete episodes: one result for
    each, in order; the two counters share the episodes between them. *)
Lemma episodes_loop_complete (self : BatchService.t) (output_directory : Path)
    (output_pattern : string) (audio_offset_ms subtitle_offset_ms : Z)
    (progress_callback : option (Z -> Z -> string -> M W unit))
    (items : list (Z * Episode.t)) :
  format_succeeds output_pattern ->
  Forall (fun item => Episode.is_complete (snd item) = true) items ->
  forall acc w,
  exists acc' w',
    BatchService.episodes_loop self output_directory output_pattern audio_offset_ms
      subtitle_offset_ms progress_callback items acc w = (Ret acc', w')
    /\ result_episodes (BatchService.t_results acc')
       = result_episodes (BatchService.t_results acc) ++ map fst items
    /\ (BatchService.t_successful acc' + BatchService.t_failed acc'
        = BatchService.t_successful acc + BatchService.t_failed acc
          + Z.of_nat (length items))%Z
    /\ (BatchService.t_successful acc <= BatchService.t_successful acc')%Z
    /\ (BatchService.t_failed acc <= BatchService.t_failed acc')%Z.
Proof.
  intros Hfmt Hall.
  induction Hall as [|[ep_num episode] rest Hcomplete _ IH]; intros acc w.
  - exists acc, w. cbn. rewrite app_nil_r. repeat split; lia.
  - cbn [BatchService.episodes_loop]. unfold bind at 1.
    destruct (create_job_complete episode output_directory output_pattern
                audio_offset_ms subtitle_offset_ms w Hfmt Hcomplete) as [job ->].
    unfold bind at 1.
    destruct (run_remux_returns self job progress_callback ep_num w)
      as (result & w1 & ->).
    match goal with
    | |- context [BatchService.episodes_loop _ _ _ _ _ _ rest ?a w1] =>
        destruct (IH a w1) as (acc' & w' & Hrun & Hres & Hsum & Hs & Hf)
    end.
    exists acc', w'. split; [ exact Hrun | ].
    unfold result_episodes in *.
    destruct (RemuxResult.success result); cbn in Hres, Hsum, Hs, Hf |- *;
      rewrite Hres, map_app, <- app_assoc; cbn; repeat split; lia.
Qed.


(** The sorted items of a map list its keys once each, in ascending
    order. *)
Lemma sorted_items_keys (m : gmap Z Episode.t) :
  NoDup (map fst (BatchService.sorted_items m))
  /\ StronglySorted Z.le (map fst (BatchService.sorted_items m))
  /\ (forall k, In k (map fst (BatchService.sorted_items m)) <-> is_Some (m !! k))
  /\ length (BatchService.sorted_items m) = size m.
Proof.
  unfold BatchService.sorted_items.
  pose proof (merge_sort_Permutation BatchService.key_le (map_to_list m)) as Hperm.
  repeat split.
  - change (NoDup ((merge_sort BatchService.key_le (map_to_list m)).*1)).
    rewrite Hperm. apply NoDup_fst_map_to_list.
  - change (StronglySorted Z.le (fst <$> merge_sort BatchService.key_le (map_to_list m))).
    apply (StronglySorted_fmap fst BatchService.key_le Z.le).
    + intros x y Hxy. exact Hxy.
    + apply StronglySorted_merge_sort; apply _.
  - intros Hin. apply list_elem_of_In in Hin.
    change (k ∈ (merge_sort BatchService.key_le (map_to_list m)).*1) in Hin.
    rewrite Hperm in Hin. apply list_elem_of_fmap in Hin as ([k' e] & -> & Hin).
    apply elem_of_map_to_list in Hin. cbn. eauto.
  - intros [e He]. apply list_elem_of_In.
    change (k ∈ (merge_sort BatchService.key_le (map_to_list m)).*1).
    rewrite Hperm. apply list_elem_of_fmap. exists (k, e). split; [ reflexivity | ].
    now apply elem_of_map_to_list.
  - rewrite Hperm. apply length_map_to_list.
Qed.

(** Every item that survives the filter is a complete episode. *)
Lemma sorted_items_complete (episodes : gmap Z Episode.t) :
  Forall (fun item => Episode.is_complete (snd item) = true)
         (BatchService.sorted_items (EpisodeMatcher.filter_complete_episodes episodes)).
Proof.
  apply Forall_forall. intros [k e] Hin.
  unfold BatchService.sorted_items in Hin.
  rewrite merge_sort_Permutation in Hin.
  apply elem_of_map_to_list in Hin.
  unfold EpisodeMatcher.filter_complete_episodes in Hin.
  apply map_lookup_filter_Some in Hin as [_ Hcomplete]. exact Hcomplete.
Qed.

(** [process_episodes] on any map of episodes: the incomplete ones are
    filtered out before the loop and never counted; every complete one gets
    one result, in ascending order of its number. *)
Lemma process_episodes_result (self : BatchService.t) (episodes : gmap Z Episode.t)
    (output_directory : Path) (output_pattern : string)
    (audio_offset_ms subtitle_offset_ms : Z)
    (progress_callback : option (Z -> Z -> string -> M W unit)) (w : W) :
  mkdir_succeeds output_directory ->
  format_succeeds output_pattern ->
  exists batch w',
    BatchService.process_episodes self episodes output_directory output_pattern
      audio_offset_ms subtitle_offset_ms progress_callback w = (Ret batch, w')
    /\ BatchResult.skipped batch = 0%Z
    /\ BatchResult.total_episodes batch
       = Z.of_nat (size (EpisodeMatcher.filter_complete_episodes episodes))
    /\ result_episodes (BatchResult.results batch)
       = map fst (BatchService.sorted_items
                    (EpisodeMatcher.filter_complete_episodes episodes))
    /\ (BatchResult.successful batch + BatchResult.failed batch
        = BatchResult.total_episodes batch)%Z
    /\ (0 <= BatchResult.successful batch)%Z
    /\ (0 <= BatchResult.failed batch)%Z.
Proof.
  intros Hmkdir Hfmt.
  unfold BatchService.process_episodes, bind at 1, gets at 1.
  set (complete := EpisodeMatcher.filter_complete_episodes episodes).
  destruct (bool_decide_reflect (complete = ∅)) as [Hempty | Hsome].
  - eexists; eexists; split; [ reflexivity | ]. cbn.
    rewrite Hempty. unfold BatchService.sorted_items.
    rewrite map_to_list_empty, map_size_empty. repeat split; lia.
  - unfold bind at 1. destruct (Hmkdir w) as [w1 ->].
    unfold bind at 1.
    destruct (episodes_loop_complete self output_directory output_pattern
                audio_offset_ms subtitle_offset_ms progress_callback
                (BatchService.sorted_items complete) Hfmt
                (sorted_items_complete episodes)
                (BatchService.mkTally [] 0 0 0) w1)
      as (acc' & w2 & -> & Hres & Hsum & Hs & Hf).
    eexists; eexists; split; [ reflexivity | ]. cbn in *.
    destruct (sorted_items_keys complete) as (_ & _ & _ & Hlen).
    rewrite Hlen in Hsum. repeat split; try assumption; lia.
Qed.

(** In the batch of the specification the complete episodes are 1, 2, 4
    and 5. *)
Lemma five_complete_keys (episodes : gmap Z Episode.t) :
  five_with_third_incomplete episodes ->
  map fst (BatchService.sorted_items (EpisodeMatcher.filter_complete_episodes episodes))
  = [1; 2; 4; 5]%Z.
Proof.
  intros [Hdom Hthird].
  destruct (sorted_items_keys (EpisodeMatcher.filter_complete_episodes episodes))
    as (Hnd & Hsorted & Hkeys & _).
  apply (StronglySorted_unique Z.le); [ exact Hsorted | | ].
  - repeat constructor; lia.
  - apply NoDup_Permutation; [ exact Hnd | | ].
    + repeat constructor; set_solver.
    + intros k. rewrite list_elem_of_In, Hkeys.
      unfold EpisodeMatcher.filter_complete_episodes, Episode.is_complete.
      split.
      * intros [e He]. apply map_lookup_filter_Some in He as [He Hvideo].
        cbn in Hvideo.
        assert (Hk : (1 <= k <= 5)%Z) by (apply Hdom; eauto).
        assert (Hne : k <> 3%Z).
        { intros ->. destruct (Hthird _ _ He) as [_ Hnone].
          rewrite Hnone in Hvideo by reflexivity. discriminate. }
        assert (k = 1 \/ k = 2 \/ k = 4 \/ k = 5)%Z as [-> | [-> | [-> | ->]]] by lia;
          set_solver.
      * intros Hin.
        assert (Hk : (1 <= k <= 5)%Z /\ k <> 3%Z) by (set_unfold in Hin; lia).
        destruct Hk as [Hk Hne].
        destruct (proj2 (Hdom k) Hk) as [e He].
        exists e. apply map_lookup_filter_Some. split; [ exact He | ]. cbn.
        destruct (Episode.video_file e) eqn:Hvideo; [ reflexivity | ].
        exfalso. apply Hne. now apply (Hthird _ _ He).
Qed.

(** C2. The code misses the episode it should count as skipped. A batch
    over episodes 1 to 5 where exactly episode 3 has no video file: the
    episode without video is dropped by the filter before the loop, so it is
    never counted; the result has [skipped = 0], where one episode was left
    out, with [total_episodes = 4], and the results list holds episodes 1, 2,
    4 and 5, once each and in this order, whether they succeed or fail.
    [process_directory] keeps a counter and a branch for such an episode,
    which the same filter makes unreachable. *)
Theorem batch_of_five (self : BatchService.t) (episodes : gmap Z Episode.t)
    (output_directory : Path) (output_pattern : string)
    (audio_offset_ms subtitle_offset_ms : Z)
    (progress_callback : option (Z -> Z -> string -> M W unit)) (w : W) :
  five_with_third_incomplete episodes ->
  mkdir_succeeds output_directory ->
  format_succeeds output_pattern ->
  exists batch w',
    BatchService.process_episodes self episodes output_directory output_pattern
      audio_offset_ms subtitle_offset_ms progress_callback w = (Ret batch, w')
    /\ BatchResult.skipped batch = 0%Z
    /\ BatchResult.total_episodes batch = 4%Z
    /\ result_episodes (BatchResult.results batch) = [1; 2; 4; 5]%Z
    /\ (forall n, In n [1; 2; 4; 5]%Z ->
          count_occ Z.eq_dec (result_episodes (BatchResult.results batch)) n = 1%nat)
    /\ count_occ Z.eq_dec (result_episodes (BatchResult.results batch)) 3%Z = 0%nat
    /\ (BatchResult.successful batch + BatchResult.failed batch = 4)%Z.
Proof.
  intros Hfive Hmkdir Hfmt.
  destruct (process_episodes_result self episodes output_directory output_pattern
              audio_offset_ms subtitle_offset_ms progress_callback w Hmkdir Hfmt)
    as (batch & w' & Hrun & Hskipped & Htotal & Hres & Hsum & _ & _).
  pose proof (five_complete_keys episodes Hfive) as Hkeys.
  destruct (sorted_items_keys (EpisodeMatcher.filter_complete_episodes episodes))
    as (_ & _ & _ & Hlen).
  assert (Hsize : size (EpisodeMatcher.filter_complete_episodes episodes) = 4%nat).
  { rewrite <- Hlen, <- (length_map fst), Hkeys. reflexivity. }
  rewrite Hsize in Htotal. rewrite Hkeys in Hres.
  exists batch, w'. rewrite Hres. repeat split; try assumption.
  - intros n [<- | [<- | [<- | [<- | []]]]]; reflexivity.
  - lia.
Qed.

End BatchFacts.

(** The sample batch is the batch of the specification. *)
Lemma five_episodes_shape : five_with_third_incomplete Fixtures.five_episodes.
Proof.
  unfold Fixtures.five_episodes. cbn [list_to_map foldr uncurry fst snd].
  split.
  - intros n.
    destruct (decide (n = 1%Z)) as [-> | H1]; [ rewrite lookup_insert_eq; split; [ lia | eauto ] | ].
    rewrite lookup_insert_ne by congruence.
    destruct (decide (n = 2%Z)) as [-> | H2]; [ rewrite lookup_insert_eq; split; [ lia | eauto ] | ].
    rewrite lookup_insert_ne by congruence.
    destruct (decide (n = 3%Z)) as [-> | H3]; [ rewrite lookup_insert_eq; split; [ lia | eauto ] | ].
    rewrite lookup_insert_ne by congruence.
    destruct (decide (n = 4%Z)) as [-> | H4]; [ rewrite lookup_insert_eq; split; [ lia | eauto ] | ].
    rewrite lookup_insert_ne by congruence.
    destruct (decide (n = 5%Z)) as [-> | H5]; [ rewrite lookup_insert_eq; split; [ lia | eauto ] | ].
    rewrite lookup_insert_ne by congruence.
    rewrite lookup_empty. split; [ intros [e He]; discriminate | lia ].
  - intros n e.
    destruct (decide (n = 1%Z)) as [-> | H1];
      [ rewrite lookup_insert_eq; intros [= <-]; cbn; split; [ discriminate | lia ] | ].
    rewrite lookup_insert_ne by congruence.
    destruct (decide (n = 2%Z)) as [-> | H2];
      [ rewrite lookup_insert_eq; intros [= <-]; cbn; split; [ discriminate | lia ] | ].
    rewrite lookup_insert_ne by congruence.
    destruct (decide (n = 3%Z)) as [-> | H3];
      [ rewrite lookup_insert_eq; intros [= <-]; cbn; split; reflexivity | ].
    rewrite lookup_insert_ne by congruence.
    destruct (decide (n = 4%Z)) as [-> | H4];
      [ rewrite lookup_insert_eq; intros [= <-]; cbn; split; [ discriminate | lia ] | ].
    rewrite lookup_insert_ne by congruence.
    destruct (decide (n = 5%Z)) as [-> | H5];
      [ rewrite lookup_insert_eq; intros [= <-]; cbn; split; [ discriminate | lia ] | ].
    rewrite lookup_insert_ne by congruence.
    rewrite lookup_empty. discriminate.
Qed.

(** C2, the failing run: on the sample batch, where the video of episode
    3 is missing (and episode 4 fails), the result reports no skipped episode
    at all. *)
Lemma batch_reports_no_skip :
  five_with_third_incomplete Fixtures.five_episodes
  /\ exists batch w',
      BatchService.process_episodes Fixtures.service Fixtures.five_episodes
        "out" "Episode_" 0 0 (Some Sim.record_progress) Fixtures.studio
      = (Ret batch, w')
      /\ BatchResult.skipped batch = 0%Z
      /\ BatchResult.skipped batch <> 1%Z
      /\ BatchResult.total_episodes batch = 4%Z
      /\ BatchResult.failed batch = 1%Z
      /\ result_episodes (BatchResult.results batch) = [1; 2; 4; 5]%Z.
Proof.
  split; [ exact five_episodes_shape | ].
  eexists; eexists. split; [ vm_compute; reflexivity | ].
  cbn. repeat split. discriminate.
Qed.

(** C2, on the sample batch. *)
Lemma batch_of_five_sample :
  exists batch w',
    BatchService.process_episodes Fixtures.service Fixtures.five_episodes
      "out" "Episode_" 0 0 (Some Sim.record_progress) Fixtures.studio
    = (Ret batch, w')
    /\ BatchResult.skipped batch = 0%Z
    /\ BatchResult.total_episodes batch = 4%Z
    /\ result_episodes (BatchResult.results batch) = [1; 2; 4; 5]%Z
    /\ (forall n, In n [1; 2; 4; 5]%Z ->
          count_occ Z.eq_dec (result_episodes (BatchResult.results batch)) n = 1%nat)
    /\ count_occ Z.eq_dec (result_episodes (BatchResult.results batch)) 3%Z = 0%nat
    /\ (BatchResult.successful batch + BatchResult.failed batch = 4)%Z.
Proof.
  apply batch_of_five.
  - exact five_episodes_shape.
  - intros w. eexists. reflexivity.
  - intros n. eexists. reflexivity.
Defined.

Section DirectoryFacts.
Context {W : Type} `{World W}.

(** The loop of [process_directory] over complete episodes never takes
    its branch for an episode without video. *)
Lemma directory_loop_no_skip (self : BatchService.t) (output_directory : Path)
    (output_pattern : string) (audio_offset_ms subtitle_offset_ms : Z)
    (progress_callback : option (Z -> Z -> string -> M W unit))
    (items : list (Z * Episode.t)) :
  Forall (fun item => Episode.is_complete (snd item) = true) items ->
  forall acc w acc' w',
    BatchService.directory_loop self output_directory output_pattern audio_offset_ms
      subtitle_offset_ms progress_callback items acc w = (Ret acc', w') ->
    BatchService.t_skipped acc' = BatchService.t_skipped acc
    /\ (Forall (fun entry => BatchResult.skipped_key entry = None)
               (BatchService.t_results acc) ->
        Forall (fun entry => BatchResult.skipped_key entry = None)
               (BatchService.t_results acc')).
Proof.
  intros Hall.
  induction Hall as [|[ep_num episode] rest Hcomplete _ IH]; intros acc w acc' w' Hrun.
  - cbn in Hrun. injection Hrun as <- <-. split; [ reflexivity | trivial ].
  - cbn [BatchService.directory_loop] in Hrun. unfold bind at 1 in Hrun.
    destruct (BatchService.notify progress_callback ep_num 0 _ w) as [[[]|e] w0];
      [ | discriminate ].
    unfold bind at 1 in Hrun.
    cbn [snd] in Hcomplete.
    unfold BatchService._create_job_from_episode, Episode.is_complete in Hrun, Hcomplete.
    destruct (Episode.video_file episode) as [video|]; [ | discriminate Hcomplete ].
    unfold bind at 1, lift_res in Hrun.
    destruct (str_format_ep output_pattern (Episode.number episode)) as [name|e];
      [ | discriminate ].
    unfold bind at 1, gets, ret in Hrun.
    unfold bind at 1 in Hrun.
    destruct (BatchService.run_remux self _ progress_callback ep_num w0)
      as [[result|e] w1]; [ | discriminate ].
    unfold bind at 1 in Hrun.
    destruct (BatchService.notify progress_callback ep_num 100 _ w1) as [[[]|e] w2];
      [ | discriminate ].
    apply IH in Hrun as [Hskip Hkeys].
    destruct (RemuxResult.success result); cbn in Hskip, Hkeys |- *.
    all: split; [ exact Hskip | ].
    all: intros Hacc; apply Hkeys, Forall_app; split; [ exact Hacc | ].
    all: repeat constructor.
Qed.

(** X2. [process_directory] filters before its loop too: whenever it
    returns a result, the result reports no skipped episode and no entry of
    its list is marked as skipped. *)
Theorem process_directory_skips_nothing (self : BatchService.t)
    (directory output_directory : Path) (output_pattern : string)
    (audio_offset_ms subtitle_offset_ms : Z)
    (progress_callback : option (Z -> Z -> string -> M W unit)) (w : W) :
  match BatchService.process_directory self directory output_directory output_pattern
          audio_offset_ms subtitle_offset_ms progress_callback w with
  | (Ret batch, _) =>
      BatchResult.skipped batch = 0%Z
      /\ Forall (fun entry => BatchResult.skipped_key entry = None)
                (BatchResult.results batch)
  | (Raise _, _) => True
  end.
Proof.
  unfold BatchService.process_directory, bind at 1, gets at 1.
  unfold bind at 1.
  destruct (EpisodeMatcher.scan_directory directory false w) as [[episodes|e] w0];
    [ | exact I ].
  destruct (bool_decide (episodes = ∅)).
  - split; [ reflexivity | constructor ].
  - unfold bind at 1.
    destruct (path_mkdir output_directory w0) as [[[]|e] w1]; [ | exact I ].
    unfold bind at 1.
    destruct (BatchService.directory_loop self output_directory output_pattern
                audio_offset_ms subtitle_offset_ms progress_callback
                (BatchService.sorted_items
                   (EpisodeMatcher.filter_complete_episodes episodes))
                (BatchService.mkTally [] 0 0 0) w1) as [[acc|e] w2] eqn:Hloop;
      [ | exact I ].
    cbn.
    destruct (directory_loop_no_skip _ _ _ _ _ _ _ (sorted_items_complete episodes)
                _ _ _ _ Hloop) as [Hskip Hkeys].
    split; [ exact Hskip | apply Hkeys; constructor ].
Qed.

End DirectoryFacts.

(** [process_directory] on the sample directory: episode 3 has an audio
    file only and episode 4 has no file at all; three episodes are found
    complete, and none is reported as skipped. *)
Example process_directory_sample :
  match BatchService.process_directory Fixtures.service "in" "out" "Episode_" 0 0
          (Some Sim.record_progress) Fixtures.studio with
  | (Ret batch, _) =>
      (BatchResult.total_episodes batch, BatchResult.successful batch,
       BatchResult.failed batch, BatchResult.skipped batch,
       result_episodes (BatchResult.results batch))
      = (3, 3, 0, 0, [1; 2; 5])%Z
  | (Raise _, _) => False
  end.
Proof. vm_compute. reflexivity. Qed.

(** * More properties of the code *)

(** ** The job and its methods *)

(** X4. Whatever methods are called on a job and in whatever order, a
    progress that starts in 0..100 stays there, and the files, tracks and
    options of the job are never touched. [update_progress] stores a value of
    that range as it is and clamps any other. *)
Theorem progress_stays_in_range (job job' : RemuxJob.t) :
  evolves job job' ->
  (0 <= RemuxJob.progress job <= 100)%Z ->
  (0 <= RemuxJob.progress job' <= 100)%Z
  /\ same_work job job'
  /\ (forall p, (0 <= RemuxJob.progress (RemuxJob.update_progress p job') <= 100)%Z)
  /\ (forall p, (0 <= p <= 100)%Z ->
        RemuxJob.progress (RemuxJob.update_progress p job') = p)
  /\ (forall p, (p < 0)%Z -> RemuxJob.progress (RemuxJob.update_progress p job') = 0%Z)
  /\ (forall p, (100 < p)%Z ->
        RemuxJob.progress (RemuxJob.update_progress p job') = 100%Z).
Proof.
  intros Hev Hrange.
  assert (Hinv : (0 <= RemuxJob.progress job' <= 100)%Z /\ same_work job job').
  { induction Hev as [ | now job' _ [IHp IHw] | now job' _ [IHp IHw]
                       | now reason job' _ [IHp IHw] | p job' _ [IHp IHw] ].
    - split; [ exact Hrange | repeat split ].
    - split; [ cbn; lia | exact IHw ].
    - split; [ cbn; lia | exact IHw ].
    - split; [ exact IHp | exact IHw ].
    - split; [ cbn; lia | exact IHw ]. }
  destruct Hinv as [Hp Hw].
  split; [ exact Hp | split; [ exact Hw | ] ].
  repeat split; intros; cbn; lia.
Qed.

Lemma progress_stays_in_range_sample :
  (0 <= RemuxJob.progress
          (RemuxJob.update_progress 150
             (RemuxJob.start 1%Q Fixtures.job_pending)) <= 100)%Z
  /\ same_work Fixtures.job_pending
       (RemuxJob.update_progress 150 (RemuxJob.start 1%Q Fixtures.job_pending))
  /\ (forall p, (0 <= RemuxJob.progress
                        (RemuxJob.update_progress p
                           (RemuxJob.update_progress 150
                              (RemuxJob.start 1%Q Fixtures.job_pending))) <= 100)%Z)
  /\ (forall p, (0 <= p <= 100)%Z ->
        RemuxJob.progress
          (RemuxJob.update_progress p
             (RemuxJob.update_progress 150 (RemuxJob.start 1%Q Fixtures.job_pending)))
        = p)
  /\ (forall p, (p < 0)%Z ->
        RemuxJob.progress
          (RemuxJob.update_progress p
             (RemuxJob.update_progress 150 (RemuxJob.start 1%Q Fixtures.job_pending)))
        = 0%Z)
  /\ (forall p, (100 < p)%Z ->
        RemuxJob.progress
          (RemuxJob.update_progress p
             (RemuxJob.update_progress 150 (RemuxJob.start 1%Q Fixtures.job_pending)))
        = 100%Z).
Proof.
  apply (progress_stays_in_range Fixtures.job_pending).
  - apply evolves_update, evolves_start, evolves_here.
  - cbn. lia.
Defined.

(** ** File names *)

Lemma str_in_In (x : string) (set : list string) : str_in x set = true <-> In x set.
Proof.
  unfold str_in. rewrite existsb_exists. split.
  - intros (y & Hin & Heq). apply String.eqb_eq in Heq. now subst.
  - intros Hin. exists x. split; [ exact Hin | apply String.eqb_refl ].
Qed.

Section FileKinds.
Context {W : Type} `{World W}.

(** X5. The three kinds of file exclude each other: no path is taken for
    two of video, audio and subtitle, whatever its suffix. *)
Theorem file_kinds_exclusive (file_path : Path) :
  (is_video_file file_path = true ->
   is_audio_file file_path = false /\ is_subtitle_file file_path = false)
  /\ (is_audio_file file_path = true ->
      is_video_file file_path = false /\ is_subtitle_file file_path = false)
  /\ (is_subtitle_file file_path = true ->
      is_video_file file_path = false /\ is_audio_file file_path = false).
Proof.
  unfold is_video_file, is_audio_file, is_subtitle_file.
  generalize (get_file_extension file_path). intros ext.
  split; [ | split ]; intros Hin; apply str_in_In in Hin; cbn in Hin;
    repeat (destruct Hin as [<- | Hin]; [ split; reflexivity | ]); contradiction.
Qed.

End FileKinds.

Lemma replace_char_map (old new : ascii) (s : string) :
  replace_char old new s = map_string (fun c => if Ascii.eqb c old then new else c) s.
Proof. induction s as [|c s IH]; cbn; [ reflexivity | now rewrite IH ]. Qed.

Lemma map_string_compose (f g : ascii -> ascii) (s : string) :
  map_string g (map_string f s) = map_string (fun c => g (f c)) s.
Proof. induction s as [|c s IH]; cbn; [ reflexivity | now rewrite IH ]. Qed.

Lemma map_string_ext (f g : ascii -> ascii) (s : string) :
  (forall c, f c = g c) -> map_string f s = map_string g s.
Proof.
  intros Hfg. induction s as [|c s IH]; cbn; [ reflexivity | now rewrite Hfg, IH ].
Qed.

(** The nine replacements amount to one pass that turns every invalid
    character into an underscore. *)
Lemma sanitize_filename_pointwise (filename : string) :
  sanitize_filename filename = map_string sanitize_char filename.
Proof.
  unfold sanitize_filename, invalid_chars. cbn [fold_left].
  rewrite !replace_char_map, !map_string_compose.
  apply map_string_ext. intros c.
  destruct c as [[] [] [] [] [] [] [] []]; reflexivity.
Qed.

Lemma sanitize_char_valid (c : ascii) : ~ In (sanitize_char c) invalid_chars.
Proof.
  destruct c as [[] [] [] [] [] [] [] []]; vm_compute;
    intros Hin; repeat (destruct Hin as [Heq | Hin]; [ discriminate Heq | ]); exact Hin.
Qed.

Lemma sanitize_char_keeps (c : ascii) : ~ In c invalid_chars -> sanitize_char c = c.
Proof.
  intros Hc. unfold sanitize_char.
  destruct (existsb (Ascii.eqb c) invalid_chars) eqn:Hex; [ | reflexivity ].
  exfalso. apply Hc. apply existsb_exists in Hex as (d & Hd & Heq).
  apply Ascii.eqb_eq in Heq. now subst.
Qed.

(** X6. [sanitize_filename] leaves no invalid character, keeps the length
    and every valid character in its place, changes nothing in a name that is
    already clean, and is idempotent. *)
Theorem sanitize_filename_clean (filename : string) :
  (forall c, In c (chars (sanitize_filename filename)) -> ~ In c invalid_chars)
  /\ String.length (sanitize_filename filename) = String.length filename
  /\ (forall i c, nth_error (chars filename) i = Some c ->
        nth_error (chars (sanitize_filename filename)) i
        = Some (if existsb (Ascii.eqb c) invalid_chars then "_"%char else c))
  /\ ((forall c, In c (chars filename) -> ~ In c invalid_chars) ->
      sanitize_filename filename = filename)
  /\ sanitize_filename (sanitize_filename filename) = sanitize_filename filename.
Proof.
  rewrite !sanitize_filename_pointwise.
  assert (Hclean : forall s c, In c (chars (map_string sanitize_char s)) ->
                     ~ In c invalid_chars).
  { intros s. induction s as [|d s IH]; intros c Hin; cbn in Hin; [ contradiction | ].
    destruct Hin as [<- | Hin]; [ apply sanitize_char_valid | now apply IH ]. }
  assert (Hkeep : forall s, (forall c, In c (chars s) -> ~ In c invalid_chars) ->
                    map_string sanitize_char s = s).
  { intros s. induction s as [|d s IH]; intros Hs; cbn; [ reflexivity | ].
    rewrite sanitize_char_keeps by (apply Hs; now left).
    rewrite IH; [ reflexivity | ]. intros c Hc. apply Hs. now right. }
  split; [ apply Hclean | split; [ | split; [ | split ] ] ].
  - induction filename as [|d s IH]; cbn; [ reflexivity | now rewrite IH ].
  - induction filename as [|d s IH]; intros i c Hnth; destruct i as [|i]; cbn in *;
      try discriminate.
    + injection Hnth as ->. reflexivity.
    + now apply IH.
  - apply Hkeep.
  - apply Hkeep, Hclean.
Qed.

(** ** Language codes *)

Lemma lower_char_idempotent (c : ascii) : lower_char (lower_char c) = lower_char c.
Proof. destruct c as [[] [] [] [] [] [] [] []]; reflexivity. Qed.

Lemma lower_idempotent (s : string) : lower (lower s) = lower s.
Proof.
  induction s as [|c s IH]; cbn; [ reflexivity | now rewrite lower_char_idempotent, IH ].
Qed.

(** X7. The language codes survive the round trip through their text: the
    value of every [LanguageCode] is parsed back to it. The parser does not
    look at the case of the letters, and the empty text is unknown. *)
Theorem parse_language_round_trip :
  (forall l, FFprobeEngine._parse_language (language_value l) = l)
  /\ (forall l, FFprobeEngine._parse_language (lower (language_value l)) = l)
  /\ (forall s, s <> "" ->
        FFprobeEngine._parse_language (lower s) = FFprobeEngine._parse_language s)
  /\ FFprobeEngine._parse_language "" = UNKNOWN.
Proof.
  repeat split.
  - intros l. destruct l; vm_compute; reflexivity.
  - intros l. destruct l; vm_compute; reflexivity.
  - intros s Hs. unfold FFprobeEngine._parse_language.
    rewrite lower_idempotent.
    destruct s as [|c s]; [ contradiction | ]. reflexivity.
Qed.

(** ** Episode maps *)

Lemma fold_min_spec (ks : list Z) (k : Z) :
  In (fold_left Z.min ks k) (k :: ks)
  /\ (forall x, In x (k :: ks) -> (fold_left Z.min ks k <= x)%Z).
Proof.
  revert k. induction ks as [|y ks IH]; intros k; cbn [fold_left].
  - split; [ now left | intros x [<- | []]; lia ].
  - destruct (IH (Z.min k y)) as [Hin Hle]. split.
    + destruct Hin as [Heq | Hin]; [ | right; now right ].
      rewrite <- Heq. destruct (Z.min_spec k y) as [[_ ->] | [_ ->]];
        [ now left | right; now left ].
    + intros x Hx.
      assert (Hmin : (fold_left Z.min ks (Z.min k y) <= Z.min k y)%Z)
        by (apply Hle; now left).
      destruct Hx as [<- | [<- | Hx]]; [ lia | lia | apply Hle; now right ].
Qed.

Lemma fold_max_spec (ks : list Z) (k : Z) :
  In (fold_left Z.max ks k) (k :: ks)
  /\ (forall x, In x (k :: ks) -> (x <= fold_left Z.max ks k)%Z).
Proof.
  revert k. induction ks as [|y ks IH]; intros k; cbn [fold_left].
  - split; [ now left | intros x [<- | []]; lia ].
  - destruct (IH (Z.max k y)) as [Hin Hle]. split.
    + destruct Hin as [Heq | Hin]; [ | right; now right ].
      rewrite <- Heq. destruct (Z.max_spec k y) as [[_ ->] | [_ ->]];
        [ right; now left | now left ].
    + intros x Hx.
      assert (Hmax : (Z.max k y <= fold_left Z.max ks (Z.max k y))%Z)
        by (apply Hle; now left).
      destruct Hx as [<- | [<- | Hx]]; [ lia | lia | apply Hle; now right ].
Qed.

Lemma keys_of_map (episodes : gmap Z Episode.t) (k : Z) :
  In k (map fst (map_to_list episodes)) <-> is_Some (episodes !! k).
Proof.
  rewrite <- list_elem_of_In.
  change (k ∈ (map_to_list episodes).*1 <-> is_Some (episodes !! k)).
  rewrite list_elem_of_fmap. split.
  - intros ([k' e] & -> & Hin). apply elem_of_map_to_list in Hin. cbn. eauto.
  - intros [e He]. exists (k, e). split; [ reflexivity | now apply elem_of_map_to_list ].
Qed.

(** X8. [get_episode_range] gives [(None, None)] exactly for the empty
    map; otherwise it gives two episode numbers of the map, and every episode
    number of the map lies between them. *)
Theorem episode_range_bounds (episodes : gmap Z Episode.t) :
  (episodes = ∅ <-> EpisodeMatcher.get_episode_range episodes = (None, None))
  /\ (episodes <> ∅ ->
      exists lo hi,
        EpisodeMatcher.get_episode_range episodes = (Some lo, Some hi)
        /\ is_Some (episodes !! lo)
        /\ is_Some (episodes !! hi)
        /\ (forall k, is_Some (episodes !! k) -> (lo <= k <= hi)%Z)).
Proof.
  unfold EpisodeMatcher.get_episode_range.
  destruct (map fst (map_to_list episodes)) as [|k ks] eqn:Hkeys.
  - assert (Hempty : episodes = ∅).
    { apply map_to_list_empty_iff. destruct (map_to_list episodes); [ reflexivity | ].
      discriminate Hkeys. }
    split; [ split; [ reflexivity | intros _; exact Hempty ] | ].
    intros Hne. contradiction.
  - assert (Hne : episodes <> ∅).
    { intros ->. rewrite map_to_list_empty in Hkeys. discriminate Hkeys. }
    split; [ split; [ contradiction | discriminate ] | ].
    intros _. eexists; eexists. split; [ reflexivity | ].
    destruct (fold_min_spec ks k) as [Hmin_in Hmin_le].
    destruct (fold_max_spec ks k) as [Hmax_in Hmax_le].
    rewrite <- Hkeys in Hmin_in, Hmin_le, Hmax_in, Hmax_le.
    split; [ now apply keys_of_map | split; [ now apply keys_of_map | ] ].
    intros x Hx. apply keys_of_map in Hx. split; [ now apply Hmin_le | now apply Hmax_le ].
Qed.

(** A match further on in the subject is enough for [search] to find
    one. *)
Lemma search_from_finds (ic : bool) (ngroups : nat) (r : Re.regex) (pre : list ascii) :
  forall pos rest,
    is_Some (Re.match_at ic ngroups r ((pos + length pre)%nat, rest)) ->
    is_Some (Re.search_from ic ngroups r pos (pre ++ rest)).
Proof.
  induction pre as [|c pre IH]; intros pos rest Hm.
  - cbn [length app] in *. rewrite Nat.add_0_r in Hm.
    destruct rest; cbn [Re.search_from]; destruct Hm as [caps ->]; eauto.
  - cbn [app Re.search_from].
    destruct (Re.match_at ic ngroups r (pos, c :: pre ++ rest)); [ eauto | ].
    apply IH. cbn [length] in Hm.
    now replace (S pos + length pre)%nat with (pos + S (length pre))%nat by lia.
Qed.

Lemma lower_app (a b : string) : lower (a +:+ b) = lower a +:+ lower b.
Proof.
  induction a as [|c a IH]; [ reflexivity | ].
  change (String (lower_char c) (lower (a +:+ b))
          = String (lower_char c) (lower a +:+ lower b)).
  now rewrite IH.
Qed.

(** X9. A file name that holds one of the words forced, letreros or
    signs, in any mix of upper and lower case and anywhere in the name, is a
    forced subtitle. *)
Theorem forced_keyword_anywhere (before word after : string) :
  In (lower word) ["forced"; "letreros"; "signs"] ->
  EpisodeMatcher.is_forced_subtitle (before +:+ word +:+ after) = true.
Proof.
  intros Hword. unfold EpisodeMatcher.is_forced_subtitle.
  rewrite !lower_app.
  apply existsb_exists.
  assert (Hfound : forall p : Re.pattern,
            Re.ignorecase p = true ->
            (forall pos suf,
                is_Some (Re.match_at true (Re.ngroups p) (Re.syntax p)
                           (pos, list_ascii_of_string (lower word) ++ suf))) ->
            bool_decide (is_Some (Re.search p (lower before +:+ lower word +:+ lower after)))
            = true).
  { intros p Hic Hat. apply bool_decide_eq_true. unfold Re.search. rewrite Hic.
    rewrite !list_ascii_of_string_app. apply search_from_finds, Hat. }
  destruct Hword as [Hw | [Hw | [Hw | []]]]; rewrite <- Hw in Hfound |- *.
  - exists (Re.mkPattern true 0 (Re.word "forced")). split; [ now left | ].
    apply Hfound; [ reflexivity | ]. intros pos suf. cbn. eauto.
  - exists (Re.mkPattern true 0 (Re.word "letreros")). split; [ right; now left | ].
    apply Hfound; [ reflexivity | ]. intros pos suf. cbn. eauto.
  - exists (Re.mkPattern true 0 (Re.word "signs")). split; [ right; right; now left | ].
    apply Hfound; [ reflexivity | ]. intros pos suf. cbn. eauto.
Qed.

Lemma forced_keyword_anywhere_sample :
  EpisodeMatcher.is_forced_subtitle ("Show_03_" +:+ "FORCED" +:+ ".ass") = true.
Proof. apply forced_keyword_anywhere. now left. Defined.

(** ** The process runner and the engine *)

Section EngineFacts.
Context {W : Type} `{World W}.

(** X10. [execute] never raises, whatever the process, the reading of
    its output or the callback does. Its result is a success only if the
    process was launched, its stderr was read to the end and it exited with
    code 0. An exit code other than 0 gives a failure, and when stderr was read
    to the end and no callback is given the message names the code. A process
    that cannot be launched, an exception that leaves the monitoring loop and
    an error of the reading of stderr each give a failure with the message of
    the exception, whatever the exit code. *)
Theorem execute_maps_exit_code {J : Type} (command : list string)
    (progress_callback : option (Z -> M (W * J) unit)) (s : W * J) :
  (exists result s', MKVMergeEngine.execute command progress_callback s = (Ret result, s'))
  /\ (forall result s',
         MKVMergeEngine.execute command progress_callback s = (Ret result, s') ->
         RemuxResult.success result = true ->
         exists process w1,
           popen command (fst s) = (Ret process, w1)
           /\ returncode process = 0%Z
           /\ stderr_error process = None)
  /\ (forall process w1,
         popen command (fst s) = (Ret process, w1) ->
         returncode process <> 0%Z ->
         (exists result s',
             MKVMergeEngine.execute command progress_callback s = (Ret result, s')
             /\ RemuxResult.success result = false)
         /\ (stderr_error process = None ->
             MKVMergeEngine.execute command None s
             = (Ret (RemuxResult.failure
                       ("El proceso fall" +:+ o_acute +:+ " con c" +:+ o_acute
                        +:+ "digo " +:+ str_int (returncode process))),
                (w1, snd s))))
  /\ (forall e w1,
         popen command (fst s) = (Raise e, w1) ->
         MKVMergeEngine.execute command progress_callback s
         = (Ret (RemuxResult.failure (exn_msg e)), (w1, snd s)))
  /\ (forall process w1 e s1,
         popen command (fst s) = (Ret process, w1) ->
         MKVMergeEngine.monitor progress_callback (stderr process) (w1, snd s)
         = (Raise e, s1) ->
         MKVMergeEngine.execute command progress_callback s
         = (Ret (RemuxResult.failure (exn_msg e)), s1))
  /\ (forall process w1 e s1,
         popen command (fst s) = (Ret process, w1) ->
         MKVMergeEngine.monitor progress_callback (stderr process) (w1, snd s)
         = (Ret tt, s1) ->
         stderr_error process = Some e ->
         MKVMergeEngine.execute command progress_callback s
         = (Ret (RemuxResult.failure (exn_msg e)), s1))
  /\ (forall process w1 e,
         popen command (fst s) = (Ret process, w1) ->
         stderr_error process = Some e ->
         MKVMergeEngine.execute command None s
         = (Ret (RemuxResult.failure (exn_msg e)), (w1, snd s))).
Proof.
  destruct (execute_result command progress_callback s)
    as (result & s' & Hrun & Hshape).
  pose proof (execute_cases command progress_callback s) as Hcases.
  pose proof (execute_cases (J := J) command None s) as Hquiet.
  split; [ eauto | ].
  split.
  { intros result' s'' Hrun' Hsuccess. rewrite Hrun in Hrun'.
    injection Hrun' as <- <-.
    destruct Hshape as [(_ & _ & _ & Hproc) | [Hfail _]]; [ exact Hproc | congruence ]. }
  split.
  { intros process w1 Hpopen Hnz. split.
    - exists result, s'. split; [ exact Hrun | ].
      destruct Hshape as [(_ & _ & _ & (process' & w1' & Hpopen' & Hzero & _)) | [Hfail _]];
        [ | exact Hfail ].
      rewrite Hpopen in Hpopen'. injection Hpopen' as <- <-. contradiction.
    - intros Hread. rewrite Hpopen, monitor_without_callback, Hread in Hquiet.
      destruct (Z.eqb_spec (returncode process) 0) as [Hzero | _];
        [ contradiction | exact Hquiet ]. }
  split.
  { intros e w1 Hpopen. now rewrite Hpopen in Hcases. }
  split.
  { intros process w1 e s1 Hpopen Hloop. now rewrite Hpopen, Hloop in Hcases. }
  split.
  { intros process w1 e s1 Hpopen Hloop Hread.
    now rewrite Hpopen, Hloop, Hread in Hcases. }
  intros process w1 e Hpopen Hread.
  now rewrite Hpopen, monitor_without_callback, Hread in Hquiet.
Qed.

(** The command of [build_command] starts with the executable, [-o] and
    the output file. *)
Lemma build_command_head (self : MKVMergeEngine.t) (job : RemuxJob.t) (w w' : W)
    (cmd : list string) :
  MKVMergeEngine.build_command self job w = (Ret cmd, w') ->
  exists rest,
    cmd = MKVMergeEngine.executable_path self :: "-o" :: RemuxJob.output_file job :: rest.
Proof.
  unfold MKVMergeEngine.build_command, bind.
  destruct (MKVMergeEngine.add_tracks MKVMergeEngine._add_audio_track _
              (RemuxJob.audio_tracks job) w) as [[cmd1|e] w1] eqn:Haudio; [ | discriminate ].
  intros Hsubs.
  apply add_tracks_extends in Haudio as [ext1 ->];
    [ | intros; eapply add_audio_track_extends; eassumption ].
  apply add_tracks_extends in Hsubs as [ext2 ->];
    [ | intros; eapply add_subtitle_track_extends; eassumption ].
  unfold MKVMergeEngine._add_video_input. cbn. eauto.
Qed.

Lemma extract_output_of_head (executable output : string) (rest : list string) :
  str_in executable ["-o"; "-y"; "--output"] = false ->
  MKVMergeEngine._extract_output_file (executable :: "-o" :: output :: rest) = Some output.
Proof.
  intros Hexe. unfold MKVMergeEngine._extract_output_file.
  cbn [MKVMergeEngine.extract_output_loop]. rewrite Hexe. cbn [andb].
  assert (Hy : String.eqb executable "-y" = false).
  { unfold str_in in Hexe. cbn in Hexe.
    destruct (String.eqb executable "-y"); [ | reflexivity ].
    destruct (String.eqb executable "-o"); discriminate Hexe. }
  rewrite Hy. reflexivity.
Qed.

(** X11. When the engine reports a success for a job, the output file of
    the result is the output file of the job, read back from the command that
    was built, provided the executable is not itself one of the output
    flags. *)
Theorem success_names_job_output {J : Type} (self : MKVMergeEngine.t) (job : RemuxJob.t)
    (progress_callback : option (Z -> M (W * J) unit)) (s s' : W * J)
    (result : RemuxResult.t) :
  str_in (MKVMergeEngine.executable_path self) ["-o"; "-y"; "--output"] = false ->
  MKVMergeEngine.remux self job progress_callback s = (Ret result, s') ->
  RemuxResult.success result = true ->
  RemuxResult.output_file result = Some (RemuxJob.output_file job).
Proof.
  intros Hexe Hrun Hsuccess.
  unfold MKVMergeEngine.remux, bind, lift in Hrun.
  destruct (MKVMergeEngine.build_command self job (fst s)) as [[cmd|e] w1] eqn:Hbuild;
    [ | discriminate ].
  destruct (build_command_head self job _ _ _ Hbuild) as [rest ->].
  destruct (execute_result (J := J)
              (MKVMergeEngine.executable_path self :: "-o" :: RemuxJob.output_file job :: rest)
              progress_callback (w1, snd s))
    as (result' & s'' & Hexec & Hshape).
  rewrite Hexec in Hrun. injection Hrun as -> ->.
  destruct Hshape as [(_ & _ & Hout & _) | [Hfail _]]; [ | congruence ].
  rewrite Hout. now apply extract_output_of_head.
Qed.

End EngineFacts.

Lemma success_names_job_output_sample :
  RemuxResult.output_file
    (RemuxResult.succeeded (Some "out/show_05.mkv"))
  = Some (RemuxJob.output_file
            (RemuxJob.new 0%Q "in/show_05.mkv" "out/show_05.mkv" [] [] false true true)).
Proof.
  apply (success_names_job_output (J := unit) (MKVMergeEngine.mk "mkvmerge")
           (RemuxJob.new 0%Q "in/show_05.mkv" "out/show_05.mkv" [] [] false true true)
           None (Fixtures.studio, tt) (Fixtures.studio, tt)
           (RemuxResult.succeeded (Some "out/show_05.mkv"))).
  - reflexivity.
  - vm_compute. reflexivity.
  - reflexivity.
Defined.

(** ** The job after the service has run *)

Section RemuxOutcome.
Context {W : Type} `{World W}.

(** When the [try] block of [remux] returns, the job has been completed or
    failed in step with the result. *)
Lemma remux_body_outcome (self : RemuxService.t) (start_time : Time)
    (progress_callback : option (Z -> M (W * RemuxJob.t) unit))
    (s s' : W * RemuxJob.t) (result : RemuxResult.t) :
  RemuxService.remux_body self start_time progress_callback s = (Ret result, s') ->
  RemuxJob.completed_at (snd s') = Some (now (fst s'))
  /\ RemuxResult.duration_seconds result = Some (now (fst s') - start_time)%Q
  /\ ((RemuxResult.success result = true
       /\ RemuxJob.status (snd s') = COMPLETED /\ RemuxJob.progress (snd s') = 100%Z
       /\ RemuxResult.error_message result = None)
      \/ (RemuxResult.success result = false
          /\ RemuxJob.status (snd s') = FAILED
          /\ RemuxJob.error_message (snd s')
             = Some (or_default (RemuxResult.error_message result) "Error desconocido")
          /\ is_Some (RemuxResult.error_message result))).
Proof.
  unfold RemuxService.remux_body, bind at 1 2, get_self, gets, lift.
  destruct (validate_remux_job (snd s) (fst s)) as [[[]|e] w1]; [ | discriminate ].
  unfold RemuxService.job_start, bind at 1 2 3 4, clock, update_self, gets, modify.
  cbn [fst snd].
  unfold MKVMergeEngine.remux, bind at 1 2, lift. cbn [fst snd].
  destruct (MKVMergeEngine.build_command _ _ w1) as [[cmd|e] w2]; [ | discriminate ].
  destruct (execute_result cmd progress_callback (w2, RemuxJob.start (now w1) (snd s)))
    as (engine_result & s2 & -> & Hshape).
  unfold bind at 1.
  destruct Hshape as [(Hsuccess & Hnone & _) | (Hfail & Hmsg)].
  - rewrite Hsuccess.
    unfold RemuxService.job_complete, bind, clock, update_self, gets, modify, ret.
    intros [= <- <-]. cbn [fst snd]. destruct engine_result; cbn in *.
    split; [ reflexivity | split; [ reflexivity | left; auto ] ].
  - rewrite Hfail.
    unfold RemuxService.job_fail, bind, clock, update_self, gets, modify, ret.
    intros [= <- <-]. cbn [fst snd]. destruct engine_result; cbn in *.
    split; [ reflexivity | split; [ reflexivity | right; auto ] ].
Qed.

(** X12. After [remux] the job agrees with the result, whichever way the
    run went (validation error, command that cannot be launched, exit code,
    callback that raises): a success leaves the job COMPLETED at progress 100,
    a failure leaves it FAILED with a message, and in both cases the job is
    stamped with the time of its end. *)
Theorem remux_job_agrees_with_result (self : RemuxService.t)
    (progress_callback : option (Z -> M (W * RemuxJob.t) unit))
    (s : W * RemuxJob.t) :
  exists result w' job',
    RemuxService.remux self progress_callback s = (Ret result, (w', job'))
    /\ RemuxJob.completed_at job' = Some (now w')
    /\ (RemuxResult.success result = true ->
        RemuxJob.status job' = COMPLETED /\ RemuxJob.progress job' = 100%Z
        /\ RemuxResult.error_message result = None
        /\ RemuxResult.duration_seconds result = Some (now w' - now (fst s))%Q)
    /\ (RemuxResult.success result = false ->
        RemuxJob.status job' = FAILED
        /\ is_Some (RemuxJob.error_message job')
        /\ is_Some (RemuxResult.error_message result)).
Proof.
  unfold RemuxService.remux, bind at 1, clock, gets, try_except.
  destruct (RemuxService.remux_body self (now (fst s)) progress_callback s)
    as [[result | e] [w1 job1]] eqn:Hbody.
  - exists result, w1, job1. split; [ reflexivity | ].
    apply remux_body_outcome in Hbody as (Hstamp & Hduration & Hcases).
    cbn [fst snd] in *. split; [ exact Hstamp | ].
    destruct Hcases as [(Hsuccess & Hstatus & Hprogress & Hnone)
                       | (Hfail & Hstatus & Hmsg & Hres)].
    + split; [ intros _ | intros Hno; congruence ].
      repeat split; assumption.
    + split; [ intros Hyes; congruence | intros _ ].
      rewrite Hmsg. repeat split; eauto.
  - destruct (remux_handler_returns e (w1, job1)) as [message ->].
    eexists; eexists; eexists. split; [ reflexivity | ]. cbn [fst snd].
    split; [ reflexivity | ].
    split; [ intros Hyes; discriminate Hyes | intros _ ].
    repeat split; eauto.
Qed.

End RemuxOutcome.

(** ** What a validated job is *)

(** [validate_tracks] passes exactly on lists with distinct ids and offsets
    within the hour. *)
Lemma validate_tracks_ok (tracks : list Track.t) :
  validate_tracks tracks = Ret tt <->
  NoDup (map Track.id tracks)
  /\ Forall (fun t => (Z.abs (Track.offset_ms t) <= 3600000)%Z) tracks.
Proof.
  destruct (decide (NoDup (map Track.id tracks))) as [Hnd | Hdup].
  - rewrite (validate_tracks_distinct _ Hnd), check_offsets_ok. tauto.
  - rewrite (validate_tracks_duplicates _ Hdup). split; [ discriminate | tauto ].
Qed.

Lemma bind_Ret_inv {S A B : Type} (m : M S A) (k : A -> M S B) (s s' : S) (b : B) :
  bind m k s = (Ret b, s') ->
  exists a s1, m s = (Ret a, s1) /\ k a s1 = (Ret b, s').
Proof.
  unfold bind. destruct (m s) as [[a|e] s1]; [ eauto | discriminate ].
Qed.

Section ValidatorFacts.
Context {W : Type} `{World W}.

(** X13. A job that [validate_remux_job] lets through has a video file
    that exists, is a regular file and has a video extension; an output that
    did not resolve to the same path as the video; in each of its two track
    lists distinct ids and offsets of at most one hour; and something to do:
    a track to add or original tracks to keep. *)
Theorem validated_job_is_sound (job : RemuxJob.t) (w w' : W) :
  validate_remux_job job w = (Ret tt, w') ->
  (exists w0 w1,
      path_exists (RemuxJob.video_file job) w = (Ret true, w0)
      /\ path_is_file (RemuxJob.video_file job) w0 = (Ret true, w1))
  /\ is_video_file (RemuxJob.video_file job) = true
  /\ (exists w2 w3 out vid,
        path_resolve (RemuxJob.output_file job) w2 = (Ret out, w3)
        /\ path_resolve (RemuxJob.video_file job) w3 = (Ret vid, w')
        /\ out <> vid)
  /\ NoDup (map Track.id (RemuxJob.audio_tracks job))
  /\ NoDup (map Track.id (RemuxJob.subtitle_tracks job))
  /\ Forall (fun t => (Z.abs (Track.offset_ms t) <= 3600000)%Z)
            (RemuxJob.audio_tracks job ++ RemuxJob.subtitle_tracks job)
  /\ (RemuxJob.audio_tracks job <> [] \/ RemuxJob.subtitle_tracks job <> []
      \/ RemuxJob.include_original_audio job = true
      \/ RemuxJob.include_original_subtitles job = true).
Proof.
  unfold validate_remux_job. intros Hrun.
  apply bind_Ret_inv in Hrun as ([] & wa & Hvideo & Hrun).
  apply bind_Ret_inv in Hrun as ([] & wb & Houtput & Hrun).
  apply bind_Ret_inv in Hrun as (out & wc & Hout & Hrun).
  apply bind_Ret_inv in Hrun as (vid & wd & Hvid & Hrun).
  apply bind_Ret_inv in Hrun as ([] & we & Hsame & Hrun).
  apply bind_Ret_inv in Hrun as ([] & wf & Haudio & Hrun).
  apply bind_Ret_inv in Hrun as ([] & wg & Hsubs & Hrun).
  (* the video file *)
  unfold validate_video_file in Hvideo.
  apply bind_Ret_inv in Hvideo as ([] & wv & Hexists & Hext).
  unfold validate_file_exists in Hexists.
  apply bind_Ret_inv in Hexists as (ex & w0 & Hex & Hexists).
  destruct ex; cbn [negb] in Hexists; [ | discriminate ].
  apply bind_Ret_inv in Hexists as (isf & w1 & Hisf & Hexists).
  destruct isf; cbn [negb] in Hexists; [ | discriminate ].
  destruct (is_video_file (RemuxJob.video_file job)) eqn:Hkind;
    cbn [negb] in Hext; [ | discriminate ].
  (* the two resolved paths *)
  destruct (String.eqb_spec out vid) as [Heq | Hne]; [ discriminate | ].
  injection Hsame as <-.
  (* the tracks *)
  unfold lift_res in Haudio, Hsubs.
  injection Haudio as Haudio <-. injection Hsubs as Hsubs <-.
  apply validate_tracks_ok in Haudio as [Haudio_ids Haudio_offsets].
  apply validate_tracks_ok in Hsubs as [Hsubs_ids Hsubs_offsets].
  assert (Hlast : wd = w'
                  /\ (RemuxJob.audio_tracks job <> [] \/ RemuxJob.subtitle_tracks job <> []
                      \/ RemuxJob.include_original_audio job = true
                      \/ RemuxJob.include_original_subtitles job = true)).
  { destruct (RemuxJob.audio_tracks job) as [|a rest];
      [ | injection Hrun as <-; split; [ reflexivity | left; discriminate ] ].
    destruct (RemuxJob.subtitle_tracks job) as [|b rest];
      [ | injection Hrun as <-; split; [ reflexivity | right; left; discriminate ] ].
    destruct (RemuxJob.include_original_audio job);
      [ injection Hrun as <-; auto | ].
    destruct (RemuxJob.include_original_subtitles job);
      [ injection Hrun as <-; auto | ].
    discriminate Hrun. }
  destruct Hlast as [<- Hwork].
  split; [ eauto | ].
  split; [ reflexivity | ].
  split; [ exists wb, wc, out, vid; auto | ].
  split; [ exact Haudio_ids | ].
  split; [ exact Hsubs_ids | ].
  split; [ apply Forall_app; auto | exact Hwork ].
Qed.

End ValidatorFacts.

Lemma validated_job_is_sound_sample :
  is_video_file (W := Sim.world) (RemuxJob.video_file Fixtures.job_with_audio) = true
  /\ NoDup (map Track.id (RemuxJob.audio_tracks Fixtures.job_with_audio)).
Proof.
  destruct (validated_job_is_sound Fixtures.job_with_audio Fixtures.studio Fixtures.studio)
    as (_ & Hkind & _ & Hids & _).
  - vm_compute. reflexivity.
  - split; [ exact Hkind | exact Hids ].
Defined.

(** ** The jobs of a batch *)

Lemma offsets_of_imap (f : nat -> Path -> Track.t) (offset : Z) (files : list Path) :
  (forall i x, Track.offset_ms (f i x) = offset) ->
  Forall (fun t => (Z.abs (Track.offset_ms t) <= 3600000)%Z) (imap f files)
  <-> files = [] \/ within_hour offset.
Proof.
  intros Hoffset. unfold within_hour. rewrite Forall_forall. split.
  - intros Hall. destruct files as [|x rest]; [ now left | right ].
    rewrite <- (Hoffset 0%nat x). apply Hall.
    apply (elem_of_lookup_imap_2 f (x :: rest) x 0). reflexivity.
  - intros [-> | Hin] t Ht; [ inversion Ht | ].
    apply elem_of_lookup_imap_1 in Ht as (i & x & -> & _). now rewrite Hoffset.
Qed.

Lemma audio_track_ids (offset : Z) (files : list Path) :
  Track.id <$> imap (BatchService.audio_track offset) files
  = Z.of_nat <$> seq 0 (length files).
Proof. rewrite fmap_imap. exact (imap_seq_0 files Z.of_nat). Qed.

Lemma subtitle_track_ids (offset : Z) (files : list Path) :
  Track.id <$> imap (BatchService.subtitle_track offset) files
  = Z.of_nat <$> seq 0 (length files).
Proof. rewrite fmap_imap. exact (imap_seq_0 files Z.of_nat). Qed.

Lemma forced_track_ids (offset : Z) (regular : nat) (files : list Path) :
  Track.id <$> imap (BatchService.forced_track offset regular) files
  = (fun i => Z.of_nat (regular + i) + Z.of_nat i)%Z <$> seq 0 (length files).
Proof.
  rewrite fmap_imap.
  exact (imap_seq_0 files (fun i => Z.of_nat (regular + i) + Z.of_nat i)%Z).
Qed.

Lemma counting_ids_distinct (n : nat) : NoDup (Z.of_nat <$> seq 0 n).
Proof.
  apply NoDup_fmap_2_strong; [ intros x y _ _; lia | apply NoDup_seq ].
Qed.

Lemma subtitle_ids_distinct (regular forced : nat) :
  NoDup ((Z.of_nat <$> seq 0 regular)
         ++ ((fun i => Z.of_nat (regular + i) + Z.of_nat i)%Z <$> seq 0 forced)).
Proof.
  apply NoDup_app. split; [ apply counting_ids_distinct | split ].
  - intros x Hx Hy.
    apply list_elem_of_fmap in Hx as (i & -> & Hi).
    apply list_elem_of_fmap in Hy as (j & Heq & _).
    apply elem_of_seq in Hi. lia.
  - apply NoDup_fmap_2_strong; [ intros x y _ _; lia | apply NoDup_seq ].
Qed.

Section BatchJobs.
Context {W : Type} `{World W}.

(** X14. The job the batch service creates for an episode: the video of
    the episode, one track for each file and in the order of the files, with
    ids that are distinct in each list (the audio tracks count from 0, the
    forced subtitles continue after the regular ones). So the validation of
    its tracks never fails for duplicated ids, and passes exactly when the
    offset of the batch is within the hour or there is no file of the kind. *)
Theorem batch_job_tracks (episode : Episode.t) (output_directory : Path)
    (output_pattern : string) (audio_offset_ms subtitle_offset_ms : Z)
    (w w' : W) (job : RemuxJob.t) :
  BatchService._create_job_from_episode episode output_directory output_pattern
    audio_offset_ms subtitle_offset_ms w = (Ret (Some job), w') ->
  Episode.video_file episode = Some (RemuxJob.video_file job)
  /\ map Track.file_path (RemuxJob.audio_tracks job)
     = map Some (Episode.audio_files episode)
  /\ map Track.file_path (RemuxJob.subtitle_tracks job)
     = map Some (Episode.subtitle_files episode ++ Episode.forced_subtitle_files episode)
  /\ NoDup (map Track.id (RemuxJob.audio_tracks job))
  /\ NoDup (map Track.id (RemuxJob.subtitle_tracks job))
  /\ (validate_tracks (RemuxJob.audio_tracks job) = Ret tt
      <-> Episode.audio_files episode = [] \/ within_hour audio_offset_ms)
  /\ (validate_tracks (RemuxJob.subtitle_tracks job) = Ret tt
      <-> Episode.subtitle_files episode ++ Episode.forced_subtitle_files episode = []
          \/ within_hour subtitle_offset_ms).
Proof.
  unfold BatchService._create_job_from_episode.
  destruct (Episode.video_file episode) as [video|]; [ | discriminate ].
  unfold bind, lift_res, gets, ret.
  destruct (str_format_ep output_pattern (Episode.number episode)) as [name|e];
    [ | discriminate ].
  intros [= <- <-]. cbn [RemuxJob.new RemuxJob.video_file RemuxJob.audio_tracks
                         RemuxJob.subtitle_tracks].
  set (audios := Episode.audio_files episode).
  set (subs := Episode.subtitle_files episode).
  set (forced := Episode.forced_subtitle_files episode).
  assert (Haudio_ids :
    NoDup (map Track.id (imap (BatchService.audio_track audio_offset_ms) audios))).
  { change (NoDup (Track.id <$> imap (BatchService.audio_track audio_offset_ms) audios)).
    rewrite audio_track_ids. apply counting_ids_distinct. }
  assert (Hsubs_ids :
    NoDup (map Track.id
             (imap (BatchService.subtitle_track subtitle_offset_ms) subs
              ++ imap (BatchService.forced_track subtitle_offset_ms
                         (length (imap (BatchService.subtitle_track subtitle_offset_ms) subs)))
                      forced))).
  { rewrite map_app.
    change (NoDup ((Track.id <$> imap (BatchService.subtitle_track subtitle_offset_ms) subs)
                   ++ (Track.id <$> imap (BatchService.forced_track subtitle_offset_ms
                          (length (imap (BatchService.subtitle_track subtitle_offset_ms) subs)))
                        forced))).
    rewrite subtitle_track_ids, forced_track_ids, length_imap.
    apply subtitle_ids_distinct. }
  split; [ reflexivity | ].
  split.
  { change (Track.file_path <$> imap (BatchService.audio_track audio_offset_ms) audios
            = Some <$> audios).
    rewrite fmap_imap. exact (imap_const Some audios). }
  split.
  { rewrite !map_app.
    change ((Track.file_path <$> imap (BatchService.subtitle_track subtitle_offset_ms) subs)
            ++ (Track.file_path <$> imap (BatchService.forced_track subtitle_offset_ms
                   (length (imap (BatchService.subtitle_track subtitle_offset_ms) subs)))
                 forced)
            = (Some <$> subs) ++ (Some <$> forced)).
    rewrite !fmap_imap. f_equal; [ exact (imap_const Some subs) | exact (imap_const Some forced) ]. }
  split; [ exact Haudio_ids | ].
  split; [ exact Hsubs_ids | ].
  split.
  - rewrite validate_tracks_ok, (offsets_of_imap _ audio_offset_ms) by reflexivity. tauto.
  - rewrite validate_tracks_ok, Forall_app, !(offsets_of_imap _ subtitle_offset_ms)
      by reflexivity.
    split.
    + intros (_ & [Hsubs | Hin] & [Hforced | Hin']); auto.
      left. fold subs forced. now rewrite Hsubs, Hforced.
    + intros [Hnil | Hin]; [ | tauto ].
      apply app_eq_nil in Hnil as [Hsubs Hforced]. tauto.
Qed.

End BatchJobs.

Lemma batch_job_tracks_sample :
  exists job : RemuxJob.t,
    map Track.id (RemuxJob.subtitle_tracks job) = [0; 1; 3]%Z
    /\ NoDup (map Track.id (RemuxJob.subtitle_tracks job))
    /\ validate_tracks (RemuxJob.subtitle_tracks job) = Ret tt.
Proof.
  destruct (BatchService._create_job_from_episode Fixtures.episode_with_signs
              "out" "Episode_" 0 250 Fixtures.studio)
    as [[[job|]|e] w'] eqn:Hjob; try discriminate Hjob.
  exists job.
  destruct (batch_job_tracks Fixtures.episode_with_signs "out" "Episode_" 0 250
              Fixtures.studio w' job Hjob)
    as (_ & _ & _ & _ & Hids & _ & Hvalid).
  split; [ | split; [ exact Hids | ] ].
  - vm_compute in Hjob. injection Hjob as <- _. reflexivity.
  - apply Hvalid. right. unfold within_hour. lia.
Defined.

(** ** Grouping the files of a directory *)

Section GroupingFacts.
Context {W : Type} `{World W}.

(** A property that every step of a loop of [group_files_by_episode]
    keeps holds after the loop. *)
Lemma group_loop_invariant (accepts : Path -> bool)
    (put : Path -> Episode.t -> Episode.t) (Inv : gmap Z Episode.t -> Prop)
    (files : list Path) :
  (forall file k episodes,
      In file files -> accepts file = true -> numbered file k -> Inv episodes ->
      Inv (<[k := put file (EpisodeMatcher.episode_entry episodes k)]> episodes)) ->
  forall episodes episodes',
    Inv episodes ->
    EpisodeMatcher.group_loop accepts put files episodes = Ret episodes' ->
    Inv episodes'.
Proof.
  induction files as [|file rest IH]; intros Hstep episodes episodes' Hinv Hrun.
  - cbn in Hrun. injection Hrun as <-. exact Hinv.
  - cbn [EpisodeMatcher.group_loop] in Hrun.
    assert (Hrest : forall file' k episodes0,
               In file' rest -> accepts file' = true -> numbered file' k -> Inv episodes0 ->
               Inv (<[k := put file' (EpisodeMatcher.episode_entry episodes0 k)]> episodes0)).
    { intros file' k episodes0 Hin. apply Hstep. now right. }
    destruct (accepts file) eqn:Haccepts; cbn [negb] in Hrun;
      [ | exact (IH Hrest _ _ Hinv Hrun) ].
    destruct (EpisodeMatcher.extract_episode_number (path_name file))
      as [[k|]|e] eqn:Hnumber; [ | exact (IH Hrest _ _ Hinv Hrun) | discriminate ].
    refine (IH Hrest _ _ _ Hrun).
    apply Hstep; [ now left | exact Haccepts | exact Hnumber | exact Hinv ].
Qed.

(** A property that a step on the file [file] establishes and every step
    keeps holds after a loop over a list with [file] in it. *)
Lemma group_loop_reaches (accepts : Path -> bool)
    (put : Path -> Episode.t -> Episode.t) (Target : gmap Z Episode.t -> Prop)
    (file : Path) (k : Z) :
  accepts file = true -> numbered file k ->
  (forall episodes,
      Target (<[k := put file (EpisodeMatcher.episode_entry episodes k)]> episodes)) ->
  (forall file' k' episodes,
      Target episodes ->
      Target (<[k' := put file' (EpisodeMatcher.episode_entry episodes k')]> episodes)) ->
  forall files episodes episodes',
    In file files ->
    EpisodeMatcher.group_loop accepts put files episodes = Ret episodes' ->
    Target episodes'.
Proof.
  intros Haccepts Hnumber Hfirst Hkeep files.
  induction files as [|file' rest IH]; intros episodes episodes' Hin Hrun; [ destruct Hin | ].
  destruct Hin as [-> | Hin].
  - cbn [EpisodeMatcher.group_loop] in Hrun. rewrite Haccepts in Hrun.
    cbn [negb] in Hrun. unfold numbered in Hnumber. rewrite Hnumber in Hrun.
    eapply (group_loop_invariant accepts put Target rest); [ | | exact Hrun ].
    + intros; now apply Hkeep.
    + apply Hfirst.
  - cbn [EpisodeMatcher.group_loop] in Hrun.
    destruct (accepts file'); cbn [negb] in Hrun; [ | exact (IH _ _ Hin Hrun) ].
    destruct (EpisodeMatcher.extract_episode_number (path_name file'))
      as [[k'|]|e]; [ | exact (IH _ _ Hin Hrun) | discriminate ].
    exact (IH _ _ Hin Hrun).
Qed.

(** The episode a step works on is well filed when the dictionary is. *)
Lemma episode_entry_well_filed (videos audios subtitles : list Path)
    (episodes : gmap Z Episode.t) (k : Z) :
  (forall k e, episodes !! k = Some e -> well_filed videos audios subtitles k e) ->
  well_filed videos audios subtitles k (EpisodeMatcher.episode_entry episodes k).
Proof.
  intros Hall. unfold EpisodeMatcher.episode_entry.
  destruct (episodes !! k) as [e|] eqn:Hlookup; cbn [default].
  - now apply Hall.
  - repeat split; cbn; intros; try discriminate; contradiction.
Qed.

(** A step that keeps the episode it works on well filed keeps the
    dictionary well filed. *)
Lemma insert_well_filed (videos audios subtitles : list Path)
    (put : Path -> Episode.t -> Episode.t) (file : Path) (k : Z)
    (episodes : gmap Z Episode.t) :
  (forall e, well_filed videos audios subtitles k e ->
             well_filed videos audios subtitles k (put file e)) ->
  (forall k e, episodes !! k = Some e -> well_filed videos audios subtitles k e) ->
  forall k' e',
    <[k := put file (EpisodeMatcher.episode_entry episodes k)]> episodes !! k' = Some e' ->
    well_filed videos audios subtitles k' e'.
Proof.
  intros Hput Hall k' e' Hlookup.
  destruct (decide (k' = k)) as [-> | Hne].
  - rewrite lookup_insert_eq in Hlookup. injection Hlookup as <-.
    apply Hput. now apply episode_entry_well_filed.
  - rewrite lookup_insert_ne in Hlookup by congruence. now apply Hall.
Qed.

(** What a step keeps: an episode that is there, with what its slots
    hold. *)
Lemma insert_keeps (Q : Episode.t -> Prop) (put : Path -> Episode.t -> Episode.t)
    (file : Path) (k k0 : Z) (episodes : gmap Z Episode.t) :
  (forall e, Q e -> Q (put file e)) ->
  (exists e, episodes !! k0 = Some e /\ Q e) ->
  exists e, <[k := put file (EpisodeMatcher.episode_entry episodes k)]> episodes !! k0
            = Some e /\ Q e.
Proof.
  intros Hput (e & Hlookup & He).
  destruct (decide (k0 = k)) as [-> | Hne].
  - rewrite lookup_insert_eq. eexists. split; [ reflexivity | ].
    apply Hput. unfold EpisodeMatcher.episode_entry. now rewrite Hlookup.
  - rewrite lookup_insert_ne by congruence. eauto.
Qed.

Lemma put_subtitle_cases (file : Path) (e : Episode.t) :
  (EpisodeMatcher.is_forced_subtitle (path_name file) = true
   /\ EpisodeMatcher.put_subtitle file e = EpisodeMatcher.append_forced file e)
  \/ (EpisodeMatcher.is_forced_subtitle (path_name file) = false
      /\ EpisodeMatcher.put_subtitle file e = EpisodeMatcher.append_subtitle file e).
Proof.
  unfold EpisodeMatcher.put_subtitle.
  destruct (EpisodeMatcher.is_forced_subtitle (path_name file)); auto.
Qed.

(** X15. Grouping files by episode misfiles nothing and loses nothing.
    In the dictionary [group_files_by_episode] returns, the episode under the
    key [k] has the number [k] and holds only files of the three lists whose
    name carries the number [k], each in the slot of its kind, a subtitle in
    the forced slot exactly when its name says so. And every video, audio or
    subtitle file of the lists whose name carries a number is filed: the
    audio and subtitle files in the slot of their episode, and an episode
    with a numbered video is complete. *)
Theorem grouping_files_by_number (videos audios subtitles : list Path)
    (episodes : gmap Z Episode.t) :
  EpisodeMatcher.group_files_by_episode videos audios subtitles = Ret episodes ->
  (forall k e, episodes !! k = Some e -> well_filed videos audios subtitles k e)
  /\ (forall f k, In f videos -> is_video_file f = true -> numbered f k ->
        exists e, episodes !! k = Some e /\ Episode.is_complete e = true)
  /\ (forall f k, In f audios -> is_audio_file f = true -> numbered f k ->
        exists e, episodes !! k = Some e /\ In f (Episode.audio_files e))
  /\ (forall f k, In f subtitles -> is_subtitle_file f = true -> numbered f k ->
        exists e, episodes !! k = Some e /\ In f (subtitle_slot f e)).
Proof.
  unfold EpisodeMatcher.group_files_by_episode.
  destruct (EpisodeMatcher.group_loop is_video_file EpisodeMatcher.set_video videos ∅)
    as [with_videos|e] eqn:Hvideos; [ | discriminate ].
  destruct (EpisodeMatcher.group_loop is_audio_file EpisodeMatcher.append_audio audios
              with_videos) as [with_audios|e] eqn:Haudios; [ | discriminate ].
  intros Hsubtitles.
  split; [ | split; [ | split ] ].
  - (* nothing is misfiled *)
    assert (H1 : forall k e, with_videos !! k = Some e ->
                   well_filed videos audios subtitles k e).
    { eapply (group_loop_invariant is_video_file EpisodeMatcher.set_video
                (fun m => forall k e, m !! k = Some e ->
                            well_filed videos audios subtitles k e));
        [ | | exact Hvideos ].
      - intros file k m Hin Hkind Hnumber Hall.
        apply insert_well_filed; [ | exact Hall ].
        intros e (Hn & Hv & Ha & Hs & Hf).
        split; [ exact Hn | split; [ | split; [ exact Ha | split; [ exact Hs | exact Hf ] ] ] ].
        cbn. intros v' [= <-]. auto.
      - intros k e Hlookup. rewrite lookup_empty in Hlookup. discriminate. }
    assert (H2 : forall k e, with_audios !! k = Some e ->
                   well_filed videos audios subtitles k e).
    { eapply (group_loop_invariant is_audio_file EpisodeMatcher.append_audio
                (fun m => forall k e, m !! k = Some e ->
                            well_filed videos audios subtitles k e));
        [ | exact H1 | exact Haudios ].
      intros file k m Hin Hkind Hnumber Hall.
      apply insert_well_filed; [ | exact Hall ].
      intros e (Hn & Hv & Ha & Hs & Hf).
      split; [ exact Hn | split; [ exact Hv | split; [ | split; [ exact Hs | exact Hf ] ] ] ].
      cbn. intros f Hf'. apply in_app_or in Hf' as [Hold | [<- | []]]; auto. }
    eapply (group_loop_invariant is_subtitle_file EpisodeMatcher.put_subtitle
              (fun m => forall k e, m !! k = Some e ->
                          well_filed videos audios subtitles k e));
      [ | exact H2 | exact Hsubtitles ].
    intros file k m Hin Hkind Hnumber Hall.
    apply insert_well_filed; [ | exact Hall ].
    intros e (Hn & Hv & Ha & Hs & Hf).
    destruct (put_subtitle_cases file e) as [[Hforced ->] | [Hplain ->]].
    + split; [ exact Hn | split; [ exact Hv | split; [ exact Ha | split; [ exact Hs | ] ] ] ].
      cbn. intros f Hf'. apply in_app_or in Hf' as [Hold | [<- | []]]; auto.
    + split; [ exact Hn | split; [ exact Hv | split; [ exact Ha | split; [ | exact Hf ] ] ] ].
      cbn. intros f Hf'. apply in_app_or in Hf' as [Hold | [<- | []]]; auto.
  - (* a numbered video makes its episode complete *)
    intros f k Hin Hkind Hnumber.
    set (Q := fun e => Episode.is_complete e = true).
    assert (H1 : exists e, with_videos !! k = Some e /\ Q e).
    { eapply (group_loop_reaches is_video_file EpisodeMatcher.set_video
                (fun m => exists e, m !! k = Some e /\ Q e) f k Hkind Hnumber);
        [ | | exact Hin | exact Hvideos ].
      - intros m. rewrite lookup_insert_eq. eexists. split; reflexivity.
      - intros file' k' m. apply insert_keeps. intros e _. reflexivity. }
    assert (H2 : exists e, with_audios !! k = Some e /\ Q e).
    { eapply (group_loop_invariant is_audio_file EpisodeMatcher.append_audio
                (fun m => exists e, m !! k = Some e /\ Q e));
        [ | exact H1 | exact Haudios ].
      intros file' k' m _ _ _. apply insert_keeps. intros e He. exact He. }
    eapply (group_loop_invariant is_subtitle_file EpisodeMatcher.put_subtitle
              (fun m => exists e, m !! k = Some e /\ Q e));
      [ | exact H2 | exact Hsubtitles ].
    intros file' k' m _ _ _. apply insert_keeps. intros e He.
    destruct (put_subtitle_cases file' e) as [[_ ->] | [_ ->]]; exact He.
  - (* no audio file is lost *)
    intros f k Hin Hkind Hnumber.
    set (Q := fun e => In f (Episode.audio_files e)).
    assert (H2 : exists e, with_audios !! k = Some e /\ Q e).
    { eapply (group_loop_reaches is_audio_file EpisodeMatcher.append_audio
                (fun m => exists e, m !! k = Some e /\ Q e) f k Hkind Hnumber);
        [ | | exact Hin | exact Haudios ].
      - intros m. rewrite lookup_insert_eq. eexists. split; [ reflexivity | ].
        unfold Q. cbn. apply in_or_app. right. now left.
      - intros file' k' m. apply insert_keeps. intros e He.
        unfold Q in *. cbn. apply in_or_app. now left. }
    eapply (group_loop_invariant is_subtitle_file EpisodeMatcher.put_subtitle
              (fun m => exists e, m !! k = Some e /\ Q e));
      [ | exact H2 | exact Hsubtitles ].
    intros file' k' m _ _ _. apply insert_keeps. intros e He.
    destruct (put_subtitle_cases file' e) as [[_ ->] | [_ ->]]; exact He.
  - (* no subtitle file is lost *)
    intros f k Hin Hkind Hnumber.
    eapply (group_loop_reaches is_subtitle_file EpisodeMatcher.put_subtitle
              (fun m => exists e, m !! k = Some e /\ In f (subtitle_slot f e))
              f k Hkind Hnumber);
      [ | | exact Hin | exact Hsubtitles ].
    + intros m. rewrite lookup_insert_eq. eexists. split; [ reflexivity | ].
      unfold subtitle_slot.
      destruct (put_subtitle_cases f (EpisodeMatcher.episode_entry m k))
        as [[-> ->] | [-> ->]]; cbn; apply in_or_app; right; now left.
    + intros file' k' m. apply insert_keeps. intros e He.
      unfold subtitle_slot in *.
      destruct (put_subtitle_cases file' e) as [[_ ->] | [_ ->]];
        destruct (EpisodeMatcher.is_forced_subtitle (path_name f)); cbn;
        try exact He; apply in_or_app; now left.
Qed.

End GroupingFacts.

Lemma grouping_files_by_number_sample :
  exists episodes e,
    EpisodeMatcher.group_files_by_episode (W := Sim.world)
      Fixtures.videos Fixtures.audios Fixtures.subtitles = Ret episodes
    /\ episodes !! 2%Z = Some e
    /\ In "in/Show_02_signs.ass" (Episode.forced_subtitle_files e).
Proof.
  destruct (EpisodeMatcher.group_files_by_episode (W := Sim.world)
              Fixtures.videos Fixtures.audios Fixtures.subtitles)
    as [episodes|err] eqn:Hrun; [ | vm_compute in Hrun; discriminate Hrun ].
  destruct (grouping_files_by_number _ _ _ _ Hrun) as (_ & _ & _ & Hsubtitles).
  destruct (Hsubtitles "in/Show_02_signs.ass" 2%Z) as (e & He & Hin).
  - right. now left.
  - reflexivity.
  - vm_compute. reflexivity.
  - exists episodes, e. split; [ reflexivity | split; [ exact He | exact Hin ] ].
Defined.

(** ** The account of a batch *)


Section BatchAccount.
Context {W : Type} `{World W}.


End BatchAccount.


(** ** Progress lines, read back *)

(** A greedy repetition of a character class takes a whole run of the
    class when what follows the run lets the match go on. *)
Lemma rmatch_class_greedy {R : Type} (p : ascii -> bool) (lo : nat)
    (run rest : list ascii) (caps : Re.captures)
    (k : Re.cursor -> Re.captures -> option R) (x : R) :
  Forall (fun c => p c = true) run ->
  match rest with [] => True | c :: _ => p c = false end ->
  (lo <= length run)%nat ->
  forall pos,
    k ((pos + length run)%nat, rest) caps = Some x ->
    Re.rmatch false (Re.Rep (Re.Class p) lo None) (pos, run ++ rest) caps k = Some x.
Proof.
  intros Hrun Hrest. cbn [Re.rmatch snd].
  assert (Hn : (length run <= length (run ++ rest))%nat) by (rewrite length_app; lia).
  revert Hn. generalize (length (run ++ rest)). intros n. revert n lo.
  induction Hrun as [|c run Hc _ IH]; intros n lo Hn Hlo pos Hk.
  - cbn [length] in Hlo, Hk. rewrite Nat.add_0_r in Hk.
    assert (lo = 0%nat) as -> by lia. cbn [app].
    destruct n as [|n]; [ exact Hk | ].
    cbn [Re.rmatch snd fst Nat.eqb].
    destruct rest as [|c rest]; [ exact Hk | ].
    unfold Re.class_matches. rewrite Hrest. cbn [orb andb]. exact Hk.
  - cbn [length] in Hn, Hlo, Hk.
    destruct n as [|n]; [ lia | ].
    cbn [app Re.rmatch snd fst].
    unfold Re.class_matches. rewrite Hc. cbn [orb].
    rewrite (IH n (pred lo)); [ reflexivity | lia | lia | ].
    now replace (S pos + length run)%nat with (pos + S (length run))%nat by lia.
Qed.

(** A literal word matches itself. *)
Lemma rmatch_word_here {R : Type} (w : string) (rest : list ascii) (caps : Re.captures)
    (k : Re.cursor -> Re.captures -> option R) :
  w <> "" ->
  forall pos,
    Re.rmatch false (Re.word w) (pos, list_ascii_of_string w ++ rest) caps k
    = k ((pos + String.length w)%nat, rest) caps.
Proof.
  induction w as [|c w IH]; intros Hne pos; [ congruence | ].
  destruct w as [|c' w].
  - cbn. unfold Re.class_matches. rewrite Ascii.eqb_refl. cbn.
    now rewrite Nat.add_1_r.
  - change (Re.word (String c (String c' w)))
      with (Re.Cat (Re.Lit c) (Re.word (String c' w))).
    rewrite rmatch_Cat.
    change (list_ascii_of_string (String c (String c' w)) ++ rest)
      with (c :: (list_ascii_of_string (String c' w) ++ rest)).
    cbn [Re.rmatch snd fst]. unfold Re.class_matches at 1.
    rewrite Ascii.eqb_refl. cbn [orb].
    rewrite IH by discriminate. cbn [String.length]. f_equal. f_equal. lia.
Qed.

Lemma digit_not_space (c : ascii) : Re.is_digit c = true -> Re.is_space c = false.
Proof. destruct c as [[] [] [] [] [] [] [] []]; vm_compute; congruence. Qed.

Lemma digit_value_char (d : N) :
  (d < 10)%N -> digit_value (pretty_N_char d) = Z.of_N d.
Proof.
  intros Hd. destruct d as [|p]; [ reflexivity | ].
  do 4 (try destruct p as [p|p|]); try reflexivity; lia.
Qed.

(** The decimal digits [str] writes, most significant first. *)
Lemma pretty_N_go_value (x : N) :
  forall s,
    fold_left (fun acc c => 10 * acc + digit_value c)%Z
      (list_ascii_of_string (pretty_N_go x s)) 0%Z
    = fold_left (fun acc c => 10 * acc + digit_value c)%Z
        (list_ascii_of_string s) (Z.of_N x).
Proof.
  induction (N.lt_wf_0 x) as [x _ IH]; intros s.
  destruct (decide (x = 0%N)) as [-> | Hpos]; [ reflexivity | ].
  rewrite pretty_N_go_step by lia.
  rewrite IH by (apply N.div_lt; lia).
  cbn [list_ascii_of_string fold_left]. f_equal.
  assert (Hdigit : digit_value (pretty_N_char (x mod 10)) = Z.of_N (x mod 10)).
  { apply digit_value_char. apply N.mod_lt. lia. }
  rewrite Hdigit. pose proof (N.div_mod x 10 ltac:(lia)). lia.
Qed.

Lemma pretty_N_go_digits (x : N) :
  forall s,
    exists run,
      list_ascii_of_string (pretty_N_go x s) = run ++ list_ascii_of_string s
      /\ Forall (fun c => Re.is_digit c = true) run
      /\ ((0 < x)%N -> run <> []).
Proof.
  induction (N.lt_wf_0 x) as [x _ IH]; intros s.
  destruct (decide (x = 0%N)) as [-> | Hpos].
  - exists []. split; [ reflexivity | split; [ constructor | lia ] ].
  - rewrite pretty_N_go_step by lia.
    destruct (IH (x / 10)%N (N.div_lt x 10 ltac:(lia) ltac:(lia))
                (String (pretty_N_char (x mod 10)) s)) as (run & -> & Hrun & _).
    exists (run ++ [pretty_N_char (x mod 10)]).
    split; [ cbn [list_ascii_of_string]; now rewrite <- app_assoc | ].
    split; [ | intros _; destruct run; discriminate ].
    apply Forall_app. split; [ exact Hrun | ].
    constructor; [ | constructor ].
    unfold pretty_N_char. repeat case_match; reflexivity.
Qed.

(** [str(n)] for a natural number is a run of digits that [int] reads
    back. *)
Lemma str_int_digits (n : Z) :
  (0 <= n)%Z ->
  Forall (fun c => Re.is_digit c = true) (list_ascii_of_string (str_int n))
  /\ list_ascii_of_string (str_int n) <> []
  /\ int_str (str_int n) = n.
Proof.
  intros Hn. destruct n as [|p|p]; [ | | lia ].
  - repeat split; [ repeat constructor | discriminate ].
  - unfold str_int, pretty, pretty_Z, pretty, pretty_positive, pretty, pretty_N.
    destruct (decide (N.pos p = 0%N)) as [Hzero | _]; [ discriminate | ].
    destruct (pretty_N_go_digits (N.pos p) "") as (run & Hchars & Hrun & Hne).
    rewrite Hchars. cbn [list_ascii_of_string]. rewrite app_nil_r.
    split; [ exact Hrun | split; [ apply Hne; lia | ] ].
    unfold int_str. now rewrite pretty_N_go_value.
Qed.

(** A match at the first position tried is the match of the search. *)
Lemma search_from_here (ic : bool) (ngroups : nat) (r : Re.regex) (pos : nat)
    (rest : list ascii) (caps : Re.captures) :
  Re.match_at ic ngroups r (pos, rest) = Some caps ->
  Re.search_from ic ngroups r pos rest = Some caps.
Proof. intros Hat. destruct rest; cbn [Re.search_from]; now rewrite Hat. Qed.

(** The pattern of [_parse_progress] at the start of a progress line. *)
Lemma progress_pattern_matches (run rest : list ascii) :
  Forall (fun c => Re.is_digit c = true) run -> run <> [] ->
  Re.search MKVMergeEngine.PROGRESS_PATTERN
    (string_of_list_ascii (list_ascii_of_string "Progress: " ++ run ++ "%"%char :: rest))
  = Some [Some (string_of_list_ascii run)].
Proof.
  intros Hrun Hne. unfold Re.search.
  rewrite list_ascii_of_string_of_list_ascii.
  assert (Hat : Re.match_at false 1 (Re.syntax MKVMergeEngine.PROGRESS_PATTERN)
                  (0%nat, list_ascii_of_string "Progress: " ++ run ++ "%"%char :: rest)
                = Some [Some (string_of_list_ascii run)]).
  { unfold Re.match_at.
    change (Re.syntax MKVMergeEngine.PROGRESS_PATTERN)
      with (Re.Cat (Re.word "Progress:")
              (Re.Cat (Re.Rep Re.space 1 None)
                 (Re.Cat (Re.Group 0 (Re.Rep (Re.Class Re.is_digit) 1 None))
                    (Re.Lit "%")))).
    change (list_ascii_of_string "Progress: " ++ run ++ "%"%char :: rest)
      with (list_ascii_of_string "Progress:" ++ ([" "%char] ++ (run ++ "%"%char :: rest))).
    rewrite rmatch_Cat, rmatch_word_here by discriminate.
    rewrite rmatch_Cat.
    apply rmatch_class_greedy.
    - repeat constructor.
    - destruct run as [|c run]; [ congruence | ].
      cbn [app]. apply digit_not_space. now inversion Hrun.
    - cbn. lia.
    - rewrite rmatch_Cat, rmatch_Group.
      apply rmatch_class_greedy; [ exact Hrun | reflexivity | | ].
      + destruct run; [ congruence | cbn; lia ].
      + cbn [Re.rmatch snd fst]. unfold Re.class_matches. cbn [Ascii.eqb orb].
        cbn. unfold Re.consumed. cbn [fst snd].
        match goal with
        | |- context [take ?n (run ++ ?l)] =>
            replace n with (length run) by lia
        end.
        now rewrite take_app_length. }
  now apply search_from_here.
Qed.

(** The number of digits [str] writes. *)
Lemma pretty_N_go_length (k : nat) :
  forall (x : N) (s : string),
    (x < 10 ^ N.of_nat k)%N ->
    (String.length (pretty_N_go x s) <= String.length s + k)%nat.
Proof.
  induction k as [|k IH]; intros x s Hx.
  - assert (x = 0%N) as -> by (change (10 ^ N.of_nat 0)%N with 1%N in Hx; lia).
    rewrite pretty_N_go_0. lia.
  - destruct (decide (x = 0%N)) as [-> | Hpos]; [ rewrite pretty_N_go_0; lia | ].
    rewrite pretty_N_go_step by lia.
    etransitivity; [ apply IH | cbn [String.length]; lia ].
    apply N.Div0.div_lt_upper_bound.
    rewrite Nat2N.inj_succ, N.pow_succ_r' in Hx. exact Hx.
Qed.

Lemma str_int_length (n : Z) :
  (0 <= n < 10 ^ int_max_str_digits)%Z ->
  (Z.of_nat (String.length (str_int n)) <= int_max_str_digits)%Z.
Proof.
  intros [Hlo Hhi]. destruct n as [|p|p]; [ | | lia ].
  - unfold int_max_str_digits. cbn [str_int pretty pretty_Z String.length]. lia.
  - unfold str_int, pretty, pretty_Z, pretty, pretty_positive, pretty, pretty_N.
    destruct (decide (N.pos p = 0%N)) as [Hzero | _]; [ discriminate | ].
    assert (Hlen : (String.length (pretty_N_go (N.pos p) "") <= 0 + 4300)%nat).
    { apply (pretty_N_go_length 4300 (N.pos p) "").
      apply N2Z.inj_lt. rewrite N2Z.inj_pow, nat_N_Z.
      exact Hhi. }
    unfold int_max_str_digits. lia.
Qed.

(** X17. A progress line is read back: for every number [n] from 0 on
    that [str] and [int] accept, that is of at most 4300 digits, the line
    [Progress: n%], with anything after it, gives [n] itself, also beyond 100.
    A line with a number of more than 4300 digits makes [_parse_progress]
    raise the [ValueError] of [int]. *)
Theorem progress_line_round_trip (n : Z) (rest : string) :
  (0 <= n < 10 ^ int_max_str_digits)%Z ->
  MKVMergeEngine._parse_progress ("Progress: " +:+ str_int n +:+ "%" +:+ rest)
  = Ret (Some n)
  /\ (forall digits : string,
        Forall (fun c => Re.is_digit c = true) (list_ascii_of_string digits) ->
        (int_max_str_digits < Z.of_nat (String.length digits))%Z ->
        MKVMergeEngine._parse_progress ("Progress: " +:+ digits +:+ "%" +:+ rest)
        = Raise (Exn (OtherException "ValueError")
                     (int_limit_message (String.length digits)))).
Proof.
  intros Hn.
  assert (Hline : forall digits,
            "Progress: " +:+ digits +:+ "%" +:+ rest
            = string_of_list_ascii
                (list_ascii_of_string "Progress: "
                 ++ list_ascii_of_string digits
                 ++ "%"%char :: list_ascii_of_string rest)).
  { intros digits.
    rewrite <- (string_of_list_ascii_of_string
                  ("Progress: " +:+ digits +:+ "%" +:+ rest)) at 1.
    now rewrite !list_ascii_of_string_app. }
  split.
  - destruct (str_int_digits n (proj1 Hn)) as (Hrun & Hne & Hvalue).
    unfold MKVMergeEngine._parse_progress.
    rewrite Hline, (progress_pattern_matches _ _ Hrun Hne).
    cbn [lookup list_lookup mjoin option_join].
    rewrite string_of_list_ascii_of_string.
    rewrite int_of_group_short by now apply str_int_length.
    now rewrite Hvalue.
  - intros digits Hrun Hlong.
    assert (Hne : list_ascii_of_string digits <> []).
    { destruct digits; [ | discriminate ].
      unfold int_max_str_digits in Hlong. cbn in Hlong. lia. }
    unfold MKVMergeEngine._parse_progress.
    rewrite Hline, (progress_pattern_matches _ _ Hrun Hne).
    cbn [lookup list_lookup mjoin option_join].
    rewrite string_of_list_ascii_of_string. unfold int_of_group.
    destruct (Z.ltb_spec int_max_str_digits (Z.of_nat (String.length digits)));
      [ reflexivity | lia ].
Qed.

Lemma progress_line_round_trip_sample :
  MKVMergeEngine._parse_progress ("Progress: " +:+ str_int 150 +:+ "%" +:+ "")
  = Ret (Some 150%Z)
  /\ (forall digits : string,
        Forall (fun c => Re.is_digit c = true) (list_ascii_of_string digits) ->
        (int_max_str_digits < Z.of_nat (String.length digits))%Z ->
        MKVMergeEngine._parse_progress ("Progress: " +:+ digits +:+ "%" +:+ "")
        = Raise (Exn (OtherException "ValueError")
                     (int_limit_message (String.length digits)))).
Proof. apply progress_line_round_trip. split; [ lia | reflexivity ]. Defined.

(** ** The command, block by block *)

Section CommandBlocks.
Context {W : Type} `{World W}.




End CommandBlocks.


(** ** The subtitle service *)

Section SubtitleFacts.
Context {W : Type} `{World W}.

Lemma validate_subtitle_says (file : Path) (w w' : W)
    (v : SubtitleService.SubtitleValidation) :
  SubtitleService.validate_subtitle file w = (Ret v, w') ->
  validation_of W file v.
Proof.
  unfold SubtitleService.validate_subtitle. intros Hrun.
  apply bind_Ret_inv in Hrun as (ex & w1 & _ & Hrun).
  destruct ex; cbn [negb] in Hrun.
  - destruct (is_subtitle_file file) eqn:Hkind; cbn [negb] in Hrun;
      injection Hrun as <- _; split;
      cbn [SubtitleService.is_valid SubtitleService.file_path SubtitleService.format
           SubtitleService.error_message];
      intros Hvalid; try discriminate Hvalid.
    + split; [ exact Hkind | ]. split; [ reflexivity | ]. split; [ reflexivity | ].
      split; [ apply str_in_In; exact Hkind | reflexivity ].
    + split; [ reflexivity | split; [ reflexivity | eauto ] ].
  - injection Hrun as <- _. split;
      cbn [SubtitleService.is_valid SubtitleService.file_path SubtitleService.format
           SubtitleService.error_message];
      intros Hvalid; try discriminate Hvalid.
    split; [ reflexivity | split; [ reflexivity | eauto ] ].
Qed.

(** X19. The validations of a list of subtitle files: one for each
    file, in the order of the files. A validation that says valid carries the
    file and its format, which is the extension in lower case and one of the
    subtitle extensions; one that says invalid carries no file, no format and
    a message. *)
Theorem validate_subtitles_pointwise (files : list Path) (w w' : W)
    (validations : list SubtitleService.SubtitleValidation) :
  SubtitleService.validate_subtitles files w = (Ret validations, w') ->
  Forall2 (validation_of W) files validations.
Proof.
  revert w w' validations.
  induction files as [|file rest IH]; intros w w' validations Hrun.
  - cbn in Hrun. injection Hrun as <- _. constructor.
  - cbn [SubtitleService.validate_subtitles] in Hrun.
    apply bind_Ret_inv in Hrun as (v & w1 & Hone & Hrun).
    apply bind_Ret_inv in Hrun as (vs & w2 & Hrest & Hrun).
    injection Hrun as <- _.
    constructor; [ exact (validate_subtitle_says _ _ _ _ Hone) | exact (IH _ _ _ Hrest) ].
Qed.

End SubtitleFacts.

Lemma validate_subtitles_pointwise_sample :
  exists validations,
    map SubtitleService.is_valid validations = [false; false]
    /\ Forall2 (validation_of Sim.world) ["in/show_09.ass"; "in/show_02.m4a"] validations.
Proof.
  destruct (SubtitleService.validate_subtitles ["in/show_09.ass"; "in/show_02.m4a"]
              Fixtures.studio) as [[validations|e] w'] eqn:Hrun;
    [ | vm_compute in Hrun; discriminate Hrun ].
  exists validations. split.
  - vm_compute in Hrun. injection Hrun as <- _. reflexivity.
  - exact (validate_subtitles_pointwise _ _ _ _ Hrun).
Defined.

(** ** Matches and their groups *)

(** A successful match sets every group of [groups_set], and a group that
    is set stays set. *)
Lemma rmatch_sets_groups {R : Type} (ic : bool) (r : Re.regex) :
  forall (cur : Re.cursor) (caps : Re.captures)
         (k : Re.cursor -> Re.captures -> option R) (x : R),
    Re.rmatch ic r cur caps k = Some x ->
    exists cur' caps',
      k cur' caps' = Some x
      /\ length caps' = length caps
      /\ (forall i, group_is_set caps i -> group_is_set caps' i)
      /\ (forall i, In i (groups_set r) -> (i < length caps)%nat -> group_is_set caps' i).
Proof.
  induction r as [c | p | r1 IH1 r2 IH2 | r1 IH1 r2 IH2 | r1 IH1 lo hi | i r1 IH1 | | ];
    intros cur caps k x Hm.
  - cbn [Re.rmatch] in Hm.
    destruct (snd cur) as [|c' rest]; [ discriminate | ].
    destruct (Re.class_matches ic (Ascii.eqb c) c'); [ | discriminate ].
    eexists; eexists. split; [ exact Hm | ].
    split; [ reflexivity | split; [ auto | intros i [] ] ].
  - cbn [Re.rmatch] in Hm.
    destruct (snd cur) as [|c' rest]; [ discriminate | ].
    destruct (Re.class_matches ic p c'); [ | discriminate ].
    eexists; eexists. split; [ exact Hm | ].
    split; [ reflexivity | split; [ auto | intros i [] ] ].
  - cbn [Re.rmatch] in Hm.
    apply IH1 in Hm as (cur1 & caps1 & Hm & Hlen1 & Hkeep1 & Hset1).
    apply IH2 in Hm as (cur2 & caps2 & Hm & Hlen2 & Hkeep2 & Hset2).
    exists cur2, caps2. split; [ exact Hm | ].
    split; [ congruence | split; [ auto | ] ].
    intros i Hin Hi. cbn [groups_set] in Hin. apply in_app_or in Hin as [Hin | Hin].
    + apply Hkeep2, Hset1; assumption.
    + apply Hset2; [ exact Hin | congruence ].
  - cbn [Re.rmatch] in Hm.
    destruct (Re.rmatch ic r1 cur caps k) as [y|] eqn:H1.
    + injection Hm as ->.
      apply IH1 in H1 as (cur1 & caps1 & Hk & Hlen1 & Hkeep1 & _).
      exists cur1, caps1. split; [ exact Hk | ].
      split; [ exact Hlen1 | split; [ exact Hkeep1 | intros i [] ] ].
    + apply IH2 in Hm as (cur1 & caps1 & Hk & Hlen1 & Hkeep1 & _).
      exists cur1, caps1. split; [ exact Hk | ].
      split; [ exact Hlen1 | split; [ exact Hkeep1 | intros i [] ] ].
  - cbn [Re.rmatch] in Hm.
    assert (Hloop : exists cur' caps',
               k cur' caps' = Some x /\ length caps' = length caps
               /\ (forall i, group_is_set caps i -> group_is_set caps' i)).
    { revert Hm.
      generalize (match hi with Some h => h | None => length (snd cur) end).
      intros n. revert lo cur caps.
      induction n as [|n IHn]; intros lo cur caps Hm.
      - destruct (lo =? 0)%nat; [ | discriminate ].
        exists cur, caps. auto.
      - match type of Hm with
        | match ?m with _ => _ end = _ => destruct m as [y|] eqn:Hstep
        end.
        + injection Hm as ->.
          apply IH1 in Hstep as (cur1 & caps1 & Hstep & Hlen1 & Hkeep1 & _).
          apply IHn in Hstep as (cur2 & caps2 & Hk & Hlen2 & Hkeep2).
          exists cur2, caps2. split; [ exact Hk | split; [ congruence | auto ] ].
        + destruct (lo =? 0)%nat; [ | discriminate ].
          exists cur, caps. auto. }
    destruct Hloop as (cur' & caps' & Hk & Hlen & Hkeep).
    exists cur', caps'. split; [ exact Hk | ].
    split; [ exact Hlen | split; [ exact Hkeep | intros i [] ] ].
  - cbn [Re.rmatch] in Hm.
    apply IH1 in Hm as (cur1 & caps1 & Hm & Hlen1 & Hkeep1 & Hset1).
    exists cur1, (<[i := Some (Re.consumed cur cur1)]> caps1).
    assert (Hinsert : forall j, group_is_set caps1 j ->
               group_is_set (<[i := Some (Re.consumed cur cur1)]> caps1) j).
    { intros j [s Hs]. destruct (decide (j = i)) as [-> | Hne].
      - exists (Re.consumed cur cur1). apply list_lookup_insert_eq.
        now apply lookup_lt_Some in Hs.
      - exists s. etransitivity; [ apply list_lookup_insert_ne; congruence | exact Hs ]. }
    split; [ exact Hm | ].
    split; [ etransitivity; [ apply length_insert | exact Hlen1 ] | ].
    split; [ auto | ].
    intros j Hin Hj. cbn [groups_set] in Hin. destruct Hin as [<- | Hin].
    + exists (Re.consumed cur cur1). apply list_lookup_insert_eq. congruence.
    + apply Hinsert, Hset1; assumption.
  - cbn [Re.rmatch] in Hm.
    destruct (fst cur =? 0)%nat; [ | discriminate ].
    eexists; eexists. split; [ exact Hm | ].
    split; [ reflexivity | split; [ auto | intros i [] ] ].
  - cbn [Re.rmatch] in Hm.
    destruct (snd cur) as [|c [|c' rest]]; [ | | discriminate ].
    + eexists; eexists. split; [ exact Hm | ].
      split; [ reflexivity | split; [ auto | intros i [] ] ].
    + destruct (Ascii.eqb c "010"); [ | discriminate ].
      eexists; eexists. split; [ exact Hm | ].
      split; [ reflexivity | split; [ auto | intros i [] ] ].
Qed.

(** What [search] returns: as many groups as the pattern has, those of
    [groups_set] set. *)
Lemma search_sets_groups (p : Re.pattern) (s : string) (groups : Re.captures) :
  Re.search p s = Some groups ->
  length groups = Re.ngroups p
  /\ (forall i, In i (groups_set (Re.syntax p)) -> (i < Re.ngroups p)%nat ->
        group_is_set groups i).
Proof.
  unfold Re.search. intros Hs.
  apply search_from_position in Hs as (pos & rest & Hm).
  unfold Re.match_at in Hm.
  apply rmatch_sets_groups in Hm as (cur' & caps' & Hk & Hlen & _ & Hset).
  injection Hk as ->. rewrite length_replicate in Hlen, Hset. auto.
Qed.

Lemma first_match_returns (patterns : list Re.pattern) (filename : string) :
  forallb sets_episode_group patterns = true ->
  exists r, EpisodeMatcher.first_match patterns filename = Ret r.
Proof.
  induction patterns as [|p rest IH]; intros Hall; cbn [EpisodeMatcher.first_match].
  - eauto.
  - cbn [forallb] in Hall. apply andb_prop in Hall as [Hp Hrest].
    destruct (Re.search p filename) as [groups|] eqn:Hs; [ | now apply IH ].
    unfold sets_episode_group in Hp. apply andb_prop in Hp as [Hp Hshort].
    pose proof (search_texts_short 3 p filename groups Hshort Hs) as Htexts.
    apply search_sets_groups in Hs as [Hlen Hset].
    unfold EpisodeMatcher.episode_of_groups.
    rewrite Hlen.
    destruct (Re.ngroups p =? 2)%nat eqn:Htwo.
    + apply Nat.eqb_eq in Htwo. apply bool_decide_eq_true in Hp.
      destruct (Hset 1%nat) as [s Hgroup]; [ now apply list_elem_of_In | lia | ].
      rewrite Hgroup. cbn [mjoin option_join].
      rewrite int_of_group_short; [ eauto | ].
      specialize (Htexts _ _ Hgroup). unfold int_max_str_digits. lia.
    + apply andb_prop in Hp as [Hp Hpos].
      apply bool_decide_eq_true in Hp. apply Nat.ltb_lt in Hpos.
      destruct (Hset 0%nat) as [s Hgroup]; [ now apply list_elem_of_In | lia | ].
      rewrite Hgroup. cbn [mjoin option_join].
      rewrite int_of_group_short; [ eauto | ].
      specialize (Htexts _ _ Hgroup). unfold int_max_str_digits. lia.
Qed.

Lemma extract_episode_number_returns (filename : string) :
  exists r, EpisodeMatcher.extract_episode_number filename = Ret r.
Proof. apply first_match_returns. vm_compute. reflexivity. Qed.

Section GroupingTotal.
Context {W : Type} `{World W}.

Lemma group_loop_returns (accepts : Path -> bool)
    (put : Path -> Episode.t -> Episode.t) (files : list Path) :
  forall episodes,
    exists episodes', EpisodeMatcher.group_loop accepts put files episodes = Ret episodes'.
Proof.
  induction files as [|file rest IH]; intros episodes; cbn [EpisodeMatcher.group_loop].
  - eauto.
  - destruct (accepts file); cbn [negb]; [ | apply IH ].
    destruct (extract_episode_number_returns (path_name file)) as [[k|] ->]; apply IH.
Qed.

(** X20. Reading episode numbers never fails. [extract_episode_number]
    converts a group of the match with [int]; in each of the seven patterns
    the group it converts takes part in every match, so [int] is never applied
    to a missing group and the function always returns; and so does
    [group_files_by_episode], for any three lists of files. *)
Theorem grouping_never_raises :
  (forall filename, exists r, EpisodeMatcher.extract_episode_number filename = Ret r)
  /\ (forall p, In p EpisodeMatcher.EPISODE_PATTERNS ->
        forall filename groups,
          Re.search p filename = Some groups ->
          exists n, EpisodeMatcher.episode_of_groups groups = Ret n)
  /\ (forall videos audios subtitles,
        exists episodes,
          EpisodeMatcher.group_files_by_episode videos audios subtitles = Ret episodes).
Proof.
  split; [ exact extract_episode_number_returns | split ].
  - intros p Hin filename groups Hs.
    assert (Hp : sets_episode_group p = true).
    { assert (Hall : forallb sets_episode_group EpisodeMatcher.EPISODE_PATTERNS = true)
        by (vm_compute; reflexivity).
      rewrite forallb_forall in Hall. now apply Hall. }
    destruct (first_match_returns [p] filename) as [r Hr].
    { cbn [forallb]. now rewrite Hp. }
    cbn [EpisodeMatcher.first_match] in Hr. rewrite Hs in Hr.
    destruct (EpisodeMatcher.episode_of_groups groups) as [n|e]; [ eauto | discriminate ].
  - intros videos audios subtitles. unfold EpisodeMatcher.group_files_by_episode.
    destruct (group_loop_returns is_video_file EpisodeMatcher.set_video videos ∅)
      as [with_videos ->].
    destruct (group_loop_returns is_audio_file EpisodeMatcher.append_audio audios
                with_videos) as [with_audios ->].
    apply group_loop_returns.
Qed.

End GroupingTotal.

(** ** Batches with nothing to do *)

Section EmptyBatches.
Context {W : Type} `{World W}.

(** X21. A batch with nothing to do is not an error and touches nothing.
    [process_episodes] on episodes none of which has a video returns the
    empty result and leaves the world as it was: no directory is made and no
    callback runs. [process_directory] on a directory that does not exist, or
    on a path that is not a directory, returns the empty result right after
    the look at the path, without listing it and without making the output
    directory. *)
Theorem nothing_to_do (self : BatchService.t) (output_directory : Path)
    (output_pattern : string) (audio_offset_ms subtitle_offset_ms : Z)
    (progress_callback : option (Z -> Z -> string -> M W unit)) (w : W) :
  (forall episodes,
      (forall k e, episodes !! k = Some e -> Episode.video_file e = None) ->
      BatchService.process_episodes self episodes output_directory output_pattern
        audio_offset_ms subtitle_offset_ms progress_callback w
      = (Ret empty_batch, w))
  /\ (forall directory w1,
        path_exists directory w = (Ret false, w1) ->
        BatchService.process_directory self directory output_directory output_pattern
          audio_offset_ms subtitle_offset_ms progress_callback w
        = (Ret empty_batch, w1))
  /\ (forall directory w1 w2,
        path_exists directory w = (Ret true, w1) ->
        path_is_dir directory w1 = (Ret false, w2) ->
        BatchService.process_directory self directory output_directory output_pattern
          audio_offset_ms subtitle_offset_ms progress_callback w
        = (Ret empty_batch, w2)).
Proof.
  split; [ | split ].
  - intros episodes Hnone.
    unfold BatchService.process_episodes, bind, gets.
    assert (Hempty : EpisodeMatcher.filter_complete_episodes episodes = ∅).
    { unfold EpisodeMatcher.filter_complete_episodes.
      apply map_empty_filter_2. intros k e He Hcomplete. cbn in Hcomplete.
      unfold Episode.is_complete in Hcomplete. rewrite (Hnone k e He) in Hcomplete.
      discriminate Hcomplete. }
    rewrite Hempty. rewrite bool_decide_eq_true_2 by reflexivity. reflexivity.
  - intros directory w1 Hex.
    unfold BatchService.process_directory, EpisodeMatcher.scan_directory, bind, gets.
    rewrite Hex. unfold ret. cbn [negb orb].
    rewrite bool_decide_eq_true_2 by reflexivity. reflexivity.
  - intros directory w1 w2 Hex Hdir.
    unfold BatchService.process_directory, EpisodeMatcher.scan_directory, bind, gets.
    rewrite Hex, Hdir. unfold ret. cbn [negb orb].
    rewrite bool_decide_eq_true_2 by reflexivity. reflexivity.
Qed.

End EmptyBatches.

(** The three cases in the simulated world. *)
Example nothing_to_do_sample :
  BatchService.process_episodes Fixtures.service
    {[ 3%Z := Episode.mk 3 None ["in/show_03.m4a"] [] [] ]}
    "out" "Episode_" 0 0 (Some Sim.record_progress) Fixtures.studio
  = (Ret empty_batch, Fixtures.studio)
  /\ BatchService.process_directory Fixtures.service "elsewhere" "out" "Episode_" 0 0
       (Some Sim.record_progress) Fixtures.studio
     = (Ret empty_batch, Fixtures.studio)
  /\ BatchService.process_directory Fixtures.service "in/show_01.mkv" "out" "Episode_" 0 0
       (Some Sim.record_progress) Fixtures.studio
     = (Ret empty_batch, Fixtures.studio).
Proof. vm_compute. repeat split. Qed.

(** ** The output file of a command *)

Lemma extract_output_loop_flag (command rest : list string) :
  MKVMergeEngine.extract_output_loop command rest = after_first_flag rest.
Proof.
  induction rest as [|arg rest IH]; [ reflexivity | ].
  cbn [MKVMergeEngine.extract_output_loop after_first_flag].
  destruct rest as [|next rest'].
  - cbn. rewrite !andb_false_r. reflexivity.
  - rewrite bool_decide_eq_false_2 by discriminate. cbn [negb]. rewrite !andb_true_r.
    destruct (str_in arg ["-o"; "-y"; "--output"]) eqn:Hflag; [ reflexivity | ].
    assert (Hy : String.eqb arg "-y" = false).
    { unfold str_in in Hflag. cbn in Hflag.
      destruct (String.eqb arg "-y"); [ | reflexivity ].
      destruct (String.eqb arg "-o"); discriminate Hflag. }
    rewrite Hy. exact IH.
Qed.

Lemma after_first_flag_member (command : list string) (p : Path) :
  after_first_flag command = Some p ->
  exists before flag after,
    command = before ++ flag :: p :: after
    /\ str_in flag ["-o"; "-y"; "--output"] = true
    /\ Forall (fun arg => str_in arg ["-o"; "-y"; "--output"] = false) before.
Proof.
  induction command as [|arg rest IH]; [ discriminate | ].
  cbn [after_first_flag]. destruct rest as [|next rest']; [ discriminate | ].
  destruct (str_in arg ["-o"; "-y"; "--output"]) eqn:Hflag.
  - intros [= <-]. exists [], arg, rest'. repeat split; [ exact Hflag | constructor ].
  - intros Hrest. destruct (IH Hrest) as (before & flag & after & Heq & Hf & Hbefore).
    exists (arg :: before), flag, after. rewrite Heq.
    repeat split; [ exact Hf | constructor; assumption ].
Qed.

(** X22. [_extract_output_file] returns the argument that follows the
    first of [-o], [-y], [--output] that is not the last argument, and [None]
    when there is none. Its second test, which would return the last argument
    of a command after [-y], is never reached: [-y] is one of the flags of the
    first test. So for a command in the style of FFmpeg, with [-y] first and
    the output last, the result is the argument after [-y], not the output. *)
Theorem extract_output_follows_flag (command : list string) :
  MKVMergeEngine._extract_output_file command = after_first_flag command
  /\ (forall p, MKVMergeEngine._extract_output_file command = Some p ->
        exists before flag after,
          command = before ++ flag :: p :: after
          /\ str_in flag ["-o"; "-y"; "--output"] = true
          /\ Forall (fun arg => str_in arg ["-o"; "-y"; "--output"] = false) before)
  /\ (forall input output,
        MKVMergeEngine._extract_output_file ["ffmpeg"; "-y"; "-i"; input; output]
        = Some "-i").
Proof.
  unfold MKVMergeEngine._extract_output_file.
  split; [ apply extract_output_loop_flag | split ].
  - intros p. rewrite extract_output_loop_flag. apply after_first_flag_member.
  - intros input output. reflexivity.
Qed.

(** ** Exceptions while the command runs, in the simulated world *)

(** Three runs of the service that fail while the command runs: the
    callback raises on the second value; a line carries a number of 4301
    digits, which [int] refuses, and the line after it never reaches the
    callback; the second line of the output cannot be decoded, although the
    process exits with code 0. Each ends with a failure result that carries
    the message of the exception, and with the job failed. *)
Example remux_failures_while_running :
  let engine := RemuxService.mk (MKVMergeEngine.mk "mkvmerge") in
  let job := RemuxJob.new 0%Q "in/show_05.mkv" "out/show_05.mkv" [] [] false true true in
  let outcome (r : res RemuxResult.t * (Sim.world * RemuxJob.t)) :=
    (match fst r with
     | Ret result => Some (RemuxResult.success result, RemuxResult.error_message result)
     | Raise _ => None
     end,
     RemuxJob.status (snd (snd r)),
     map (fun entry => snd (fst entry)) (Sim.log (fst (snd r)))) in
  outcome (RemuxService.remux engine (Some (Sim.record_up_to 50)) (Fixtures.studio, job))
  = (Some (false, Some "progress out of range"), FAILED, [50%Z])
  /\ outcome (RemuxService.remux engine (Some Sim.record_value)
                (Fixtures.studio_long_line, job))
     = (Some (false, Some (int_limit_message 4301)), FAILED, [10%Z])
  /\ outcome (RemuxService.remux engine (Some Sim.record_value)
                (Fixtures.studio_garbled, job))
     = (Some (false, Some (exn_msg Fixtures.decode_error)), FAILED, [50%Z])
  /\ outcome (RemuxService.remux engine None (Fixtures.studio_garbled, job))
     = (Some (false, Some (exn_msg Fixtures.decode_error)), FAILED, []).
Proof. vm_compute. repeat split. Qed.
